(** * blooky: a push-based reactive dataflow engine (src/blooky.ts)

    A shallow embedding of the stream graph, of the propagation algorithm
    ([flow], [flowLazy], [drip]) and of the combinators built on it
    ([stream], [pipe], [filter], [merge], [hold], [listen], [shed],
    [clear], [snapshot], [accum], [countRefs]; [filter] is
    [filter_stream] here), followed by the properties the specification
    states about them and by further properties of the engine.

    Modelling decisions, all of them visible in the definitions below.

    - The JS heap of [StreamState] objects is a list of records; a stream
      reference is the index of its record.  Objects are never freed, so
      a fresh object gets index [length].  The closure variable captured
      by every [hold] call lives in a second list, the property cells.
    - A JS [Set] of streams is a duplicate-free list in insertion order
      ([set_add], [set_delete]).
    - Functors and filter predicates are read-only: they map the property
      cells and their argument to a value or to a thrown error.
    - Observers are arbitrary user closures with effects.  Their bodies
      are trees of the effects the library and its clients perform
      ([prog]): reading a property, editing a [next] set, pushing to an
      array, injecting a value, throwing and catching; [exec] runs them
      on the [world].
    - The only closures the library stores in [updates] are the ones
      [hold] creates, [(_v) => v = _v]; such a closure is represented by
      the cell it assigns.
    - The JS call stack is finite.  [flow], [flowLazy], [drip], [clear]
      and [countRefs] take the number of nested calls still available; a
      call made with none left raises [RangeError], which, like every JS
      exception, is caught by the nearest enclosing [try].  This makes
      every operation total.
    - [console.error] only writes to the host console and is left out. *)

From Stdlib Require Import ZArith String.
From stdpp Require Import base tactics option list.

Local Open Scope list_scope.
Set Warnings "-register-all".

(** ** Values, errors and results *)

Inductive val : Type :=
  | VUndef
  | VNum (n : Z)
  | VArr (l : list val)
  | VStream (s : nat).

Inductive error : Type :=
  | RangeError
  | TypeError
  | Error (msg : string).

Inductive result (A : Type) : Type :=
  | Ok (a : A)
  | Err (e : error).
Arguments Ok {A} a.
Arguments Err {A} e.

#[global] Instance result_ret : MRet result := @Ok.
#[global] Instance result_bind : MBind result :=
  λ A B f m, match m with Ok a => f a | Err e => Err e end.

(** [try { m } catch { h }] for computations without effects. *)
Definition try_catch {A} (m : result A) (h : error → result A) : result A :=
  match m with Ok a => Ok a | Err e => h e end.

(** ** Closures with effects

    The body of an observer.  Each constructor is one effect followed by
    the rest of the body. *)

Inductive prog : Type :=
  | Done
  | Throw (e : error)
  | ReadProp (c : nat) (k : val → prog)        (* [p()] for a held property *)
  | NextDelete (s : val) (o : nat) (k : prog)  (* [s.next.delete(o)] *)
  | NextAdd (s : val) (o : nat) (k : prog)     (* [s.next.add(o)] *)
  | Push (v : val) (k : prog)                  (* [observed.push(v)] *)
  | Drip (s : nat) (v : val) (k : prog)        (* [drip(s)(v)] *)
  | Try (body handler k : prog).               (* [try { .. } catch { .. }] *)

(** ** The data model *)

Record StreamState : Type := mkStream {
  functor : list val → val → result val;           (* [STREAM_FUNCTOR] *)
  sfilter : option (list val → val → result bool); (* [STREAM_FILTER] *)
  next : list nat;
  lazyNext : list nat;
  updates : list nat;
  observers : list (val → prog)
}.

Module FlowingState.
Record t : Type := mk {
  waiting : list (nat * val);
  observers : list prog;
  updates : list (nat * val)
}.
End FlowingState.
Abbreviation FlowingState := FlowingState.t.

Record world : Type := mkWorld {
  nodes : list StreamState;
  cells : list val;
  observerPhase : bool;    (* [drip.observerPhase] *)
  observed : list val      (* an array the observers of a client push to *)
}.

Definition set_nodes (ns : list StreamState) (w : world) : world :=
  mkWorld ns (cells w) (observerPhase w) (observed w).
Definition set_cells (cs : list val) (w : world) : world :=
  mkWorld (nodes w) cs (observerPhase w) (observed w).
Definition set_observerPhase (b : bool) (w : world) : world :=
  mkWorld (nodes w) (cells w) b (observed w).
Definition set_observed (l : list val) (w : world) : world :=
  mkWorld (nodes w) (cells w) (observerPhase w) l.

Definition set_next (l : list nat) (n : StreamState) : StreamState :=
  mkStream (functor n) (sfilter n) l (lazyNext n) (updates n) (observers n).
Definition set_lazyNext (l : list nat) (n : StreamState) : StreamState :=
  mkStream (functor n) (sfilter n) (next n) l (updates n) (observers n).
Definition set_updates (l : list nat) (n : StreamState) : StreamState :=
  mkStream (functor n) (sfilter n) (next n) (lazyNext n) l (observers n).
Definition set_observers (l : list (val → prog)) (n : StreamState) : StreamState :=
  mkStream (functor n) (sfilter n) (next n) (lazyNext n) (updates n) l.
Definition set_sfilter (f : option (list val → val → result bool))
    (n : StreamState) : StreamState :=
  mkStream (functor n) f (next n) (lazyNext n) (updates n) (observers n).

(** Outcome of a computation with effects: it returns or throws, and
    either way leaves a world behind. *)
Inductive outcome (A : Type) : Type :=
  | Return (a : A) (w : world)
  | Raise (e : error) (w : world).
Arguments Return {A} a w.
Arguments Raise {A} e w.

(** JS [Set.prototype.add] and [Set.prototype.delete] on a set of streams. *)
Definition set_add (x : nat) (l : list nat) : list nat :=
  if decide (x ∈ l) then l else l ++ [x].
Definition set_delete (x : nat) (l : list nat) : list nat :=
  filter (λ y, y ≠ x) l.

(** [p()] for the property backed by cell [c]. *)
Definition reader (c : nat) (w : world) : val := default VUndef (cells w !! c).

(** ** Propagation: the pure phase *)

Definition parrot : list val → val → result val := λ _ v, Ok v.

Definition emptyFlowingState : FlowingState := FlowingState.mk [] [] [].

Definition streamToFlowingState (v : val) (s : StreamState) : FlowingState :=
  FlowingState.mk
    (map (λ m, (m, v)) (lazyNext s))
    (map (λ f, f v) (observers s))
    (map (λ p, (p, v)) (updates s)).

Definition concatFlowingState (a b : FlowingState) : FlowingState :=
  FlowingState.mk
    (FlowingState.waiting a ++ FlowingState.waiting b)
    (FlowingState.observers a ++ FlowingState.observers b)
    (FlowingState.updates a ++ FlowingState.updates b).

(** [s[k]] on something that is not an object of the heap is a TypeError. *)
Definition get_node (w : world) (s : nat) : result StreamState :=
  match nodes w !! s with Some n => Ok n | None => Err TypeError end.

(** [!s[STREAM_FILTER] || s[STREAM_FILTER](r)] *)
Definition accepts (w : world) (r : val) (c : nat) : result bool :=
  n ← get_node w c;
  match sfilter n with
  | None => Ok true
  | Some p => p (cells w) r
  end.

(** [Array.prototype.filter] with a predicate that may throw. *)
Fixpoint filterM {A} (p : A → result bool) (l : list A) : result (list A) :=
  match l with
  | [] => Ok []
  | x :: l' => b ← p x; k ← filterM p l'; Ok (if b : bool then x :: k else k)
  end.

(** [xs.map(f).reduce(concatFlowingState, init)] *)
Definition map_reduce {A} (f : A → result FlowingState) (xs : list A)
    (init : FlowingState) : result FlowingState :=
  states ← mapM f xs; Ok (foldl concatFlowingState init states).

Fixpoint flow (depth : nat) (w : world) (v : val) (s : nat) : result FlowingState :=
  match depth with
  | O => Err RangeError
  | S d =>
      try_catch
        (n ← get_node w s;
         r ← functor n (cells w) v;
         kept ← filterM (accepts w r) (next n);
         map_reduce (flow d w r) kept (streamToFlowingState r n))
        (λ _, Ok emptyFlowingState)
  end.

(** The [Map] that [flowLazy] fills: keys stay where they were first
    inserted, [set] on a present key replaces its value in place. *)
Fixpoint map_get (k : nat) (m : list (nat * list val)) : option (list val) :=
  match m with
  | [] => None
  | (k', vs) :: m' => if decide (k' = k) then Some vs else map_get k m'
  end.

Fixpoint map_set (k : nat) (vs : list val) (m : list (nat * list val))
    : list (nat * list val) :=
  match m with
  | [] => [(k, vs)]
  | (k', vs') :: m' =>
      if decide (k' = k) then (k, vs) :: m' else (k', vs') :: map_set k vs m'
  end.

(** [m.set(s, m.has(s) ? [...m.get(s)!, v] : [v])] for each pending pair. *)
Definition group_step (m : list (nat * list val)) (p : nat * val)
    : list (nat * list val) :=
  match map_get p.1 m with
  | Some vs => map_set p.1 (vs ++ [p.2]) m
  | None => map_set p.1 [p.2] m
  end.

Definition group (pending : list (nat * val)) : list (nat * list val) :=
  foldl group_step [] pending.

Fixpoint flowLazy (depth : nat) (w : world) (v : val) (s : nat) : result FlowingState :=
  match depth with
  | O => Err RangeError
  | S d =>
      r ← flow d w v s;
      match FlowingState.waiting r with
      | [] => Ok r
      | _ :: _ =>
          map_reduce (λ sv : nat * list val, flowLazy d w (VArr sv.2) sv.1)
            (group (FlowingState.waiting r))
            (FlowingState.mk [] (FlowingState.observers r) (FlowingState.updates r))
      end
  end.

(** ** Propagation: the effects *)

Definition with_node (s : val) (w : world) (f : StreamState → StreamState)
    : option world :=
  match s with
  | VStream i =>
      match nodes w !! i with
      | Some n => Some (set_nodes (<[i := f n]> (nodes w)) w)
      | None => None
      end
  | _ => None
  end.

Section Exec.
(** What a nested [drip(s)(v)] does. *)
Variable drip_call : nat → val → world → outcome FlowingState.

Fixpoint exec (p : prog) (w : world) : outcome unit :=
  match p with
  | Done => Return tt w
  | Throw e => Raise e w
  | ReadProp c k => exec (k (reader c w)) w
  | NextDelete s o k =>
      match with_node s w (λ n, set_next (set_delete o (next n)) n) with
      | Some w' => exec k w'
      | None => Raise TypeError w
      end
  | NextAdd s o k =>
      match with_node s w (λ n, set_next (set_add o (next n)) n) with
      | Some w' => exec k w'
      | None => Raise TypeError w
      end
  | Push v k => exec k (set_observed (observed w ++ [v]) w)
  | Drip s v k =>
      match drip_call s v w with
      | Return _ w' => exec k w'
      | Raise e w' => Raise e w'
      end
  | Try body handler k =>
      match exec body w with
      | Return _ w' => exec k w'
      | Raise _ w' =>
          match exec handler w' with
          | Return _ w'' => exec k w''
          | Raise e w'' => Raise e w''
          end
      end
  end.

(** [thunks.forEach(f => f())] *)
Fixpoint run_observers (thunks : list prog) (w : world) : outcome unit :=
  match thunks with
  | [] => Return tt w
  | t :: ts =>
      match exec t w with
      | Return _ w' => run_observers ts w'
      | Raise e w' => Raise e w'
      end
  end.
End Exec.

(** An update thunk [() => p(v)] assigns [v] to the cell of its property. *)
Definition run_update (u : nat * val) (w : world) : world :=
  set_cells (<[u.1 := u.2]> (cells w)) w.

Definition run_updates (us : list (nat * val)) (w : world) : world :=
  foldl (λ w u, run_update u w) w us.

Definition reentrancy_error : error :=
  Error "drip cannot be called during observer phase".

Fixpoint drip (depth : nat) (s : nat) (v : val) (w : world) : outcome FlowingState :=
  if observerPhase w then Raise reentrancy_error w
  else
    match depth with
    | O => Raise RangeError w
    | S d =>
        match flowLazy d w v s with
        | Err _ => Return emptyFlowingState (set_observerPhase false w)
        | Ok state =>
            match run_observers (drip d) (FlowingState.observers state)
                    (set_observerPhase true w) with
            | Raise _ w1 => Return emptyFlowingState (set_observerPhase false w1)
            | Return _ w1 =>
                Return state
                  (run_updates (FlowingState.updates state)
                     (set_observerPhase false w1))
            end
        end
    end.

(** ** Graph construction *)

Definition update_node (s : nat) (f : StreamState → StreamState) (w : world)
    : option world :=
  with_node (VStream s) w f.

Definition stream (f : list val → val → result val) (w : world) : nat * world :=
  (length (nodes w), set_nodes (nodes w ++ [mkStream f None [] [] [] []]) w).

Definition pipe (s : nat) (f : list val → val → result val) (w : world)
    : outcome nat :=
  let '(_s, w1) := stream f w in
  match update_node s (λ n, set_next (set_add _s (next n)) n) w1 with
  | Some w2 => Return _s w2
  | None => Raise TypeError w1
  end.

(** [filter] of the source; the name is taken by the list library. *)
Definition filter_stream (s : nat) (f : list val → val → result bool) (w : world)
    : outcome nat :=
  match pipe s parrot w with
  | Return _s w1 =>
      match update_node _s (set_sfilter (Some f)) w1 with
      | Some w2 => Return _s w2
      | None => Raise TypeError w1
      end
  | Raise e w1 => Raise e w1
  end.

(** [v.reduce(f)] on the elements after the first, starting from the first. *)
Fixpoint reduce (f : val → val → result val) (acc : val) (xs : list val)
    : result val :=
  match xs with
  | [] => Ok acc
  | x :: xs' => acc' ← f acc x; reduce f acc' xs'
  end.

Definition merge_error : error := Error "No values have been merged yet.".

Definition merge_functor (f : val → val → result val) : list val → val → result val :=
  λ _ v,
    match v with
    | VArr [] => Err merge_error
    | VArr (x :: xs) => reduce f x xs
    | VUndef => Err TypeError        (* [v.length] of undefined *)
    | VNum _ | VStream _ => Err merge_error  (* [v.length] is undefined *)
    end.

(** [s.forEach((s) => s.lazyNext.add(_s))] *)
Fixpoint add_lazyNext (_s : nat) (sources : list nat) (w : world) : outcome unit :=
  match sources with
  | [] => Return tt w
  | s :: rest =>
      match update_node s (λ n, set_lazyNext (set_add _s (lazyNext n)) n) w with
      | Some w' => add_lazyNext _s rest w'
      | None => Raise TypeError w
      end
  end.

Definition merge (s : list nat) (f : val → val → result val) (w : world)
    : outcome nat :=
  let '(_s, w1) := stream (merge_functor f) w in
  match add_lazyNext _s s w1 with
  | Return _ w2 => Return _s w2
  | Raise e w2 => Raise e w2
  end.

(** [hold] returns the property; here, the cell its reader reads. *)
Definition hold (s : nat) (v : val) (w : world) : outcome nat :=
  let c := length (cells w) in
  let w1 := set_cells (cells w ++ [v]) w in
  match update_node s (λ n, set_updates (updates n ++ [c]) n) w1 with
  | Some w2 => Return c w2
  | None => Raise TypeError w
  end.

(** [listen] of a closure that is not among the observers of [s] yet,
    where [observers.add(f)] appends.  Closures have no identity here,
    so the case of [add] on a registered closure, which leaves the set
    as it is, is not told apart; what is stated about [listen] of an
    arbitrary closure on a stream with observers assumes it new. *)
Definition listen (s : nat) (f : val → prog) (w : world) : outcome unit :=
  match update_node s (λ n, set_observers (observers n ++ [f]) n) w with
  | Some w' => Return tt w'
  | None => Raise TypeError w
  end.

(** [(s) => { p().next.delete(o); s.next.add(o); }] *)
Definition shed_listener (p o : nat) : val → prog :=
  λ s, ReadProp p (λ cur, NextDelete cur o (NextAdd s o Done)).

Definition shed (ss : nat) (w : world) : outcome nat :=
  let '(o, w1) := stream parrot w in
  match hold ss (VStream o) w1 with
  | Return p w2 =>
      match listen ss (shed_listener p o) w2 with
      | Return _ w3 => Return o w3
      | Raise e w3 => Raise e w3
      end
  | Raise e w2 => Raise e w2
  end.

(** ** Teardown *)

(** [s.next = new Set(); s.lazyNext = new Set(); s.observers.clear();
    s.updates.clear()] *)
Definition clear_fields (n : StreamState) : StreamState :=
  mkStream (functor n) (sfilter n) [] [] [] [].

(** [xs.forEach(f)] for an [f] with effects *)
Fixpoint for_each (f : nat → world → outcome unit) (xs : list nat) (w : world)
    : outcome unit :=
  match xs with
  | [] => Return tt w
  | x :: xs' =>
      match f x w with
      | Return _ w' => for_each f xs' w'
      | Raise e w' => Raise e w'
      end
  end.

Fixpoint clear (depth : nat) (s : nat) (w : world) : outcome unit :=
  match depth with
  | O => Raise RangeError w
  | S d =>
      match nodes w !! s with
      | None => Raise TypeError w
      | Some n =>
          match for_each (clear d) (next n) w with
          | Return _ w' => Return tt (set_nodes (alter clear_fields s (nodes w')) w')
          | Raise e w' => Raise e w'
          end
      end
  end.

(** The world a computation leaves behind, whether it returned or threw. *)
Definition final {A} (o : outcome A) : world :=
  match o with Return _ w | Raise _ w => w end.

(** ** What the grouping of [flowLazy] is meant to compute *)

(** The values pending for merge node [m], in the order they arrived. *)
Definition arrived (m : nat) (pending : list (nat * val)) : list val :=
  (filter (λ p, p.1 = m) pending).*2.

(** The distinct elements of a list, each at its first occurrence. *)
Fixpoint first_occurrences (l : list nat) : list nat :=
  match l with
  | [] => []
  | x :: l' => x :: filter (λ y, y ≠ x) (first_occurrences l')
  end.

(** ** Scripts that build a graph through the public operations *)

Definition and_then {A B} (m : world → outcome A) (k : A → world → outcome B)
    : world → outcome B :=
  λ w, match m w with Return a w' => k a w' | Raise e w' => Raise e w' end.

Notation "'do' x '<-' m ; k" := (and_then m (λ x, k))
  (at level 10, x name, m at level 100, k at level 200).

Definition ret {A} (a : A) : world → outcome A := λ w, Return a w.
Definition new_stream (f : list val → val → result val) : world → outcome nat :=
  λ w, let '(s, w') := stream f w in Return s w'.

Definition world0 : world := mkWorld [] [] false [].

Definition obs_push : val → prog := λ v, Push v Done.

Definition plus (a b : val) : result val :=
  match a, b with
  | VNum x, VNum y => Ok (VNum (x + y)%Z)
  | _, _ => Err TypeError
  end.

(** [a = stream(); m1 = merge([a])(plus); m2 = merge([a, m1])(plus);
    listen(m2)(v => observed.push(v))]: [a] is stream 0, [m1] is 1 and
    [m2] is 2. *)
Definition chained_merges : world :=
  final ((do a <- new_stream parrot;
          do m1 <- merge [a] plus;
          do m2 <- merge [a; m1] plus;
          do _ <- listen m2 obs_push;
          ret tt) world0).

(** ** What [clear] is meant to achieve *)

(** [x] can be reached from [s] along the [next] edges of [w]. *)
Inductive reach_next (w : world) : nat → nat → Prop :=
  | reach_here (s : nat) : reach_next w s s
  | reach_child (s c x : nat) (n : StreamState) :
      nodes w !! s = Some n → c ∈ next n → reach_next w c x → reach_next w s x.

(** A stream whose four sets are empty. *)
Definition inert (w : world) (x : nat) : Prop :=
  ∃ n, nodes w !! x = Some n ∧
       next n = [] ∧ lazyNext n = [] ∧ observers n = [] ∧ updates n = [].

(** The subtree of [s] along [next] edges has at most [h] levels. *)
Inductive height_le (w : world) : nat → nat → Prop :=
  | height_le_node (s h : nat) (n : StreamState) :
      nodes w !! s = Some n →
      (∀ c, c ∈ next n → height_le w c h) →
      height_le w s (S h).

(** While [clear] runs on [w0], every stream is as it was in [w0] or has
    had everything below it emptied. *)
Definition cleared_or_same (w0 w : world) : Prop :=
  ∀ y, nodes w !! y = nodes w0 !! y ∨ (∀ x, reach_next w0 y x → inert w x).

(** What one [clear] call on a stream of [roots], or a [forEach] of such
    calls over [roots], does to a world, [w0] being the world in which
    the outermost call started. *)
Definition clear_post (w0 : world) (roots : list nat) (w w' : world) : Prop :=
  cleared_or_same w0 w' ∧
  (∀ c x, c ∈ roots → reach_next w0 c x → inert w' x) ∧
  (∀ x, inert w x → inert w' x) ∧
  (∀ x, (∀ c, c ∈ roots → ¬ reach_next w0 c x) → nodes w' !! x = nodes w !! x) ∧
  (∀ x, is_Some (nodes w !! x) → is_Some (nodes w' !! x)) ∧
  cells w' = cells w ∧ observerPhase w' = observerPhase w ∧
  observed w' = observed w.

(** [a = stream(); m = merge([a])(plus); listen(m)(v => observed.push(v))]:
    [a] is stream 0 and [m] is stream 1. *)
Definition merged_source : world :=
  final ((do a <- new_stream parrot;
          do m <- merge [a] plus;
          do _ <- listen m obs_push;
          ret tt) world0).

(** ** Held properties and their streams *)

(** Some stream passes its output on to [t], directly or for merging. *)
Definition fed (w : world) (t : nat) : Prop :=
  ∃ p np, nodes w !! p = Some np ∧ (t ∈ next np ∨ t ∈ lazyNext np).

(** Cell [c] exists and is assigned by the update sinks of [s] only, as
    after [hold(s)(init)]. *)
Definition held_on (w : world) (c s : nat) : Prop :=
  c < length (cells w) ∧
  (∃ n, nodes w !! s = Some n ∧ c ∈ updates n) ∧
  ∀ t nt, nodes w !! t = Some nt → c ∈ updates nt → t = s.

(** Every update sink of the graph assigns a cell that exists. *)
Definition allocated (w : world) : Prop :=
  ∀ t nt c, nodes w !! t = Some nt → c ∈ updates nt → c < length (cells w).

Definition succ_functor : list val → val → result val :=
  λ _ v, match v with VNum n => Ok (VNum (n + 1)%Z) | _ => Err TypeError end.

Definition obs_throw : val → prog := λ _, Throw (Error "boom").

(** [s = stream(n => n + 1); p = hold(s)(0)]: [s] is stream 0 and the
    cell of [p] is cell 0. *)
Definition held_successor : world :=
  final ((do s <- new_stream succ_functor;
          do p <- hold s (VNum 0);
          ret tt) world0).

(** [s = stream(); p = hold(s)(0); listen(s)(() => { throw ... })] *)
Definition held_with_thrower : world :=
  final ((do s <- new_stream parrot;
          do p <- hold s (VNum 0);
          do _ <- listen s obs_throw;
          ret tt) world0).

(** [s = stream(); t = pipe(s)(n => n + 1); p = hold(s)(0);
    listen(s)(v => observed.push(p())); listen(t)(v => observed.push(v))] *)
Definition held_and_observed : world :=
  final ((do s <- new_stream parrot;
          do t <- pipe s succ_functor;
          do p <- hold s (VNum 0);
          do _ <- listen s (λ _, ReadProp p (λ x, Push x Done));
          do _ <- listen t obs_push;
          ret tt) world0).

(** ** What [shed] is meant to maintain *)

(** Stream [x] has [o] in its [next] set. *)
Definition feeds (w : world) (x o : nat) : Prop :=
  ∃ n, nodes w !! x = Some n ∧ o ∈ next n.





(** Every edge of the graph leads to a stream of the graph. *)
Definition closed (w : world) : Prop :=
  ∀ t nt x, nodes w !! t = Some nt → x ∈ next nt → x < length (nodes w).

(** [ss = stream(); o = shed(ss); i1 = stream(); i2 = stream();
    listen(o)(v => observed.push(v))]: [ss] is stream 0, [o] is 1, [i1]
    is 2, [i2] is 3, and the property of [shed] is cell 0. *)
Definition switchboard : world :=
  final ((do ss <- new_stream parrot;
          do o <- shed ss;
          do i1 <- new_stream parrot;
          do i2 <- new_stream parrot;
          do _ <- listen o obs_push;
          ret tt) world0).

(** The scenario of the specification on [switchboard]:
    [drip(ss)(i1); drip(i1)(5); drip(ss)(i2); drip(i1)(6); drip(i2)(7)]. *)
Definition switched_to_i1 : world := final (drip 6 0 (VStream 2) switchboard).
Definition injected_5 : world := final (drip 6 2 (VNum 5) switched_to_i1).
Definition switched_to_i2 : world := final (drip 6 0 (VStream 3) injected_5).
Definition injected_6 : world := final (drip 6 2 (VNum 6) switched_to_i2).
Definition injected_7 : world := final (drip 6 3 (VNum 7) injected_6).


(** ** More scenarios *)

Definition double_functor : list val → val → result val :=
  λ _ v, match v with VNum n => Ok (VNum (n * 2)%Z) | _ => Err TypeError end.

(** [s = stream(); t = pipe(s)(n => n * 2);
    listen(t)(v => observed.push(v))] *)
Definition doubling : world :=
  final ((do s <- new_stream parrot;
          do t <- pipe s double_functor;
          do _ <- listen t obs_push;
          ret tt) world0).

Definition positive : list val → val → result bool :=
  λ _ v, match v with VNum n => Ok (0 <? n)%Z | _ => Err TypeError end.

(** [s = stream(); t = pipe(s)(n => n + 1); f = filter(s)(n => n > 0);
    listen(s)(v => observed.push(v))], with a predicate that throws on
    what is not a number: [s] is stream 0, [t] is 1 and [f] is 2. *)
Definition filtered : world :=
  final ((do s <- new_stream parrot;
          do t <- pipe s succ_functor;
          do f <- filter_stream s positive;
          do _ <- listen s obs_push;
          ret tt) world0).

(** [s = stream(); p = hold(s)(0); listen(s)(push); listen(s)(() => { throw ... });
    listen(s)(push)] *)
Definition thrower_between : world :=
  final ((do s <- new_stream parrot;
          do p <- hold s (VNum 0);
          do _ <- listen s obs_push;
          do _ <- listen s obs_throw;
          do _ <- listen s obs_push;
          ret tt) world0).

(** [a = stream(); listen(a)(v => { try { drip(a)(v) } catch { observed.push(-1) } });
    listen(a)(v => observed.push(v))]: the observer of [a] catches what
    its own injection throws. *)
Definition reentrant_caught : world :=
  final ((do a <- new_stream parrot;
          do _ <- listen a (λ v, Try (Drip a v Done) (Push (VNum (-1)) Done) Done);
          do _ <- listen a obs_push;
          ret tt) world0).


(** ** The remaining combinators of the source *)

(** A property: a reader of the cells; reading may throw. *)
Definition Property : Type := list val → result val.

(** The reader [() => v] that [hold] returns, for the cell of [v]. *)
Definition held (c : nat) : Property := λ σ, Ok (default VUndef (σ !! c)).

(** [snapshot]: [_s = stream(c); s.next.add(_s)].  The functor is the
    property itself; a property takes no argument, so the value that
    reaches the stream is ignored. *)
Definition snapshot (s : nat) (c : Property) (w : world) : outcome nat :=
  let '(_s, w1) := stream (λ σ _, c σ) w in
  match update_node s (λ n, set_next (set_add _s (next n)) n) w1 with
  | Some w2 => Return _s w2
  | None => Raise TypeError w1
  end.

(** [(v) => f(v, p())] for the property [p] of cell [c]. *)
Definition accum_functor (f : val → val → result val) (c : nat)
    : list val → val → result val :=
  λ σ v, f v (default VUndef (σ !! c)).

(** [accum]: [p = hold(pipe(_s)((v) => f(v, p())))(s)].  The functor
    refers to the property that [hold] is about to return; its cell is
    the next free one, since [pipe] allocates none. *)
Definition accum (_s : nat) (f : val → val → result val) (s : val) (w : world)
    : outcome nat :=
  match pipe _s (accum_functor f (length (cells w))) w with
  | Return t w1 => hold t s w1
  | Raise e w1 => Raise e w1
  end.

(** [xs.reduce((v, s) => v + f(s), init)] for an [f] that may throw. *)
Fixpoint sumM (f : nat → result nat) (xs : list nat) (init : nat) : result nat :=
  match xs with
  | [] => Ok init
  | x :: xs' => k ← f x; sumM f xs' (init + k)
  end.

(** [countRefs(s, deep)()], read in [w]. *)
Fixpoint countRefs (depth : nat) (w : world) (s : nat) (deep : bool)
    : result nat :=
  match depth with
  | O => Err RangeError
  | S d =>
      n ← get_node w s;
      if deep
      then sumM (λ c, countRefs d w c deep) (next n ++ lazyNext n)
             (length (observers n) + length (updates n))
      else Ok (length (observers n) + length (updates n))
  end.

(** ** Notions for the further properties *)

(** [x] can be reached from [s] along [next] and [lazyNext] edges. *)
Inductive reach (w : world) : nat → nat → Prop :=
  | reach_refl (s : nat) : reach w s s
  | reach_step (s c x : nat) (n : StreamState) :
      nodes w !! s = Some n → c ∈ next n ++ lazyNext n → reach w c x →
      reach w s x.

(** An upper bound on the streams a value injected into [s] as [v] gets
    to, for the proofs that need no more than where an injection cannot
    go: a child in [next] receives the result of the functor of its
    parent, and a merge node in [lazyNext] is taken to receive any array
    at all.  What a merge node does receive is said by [round] below. *)
Inductive visit (w : world) (s : nat) (v : val) : nat → val → Prop :=
  | visit_root : visit w s v s v
  | visit_next (t c : nat) (u r : val) (n : StreamState) :
      visit w s v t u →
      nodes w !! t = Some n → functor n (cells w) u = Ok r → c ∈ next n →
      visit w s v c r
  | visit_lazy (t m : nat) (u : val) (vs : list val) (n : StreamState) :
      visit w s v t u →
      nodes w !! t = Some n → m ∈ lazyNext n →
      visit w s v m (VArr vs).

(** Some stream [t] that a value injected into [s] as [v] gets to
    receives [u] there, its functor returns [x] on [u], and [P] holds of
    the stream and [x]. *)
Definition visited_with (w : world) (s : nat) (v : val)
    (P : StreamState → val → Prop) : Prop :=
  ∃ t u nt x,
    visit w s v t u ∧ nodes w !! t = Some nt ∧
    functor nt (cells w) u = Ok x ∧ P nt x.

(** The streams that a value [u] received by [t] gets to within one
    call of [flow], each with the value it receives: a child in [next]
    that accepts the result of the functor of its parent receives that
    result. *)
Inductive passes (w : world) (t : nat) (u : val) : nat → val → Prop :=
  | passes_here : passes w t u t u
  | passes_next (c c' : nat) (x r : val) (n : StreamState) :
      passes w t u c x →
      nodes w !! c = Some n → functor n (cells w) x = Ok r →
      c' ∈ next n → accepts w r c' = Ok true →
      passes w t u c' r.

(** The rounds of [flowLazy(v)(s)] run with [d] calls of stack, each
    with the stack it has, the stream it starts from and the value that
    stream receives.  The first round is [flow(v)(s)].  A round whose
    [flow] leaves values pending for a merge node [m] is followed by a
    round from [m] on the array of exactly these values, in the order
    they arrived. *)
Inductive round (w : world) (d s : nat) (v : val) : nat → nat → val → Prop :=
  | round_first : round w d s v d s v
  | round_merge (d' t m : nat) (u : val) (r : FlowingState) :
      round w d s v (S d') t u →
      flow d' w u t = Ok r →
      m ∈ (FlowingState.waiting r).*1 →
      round w d s v d' m (VArr (arrived m (FlowingState.waiting r))).

(** Some round of [flowLazy(v)(s)] gets to a stream [c], which receives
    [x] there; its functor returns [y] on [x], and [P] holds of the
    stream and [y]. *)
Definition scheduled_by (w : world) (d s : nat) (v : val)
    (P : StreamState → val → Prop) : Prop :=
  ∃ d' t u c x nc y,
    round w d s v d' t u ∧ passes w t u c x ∧
    nodes w !! c = Some nc ∧ functor nc (cells w) x = Ok y ∧ P nc y.

(** The stream [t] and the cell [c] that [accum(s)(f, seed)] made: [t]
    is a child of [s] and of no other stream, is in no [lazyNext] set,
    has the functor [(v) => f(v, p())], no filter, no child and no
    observer, and is the only stream that assigns [c]. *)
Definition accumulator (w : world) (s t c : nat) (f : val → val → result val)
    : Prop :=
  c < length (cells w) ∧
  (∃ ns, nodes w !! s = Some ns ∧ t ∈ next ns) ∧
  nodes w !! t = Some (mkStream (accum_functor f c) None [] [] [c] []) ∧
  (∀ p np, nodes w !! p = Some np →
     (t ∈ next np → p = s) ∧ t ∉ lazyNext np) ∧
  (∀ t' nt', nodes w !! t' = Some nt' → c ∈ updates nt' → t' = t).

(** Every edge leads to a stream of the graph, no edge set has a
    duplicate, and every update sink assigns an existing cell. *)
Definition well_formed (w : world) : Prop :=
  ∀ t nt, nodes w !! t = Some nt →
    (∀ x, x ∈ next nt ++ lazyNext nt → x < length (nodes w)) ∧
    NoDup (next nt) ∧ NoDup (lazyNext nt) ∧
    (∀ c, c ∈ updates nt → c < length (cells w)).

(** [y] is on a cycle of [next] edges. *)
Definition on_cycle (w : world) (y : nat) : Prop :=
  ∃ n c, nodes w !! y = Some n ∧ c ∈ next n ∧ reach_next w c y.

(** The [next] subtree of [x] contains a cycle. *)
Definition loops (w : world) (x : nat) : Prop :=
  ∃ y, reach_next w x y ∧ on_cycle w y.

(** While [clear] runs on [w0], the streams whose subtree contains a
    cycle are as they were in [w0]. *)
Definition loops_kept (w0 w : world) : Prop :=
  ∀ y, loops w0 y → nodes w !! y = nodes w0 !! y.

(** ** Scenarios for the further properties *)

(** [s = stream()]: [s] is stream 0. *)
Definition lone_source : world := (stream parrot world0).2.

(** [s = stream(); a = pipe(s)(n => n + 1); b = pipe(s)(n => n * 2)]:
    [s] is stream 0, [a] is 1 and [b] is 2. *)
Definition forked : world :=
  final ((do s <- new_stream parrot;
          do a <- pipe s succ_functor;
          do b <- pipe s double_functor;
          ret tt) world0).

(** [forked] with [m = merge([a, b])(plus); listen(m)(v => observed.push(v))]:
    [m] is stream 3. *)
Definition diamond : world :=
  final ((do m <- merge [1; 2] plus;
          do _ <- listen m obs_push;
          ret tt) forked).

(** [s = stream(); p = accum(s)(plus, 0)]: [s] is stream 0, the stream
    that [accum] pipes from it is 1, and the cell of [p] is cell 0. *)
Definition counter : world := final (accum 0 plus (VNum 0) lone_source).

(** [ss = stream(); o = shed(ss); drip(ss)(o)]: [ss] is stream 0 and [o]
    is 1; the output of [shed] is switched to itself. *)
Definition self_fed : world :=
  final (drip 6 0 (VStream 1)
           (final ((do ss <- new_stream parrot;
                    do o <- shed ss;
                    ret tt) world0))).

(** [s = stream(n => n + 1); p = hold(s)(0); q = hold(s)(100)]: [s] is
    stream 0, the cell of [p] is cell 0 and the cell of [q] is cell 1. *)
Definition held_twice : world :=
  final ((do s <- new_stream succ_functor;
          do p <- hold s (VNum 0);
          do q <- hold s (VNum 100);
          ret tt) world0).

(** The value that a list of update thunks leaves in cell [c], if any of
    them assigns it. *)
Definition last_assigned (c : nat) (us : list (nat * val)) : option val :=
  last (arrived c us).

(** ** Held properties and switching, in terms of the graph *)

(** [s] leads to [t] through at least one edge. *)
Definition below (w : world) (s t : nat) : Prop :=
  ∃ n c, nodes w !! s = Some n ∧ c ∈ next n ++ lazyNext n ∧ reach w c t.







(** [a = stream(); s = pipe(a)(n => n + 1); t = pipe(s)(n => n * 2);
    p = hold(s)(0); listen(s)(v => observed.push(p()))]: [a] is stream
    0, [s] is 1 and [t] is 2; the cell of [p] is cell 0. *)
Definition held_downstream : world :=
  final ((do a <- new_stream parrot;
          do s <- pipe a succ_functor;
          do t <- pipe s double_functor;
          do p <- hold s (VNum 0);
          do _ <- listen s (λ _, ReadProp p (λ x, Push x Done));
          ret tt) world0).

(** [switchboard] with [i2 = pipe(i1)(v => v)] in place of a second
    source: [ss] is stream 0, [o] is 1, [i1] is 2 and [i2] is 3. *)
Definition switchboard_piped : world :=
  final ((do ss <- new_stream parrot;
          do o <- shed ss;
          do i1 <- new_stream parrot;
          do i2 <- pipe i1 parrot;
          do _ <- listen o obs_push;
          ret tt) world0).

(** * Properties *)

(** ** Basic facts *)

Lemma set_observerPhase_same (w : world) :
  set_observerPhase (observerPhase w) w = w.
Proof. by destruct w. Qed.

Lemma concat_empty_r (a : FlowingState) :
  concatFlowingState a emptyFlowingState = a.
Proof.
  destruct a; unfold concatFlowingState; simpl. by rewrite !app_nil_r.
Qed.

Lemma mapM_result_app {A B} (f : A → result B) (l1 l2 : list A) :
  mapM f (l1 ++ l2) = (k1 ← mapM f l1; k2 ← mapM f l2; Ok (k1 ++ k2)).
Proof.
  induction l1 as [|x l1 IH]; simpl.
  - by destruct (mapM f l2).
  - destruct (f x); simpl; [|done]. rewrite IH.
    destruct (mapM f l1); simpl; [|done]. by destruct (mapM f l2).
Qed.

Lemma filterM_throws {A} (p : A → result bool) (l : list A) (x : A) (e : error) :
  x ∈ l → p x = Err e → ∃ e', filterM p l = Err e'.
Proof.
  intros Hin Hx. induction l as [|y l IH]; [by apply elem_of_nil in Hin|].
  simpl. destruct (p y) as [b|e0] eqn:Hy; simpl; [|by eauto].
  apply elem_of_cons in Hin as [->|Hin]; [congruence|].
  destruct (IH Hin) as [e' ->]. simpl. eauto.
Qed.

(** ** Merge *)

Lemma reduce_total (g : val → val → val) (x : val) (xs : list val) :
  reduce (λ a b, Ok (g a b)) x xs = Ok (foldl g x xs).
Proof. revert x. induction xs as [|y xs IH]; intros x; simpl; [done|apply IH]. Qed.

Lemma update_node_functor s f w w' i :
  (∀ n, functor (f n) = functor n) →
  update_node s f w = Some w' →
  functor <$> nodes w' !! i = functor <$> nodes w !! i.
Proof.
  intros Hf. unfold update_node, with_node.
  destruct (nodes w !! s) as [n|] eqn:Hs; [|done].
  intros [= <-]. simpl. destruct (decide (s = i)) as [->|Hne].
  - rewrite list_lookup_insert_eq by (by eapply lookup_lt_Some).
    rewrite Hs. simpl. by rewrite Hf.
  - by rewrite list_lookup_insert_ne.
Qed.

Lemma add_lazyNext_functor m sources w w' i :
  add_lazyNext m sources w = Return tt w' →
  functor <$> nodes w' !! i = functor <$> nodes w !! i.
Proof.
  revert w. induction sources as [|s rest IH]; intros w; simpl.
  - by intros [= <-].
  - destruct (update_node s _ w) as [w1|] eqn:Hu; [|done].
    intros H. rewrite (IH _ H). by eapply update_node_functor, Hu.
Qed.

(** C7.  The node that [merge(sources)(combine)] builds folds a non-empty
    array of arrived values from the left with [combine], starting from
    the first element; a one-element array gives its element back; the
    empty array makes the functor throw. *)
Theorem merge_functor_folds (sources : list nat) (combine : val → val → result val)
    (w w' : world) (m : nat) :
  merge sources combine w = Return m w' →
  ∃ n, nodes w' !! m = Some n ∧
    (∀ σ x xs, functor n σ (VArr (x :: xs)) = reduce combine x xs) ∧
    (∀ σ x xs (g : val → val → val), combine = (λ a b, Ok (g a b)) →
       functor n σ (VArr (x :: xs)) = Ok (foldl g x xs)) ∧
    (∀ σ x, functor n σ (VArr [x]) = Ok x) ∧
    (∀ σ, functor n σ (VArr []) = Err merge_error).
Proof.
  unfold merge, stream.
  destruct (add_lazyNext _ _ _) as [[] w2|e w2] eqn:Hadd; [|done].
  intros [= <- <-].
  pose proof (add_lazyNext_functor _ _ _ _ (length (nodes w)) Hadd) as Hf.
  simpl in Hf. rewrite lookup_app_r, Nat.sub_diag in Hf by lia. simpl in Hf.
  destruct (nodes w2 !! length (nodes w)) as [n|] eqn:Hn; [|done].
  injection Hf as Hf. exists n. split; [done|]. rewrite Hf.
  split_and!; try done.
  intros σ x xs g ->. apply reduce_total.
Qed.

(** ** The pure phase *)

Lemma flow_succ_ok (d : nat) (w : world) (v : val) (s : nat) :
  ∃ fs, flow (S d) w v s = Ok fs.
Proof.
  simpl. destruct (_ ≫= _) as [fs|e]; simpl; eauto.
Qed.

(** C4.  A node whose functor throws contributes the empty FlowingState,
    as a child reached by [flow] and as a merge node reached by
    [flowLazy]; and the fold over the children of its parent gives what
    it gives without that child, whatever the siblings before and after
    it are. *)
Theorem flow_functor_throw_isolated (d : nat) (w : world) (v : val) (s : nat)
    (n : StreamState) (e : error) :
  nodes w !! s = Some n →
  functor n (cells w) v = Err e →
  flow (S d) w v s = Ok emptyFlowingState ∧
  flowLazy (S (S d)) w v s = Ok emptyFlowingState ∧
  ∀ (l1 l2 : list nat) (init : FlowingState),
    map_reduce (flow (S d) w v) (l1 ++ s :: l2) init
    = map_reduce (flow (S d) w v) (l1 ++ l2) init.
Proof.
  intros Hs Hf.
  assert (Hflow : flow (S d) w v s = Ok emptyFlowingState).
  { simpl. unfold get_node. rewrite Hs. simpl. by rewrite Hf. }
  split; [done|]. split.
  { change (flowLazy (S (S d)) w v s) with
      (r ← flow (S d) w v s;
       match FlowingState.waiting r with
       | [] => Ok r
       | _ :: _ =>
           map_reduce (λ sv : nat * list val, flowLazy (S d) w (VArr sv.2) sv.1)
             (group (FlowingState.waiting r))
             (FlowingState.mk [] (FlowingState.observers r) (FlowingState.updates r))
       end).
    by rewrite Hflow. }
  intros l1 l2 init. unfold map_reduce.
  rewrite !mapM_result_app.
  destruct (mapM (flow (S d) w v) l1) as [k1|]; [|done].
  cbn [mbind result_bind].
  change (mapM (flow (S d) w v) (s :: l2)) with
    (y ← flow (S d) w v s; k ← mapM (flow (S d) w v) l2; mret (y :: k)).
  rewrite Hflow. cbn [mbind result_bind].
  destruct (mapM (flow (S d) w v) l2) as [k2|]; [|done].
  cbn [mbind result_bind mret result_ret]. f_equal.
  rewrite !foldl_app. simpl. by rewrite concat_empty_r.
Qed.

(** C10.  When the filter predicate of one child of [n] throws on the
    result of [n]'s functor, the handler of [n] catches it: the whole
    contribution of [n] is empty, its own observers, updates and pending
    merge pairs and the subtrees of all its children included. *)
Theorem flow_filter_throw_voids_node (d : nat) (w : world) (v r : val) (s c : nat)
    (n nc : StreamState) (p : list val → val → result bool) (e : error) :
  nodes w !! s = Some n →
  functor n (cells w) v = Ok r →
  c ∈ next n →
  nodes w !! c = Some nc →
  sfilter nc = Some p →
  p (cells w) r = Err e →
  flow (S d) w v s = Ok emptyFlowingState.
Proof.
  intros Hs Hf Hc Hnc Hp He. simpl.
  unfold get_node. rewrite Hs. cbn [mbind result_bind]. rewrite Hf.
  cbn [mbind result_bind].
  assert (Hacc : accepts w r c = Err e).
  { unfold accepts, get_node. rewrite Hnc. cbn [mbind result_bind]. by rewrite Hp. }
  destruct (filterM_throws _ _ _ _ Hc Hacc) as [e' ->]. done.
Qed.

(** ** The observer phase *)

Lemma drip_guarded (d s : nat) (v : val) (w : world) :
  observerPhase w = true → drip d s v w = Raise reentrancy_error w.
Proof. intros H. destruct d; simpl; by rewrite H. Qed.

Lemma with_node_frame s w f w' :
  with_node s w f = Some w' →
  cells w' = cells w ∧ observerPhase w' = observerPhase w ∧ observed w' = observed w.
Proof.
  unfold with_node. destruct s; try done.
  destruct (nodes w !! s); [|done]. by intros [= <-].
Qed.

Lemma exec_in_observer_phase (d : nat) (p : prog) (w : world) :
  observerPhase w = true →
  observerPhase (final (exec (drip d) p w)) = true ∧
  cells (final (exec (drip d) p w)) = cells w.
Proof.
  revert w.
  induction p as [| |c k IH|s o k IH|s o k IH|v k IH|s v k IH|b IHb h IHh k IHk];
    intros w Hw; simpl; try done.
  - by apply IH.
  - destruct (with_node _ _ _) as [w'|] eqn:Hwn; [|done].
    apply with_node_frame in Hwn as (Hc & Hp & _).
    destruct (IH w') as [? ?]; [congruence|]. split; congruence.
  - destruct (with_node _ _ _) as [w'|] eqn:Hwn; [|done].
    apply with_node_frame in Hwn as (Hc & Hp & _).
    destruct (IH w') as [? ?]; [congruence|]. split; congruence.
  - destruct (IH (set_observed (observed w ++ [v]) w)) as [? ?]; done.
  - by rewrite drip_guarded.
  - destruct (IHb w Hw) as [Hp1 Hc1].
    destruct (exec (drip d) b w) as [[] w1|e w1]; simpl in *.
    + destruct (IHk w1 Hp1) as [? ?]. split; congruence.
    + destruct (IHh w1 Hp1) as [Hp2 Hc2].
      destruct (exec (drip d) h w1) as [[] w2|e2 w2]; simpl in *.
      * destruct (IHk w2 Hp2) as [? ?]. split; congruence.
      * split; congruence.
Qed.

Lemma run_observers_in_observer_phase (d : nat) (ts : list prog) (w : world) :
  observerPhase w = true →
  observerPhase (final (run_observers (drip d) ts w)) = true ∧
  cells (final (run_observers (drip d) ts w)) = cells w.
Proof.
  revert w. induction ts as [|t ts IH]; intros w Hw; simpl; [done|].
  destruct (exec_in_observer_phase d t w Hw) as [Hp Hc].
  destruct (exec (drip d) t w) as [[] w'|e w']; simpl in *; [|done].
  destruct (IH w' Hp) as [? ?]. split; congruence.
Qed.

Lemma run_observers_app dr (pre post : list prog) (w : world) :
  run_observers dr (pre ++ post) w =
  match run_observers dr pre w with
  | Return _ w' => run_observers dr post w'
  | Raise e w' => Raise e w'
  end.
Proof.
  revert w. induction pre as [|t pre IH]; intros w; simpl; [done|].
  destruct (exec dr t w) as [[] w'|e w']; [apply IH|done].
Qed.


(** C3.  When [flowLazy(v)(s)] throws in a [drip(s)(v)] call that was
    entered, the call returns the empty FlowingState with the guard
    false and leaves the world as it found it: nodes, property cells
    and the observers' array are what they were, so no observer thunk
    and no update thunk was run. *)
Theorem drip_aborts_on_pure_phase_error (d s : nat) (v : val) (w : world) (e : error) :
  observerPhase w = false →
  flowLazy d w v s = Err e →
  ∃ w', drip (S d) s v w = Return emptyFlowingState w' ∧
        observerPhase w' = false ∧ w' = w.
Proof.
  intros Hw Hf. exists w. split; [|done]. simpl. rewrite Hw, Hf.
  by rewrite <- Hw, set_observerPhase_same.
Qed.

(** C9.  When an observer thunk throws, [drip] returns the empty
    FlowingState instead of the computed one and the world it leaves is
    the one at the throw with the guard reset: the observer thunks after
    it and all update thunks were skipped, and no property cell changed. *)
Theorem drip_observer_throw_aborts (d s : nat) (v : val) (w wa w1 : world)
    (state : FlowingState) (pre post : list prog) (t : prog) (e : error) :
  observerPhase w = false →
  flowLazy d w v s = Ok state →
  FlowingState.observers state = pre ++ t :: post →
  run_observers (drip d) pre (set_observerPhase true w) = Return tt wa →
  exec (drip d) t wa = Raise e w1 →
  drip (S d) s v w = Return emptyFlowingState (set_observerPhase false w1) ∧
  cells (set_observerPhase false w1) = cells w ∧
  observerPhase (set_observerPhase false w1) = false.
Proof.
  intros Hw Hf Hobs Hpre Ht.
  assert (Hrun : run_observers (drip d) (FlowingState.observers state)
                   (set_observerPhase true w) = Raise e w1).
  { rewrite Hobs, run_observers_app, Hpre. simpl. by rewrite Ht. }
  split; [simpl; by rewrite Hw, Hf, Hrun|]. split; [|done].
  pose proof (run_observers_in_observer_phase d (FlowingState.observers state)
                (set_observerPhase true w) eq_refl) as [_ Hc].
  rewrite Hrun in Hc. done.
Qed.


(** ** Grouping of the pending merge pairs *)

Lemma first_occurrences_elem (x : nat) (l : list nat) :
  x ∈ first_occurrences l ↔ x ∈ l.
Proof.
  induction l as [|y l IH]; simpl; [done|].
  rewrite !elem_of_cons, list_elem_of_filter, IH.
  destruct (decide (x = y)); tauto.
Qed.

Lemma first_occurrences_NoDup (l : list nat) : NoDup (first_occurrences l).
Proof.
  induction l as [|y l IH]; simpl; [constructor|].
  constructor; [|by apply NoDup_filter].
  rewrite list_elem_of_filter. tauto.
Qed.

Lemma first_occurrences_snoc (l : list nat) (x : nat) :
  first_occurrences (l ++ [x]) =
  if decide (x ∈ l) then first_occurrences l else first_occurrences l ++ [x].
Proof.
  induction l as [|y l IH]; simpl.
  - done.
  - rewrite IH. destruct (decide (x = y)) as [->|Hne].
    + rewrite (decide_True (P := y ∈ y :: l)) by apply list_elem_of_here.
      destruct (decide (y ∈ l)); [done|].
      rewrite filter_app, filter_cons_False, filter_nil, app_nil_r; [done|tauto].
    + destruct (decide (x ∈ l)) as [Hin|Hnin].
      * rewrite decide_True by (by apply list_elem_of_further). done.
      * rewrite decide_False by (rewrite elem_of_cons; tauto).
        rewrite filter_app, filter_cons_True by done. done.
Qed.

Lemma arrived_snoc (m k : nat) (v : val) (l : list (nat * val)) :
  arrived m (l ++ [(k, v)]) =
  if decide (m = k) then arrived m l ++ [v] else arrived m l.
Proof.
  unfold arrived. rewrite filter_app, fmap_app.
  destruct (decide (m = k)) as [->|Hne].
  - by rewrite filter_cons_True.
  - rewrite filter_cons_False by (simpl; congruence). simpl. by rewrite app_nil_r.
Qed.

Lemma arrived_nonempty (m : nat) (l : list (nat * val)) :
  m ∈ l.*1 → arrived m l ≠ [].
Proof.
  unfold arrived. intros Hin. apply list_elem_of_fmap in Hin as ([k v] & -> & Hin).
  intros Hnil. apply fmap_nil_inv in Hnil.
  assert (H : (k, v) ∈ filter (λ p : nat * val, p.1 = (k, v).1) l)
    by (by apply list_elem_of_filter).
  rewrite Hnil in H. by apply elem_of_nil in H.
Qed.

Lemma map_get_tabulate (f : nat → list val) (k : nat) (ms : list nat) :
  map_get k (map (λ m, (m, f m)) ms) =
  if decide (k ∈ ms) then Some (f k) else None.
Proof.
  induction ms as [|m ms IH]; simpl.
  - done.
  - destruct (decide (m = k)) as [->|Hne].
    + by rewrite decide_True by apply list_elem_of_here.
    + rewrite IH. destruct (decide (k ∈ ms)).
      * by rewrite decide_True by (by apply list_elem_of_further).
      * rewrite decide_False; [done|]. rewrite elem_of_cons. intros [?|?]; congruence.
Qed.

Lemma map_set_tabulate_in (f : nat → list val) (k : nat) (vs : list val)
    (ms : list nat) :
  NoDup ms → k ∈ ms →
  map_set k vs (map (λ m, (m, f m)) ms) =
  map (λ m, (m, if decide (m = k) then vs else f m)) ms.
Proof.
  induction ms as [|m ms IH]; intros Hnd Hin; [by apply elem_of_nil in Hin|].
  apply NoDup_cons in Hnd as [Hm Hnd]. simpl.
  destruct (decide (m = k)) as [->|Hne].
  - f_equal. apply map_ext_in. intros a Ha%list_elem_of_In.
    rewrite decide_False; [done|]. by intros ->.
  - f_equal. apply IH; [done|]. apply elem_of_cons in Hin as [?|?]; congruence.
Qed.

Lemma map_set_tabulate_notin (f : nat → list val) (k : nat) (vs : list val)
    (ms : list nat) :
  k ∉ ms →
  map_set k vs (map (λ m, (m, f m)) ms) = map (λ m, (m, f m)) ms ++ [(k, vs)].
Proof.
  induction ms as [|m ms IH]; intros Hnin; simpl; [done|].
  rewrite not_elem_of_cons in Hnin. destruct Hnin as [Hne Hnin].
  rewrite decide_False by done. f_equal. by apply IH.
Qed.

Lemma group_tabulates (pending : list (nat * val)) :
  group pending =
  map (λ m, (m, arrived m pending)) (first_occurrences pending.*1).
Proof.
  unfold group. induction pending as [|[k v] l IH] using rev_ind; [done|].
  rewrite foldl_app, IH, fmap_app.
  change ((@fmap list _ _ _ fst [(k, v)])) with [k].
  rewrite first_occurrences_snoc.
  change (foldl group_step ?a [(k, v)]) with (group_step a (k, v)).
  unfold group_step. cbn [fst snd].
  rewrite map_get_tabulate.
  destruct (decide (k ∈ first_occurrences l.*1)) as [Hin|Hnin].
  - rewrite decide_True by (by apply first_occurrences_elem).
    rewrite map_set_tabulate_in by auto using first_occurrences_NoDup.
    apply map_ext. intros m. rewrite arrived_snoc.
    by destruct (decide (m = k)) as [->|].
  - rewrite decide_False by (intros H; by apply Hnin, first_occurrences_elem).
    rewrite map_set_tabulate_notin by done.
    rewrite map_app. cbn [map]. f_equal.
    + apply map_ext_in. intros m Hm%list_elem_of_In.
      rewrite arrived_snoc, decide_False; [done|]. by intros ->.
    + rewrite arrived_snoc, decide_True by done.
      replace (arrived k l) with (@nil val); [done|].
      unfold arrived. symmetry.
      rewrite first_occurrences_elem in Hnin. clear IH.
      induction l as [|[k' v'] l' IHl]; [done|].
      rewrite fmap_cons, not_elem_of_cons in Hnin. destruct Hnin as [Hne Hnin].
      rewrite filter_cons_False by (simpl in *; congruence). by apply IHl.
Qed.

Lemma map_reduce_map {A B} (g : A → B) (f : B → result FlowingState)
    (xs : list A) (init : FlowingState) :
  map_reduce f (map g xs) init = map_reduce (λ x, f (g x)) xs init.
Proof.
  unfold map_reduce. f_equal.
  induction xs as [|x xs IH]; [done|].
  cbn [map]. change (mapM f (g x :: map g xs)) with
    (y ← f (g x); k ← mapM f (map g xs); mret (y :: k)).
  by rewrite IH.
Qed.

(** C2, as the code has it.  One [flowLazy] call groups the pairs left
    pending by its own [flow] round: every merge node that is the target
    of a pending pair gets one recursive [flowLazy] call, the targets
    are taken in the order in which they were first reached, and the
    call for target [m] receives the array of the values pending for [m]
    in arrival order, which is never empty.  Pairs that become pending
    inside a recursive call are grouped by that call, not with these. *)
Theorem flowLazy_groups_each_round (d : nat) (w : world) (v : val) (s : nat)
    (r : FlowingState) :
  flow d w v s = Ok r →
  FlowingState.waiting r ≠ [] →
  let pending := FlowingState.waiting r in
  let targets := first_occurrences pending.*1 in
  NoDup targets ∧
  (∀ m, m ∈ targets ↔ m ∈ pending.*1) ∧
  (∀ m, m ∈ targets → arrived m pending ≠ []) ∧
  group pending = map (λ m, (m, arrived m pending)) targets ∧
  flowLazy (S d) w v s =
    map_reduce (λ m, flowLazy d w (VArr (arrived m pending)) m) targets
      (FlowingState.mk [] (FlowingState.observers r) (FlowingState.updates r)).
Proof.
  intros Hflow Hne pending targets. split_and!.
  - apply first_occurrences_NoDup.
  - intros m. apply first_occurrences_elem.
  - intros m Hm. by apply arrived_nonempty, first_occurrences_elem.
  - apply group_tabulates.
  - subst targets pending. simpl. rewrite Hflow. cbn [mbind result_bind].
    destruct (FlowingState.waiting r) as [|p pending'] eqn:Hp; [done|].
    rewrite <- Hp, group_tabulates. by rewrite map_reduce_map.
Qed.

(** C2 fails for chained merges.  In [chained_merges], [m2] merges [a]
    and [m1], and [m1] merges [a].  One injection of 1 into [a] reaches
    [m2] twice, from [a] and through [m1]; its functor runs once for
    each, on a one-element array, and its single observer is bound to 1
    twice.  A single call on the array of both values would have bound
    it once, to 2. *)
Lemma chained_merge_invoked_twice :
  flowLazy 9 chained_merges (VNum 1) 0 =
    Ok (FlowingState.mk [] [obs_push (VNum 1); obs_push (VNum 1)] []) ∧
  observed (final (drip 10 0 (VNum 1) chained_merges)) = [VNum 1; VNum 1] ∧
  (∃ m2, nodes chained_merges !! 2%nat = Some m2 ∧
         observers m2 = [obs_push] ∧
         functor m2 [] (VArr [VNum 1; VNum 1]) = Ok (VNum 2)) ∧
  ¬ (∃ r, flowLazy 9 chained_merges (VNum 1) 0 =
            Ok (FlowingState.mk [] [obs_push r] [])).
Proof.
  split_and!.
  - vm_compute. reflexivity.
  - vm_compute. reflexivity.
  - eexists. split; [vm_compute; reflexivity|]. split; reflexivity.
  - intros (r & H). vm_compute in H. discriminate H.
Qed.

(** ** Teardown *)

Lemma inert_alter_clear_fields (w : world) (s x : nat) :
  is_Some (nodes w !! s) →
  (x = s ∨ inert w x) →
  inert (set_nodes (alter clear_fields s (nodes w)) w) x.
Proof.
  intros [n Hn] Hx. unfold inert. simpl.
  destruct (decide (x = s)) as [->|Hne].
  - exists (clear_fields n). rewrite list_lookup_alter_eq, Hn. done.
  - destruct Hx as [?|Hx]; [done|].
    by rewrite list_lookup_alter_ne.
Qed.

Section Clear.
Variable w0 : world.

Lemma for_each_clear_post (f : nat → world → outcome unit) :
  (∀ c w w', cleared_or_same w0 w → f c w = Return tt w' → clear_post w0 [c] w w') →
  ∀ l w w', cleared_or_same w0 w → for_each f l w = Return tt w' →
            clear_post w0 l w w'.
Proof.
  intros Hf l. induction l as [|c l IH]; intros w w' HI; simpl.
  - intros [= <-]. unfold clear_post. split_and!; try done.
    intros c x Hc. by apply elem_of_nil in Hc.
  - destruct (f c w) as [[] wa|] eqn:Hc; [|done]. intros Hl.
    destruct (Hf _ _ _ HI Hc) as (HIa & Hra & Hma & Hua & Hsa & Hca & Hpa & Hoa).
    destruct (IH _ _ HIa Hl) as (HI' & Hr' & Hm' & Hu' & Hs' & Hc' & Hp' & Ho').
    unfold clear_post. split_and!; try congruence; auto.
    + intros c' x Hin Hreach. apply elem_of_cons in Hin as [->|Hin].
      * apply Hm', (Hra c); [apply list_elem_of_here|done].
      * by eapply Hr'.
    + intros x Hx. rewrite Hu', Hua; [done|..].
      * intros c' ->%list_elem_of_singleton. apply Hx, list_elem_of_here.
      * intros c' Hin. by apply Hx, list_elem_of_further.
Qed.

Lemma clear_clear_post (d s : nat) (w w' : world) :
  cleared_or_same w0 w → clear d s w = Return tt w' → clear_post w0 [s] w w'.
Proof.
  revert s w w'. induction d as [|d IH]; intros s w w' HI; simpl; [done|].
  destruct (nodes w !! s) as [n|] eqn:Hs; [|done].
  destruct (for_each (clear d) (next n) w) as [[] w1|] eqn:Hfe; [|done].
  intros [= <-].
  destruct (for_each_clear_post (clear d) IH _ _ _ HI Hfe)
    as (HI1 & Hr1 & Hm1 & Hu1 & Hs1 & Hc1 & Hp1 & Ho1).
  assert (Hs1' : is_Some (nodes w1 !! s)) by (apply Hs1; eauto).
  assert (Hreach : ∀ x, reach_next w0 s x →
            inert (set_nodes (alter clear_fields s (nodes w1)) w1) x).
  { intros x Hx. apply inert_alter_clear_fields; [done|].
    destruct (HI s) as [Hsame|Hdone].
    - inversion Hx as [|? c ? n0 Hn0 Hc Hcx]; subst; [by left|]. right.
      rewrite Hs in Hsame. rewrite Hn0 in Hsame. injection Hsame as ->.
      by eapply Hr1.
    - right. by apply Hm1, Hdone. }
  unfold clear_post. split_and!; try done.
  - intros y. destruct (decide (y = s)) as [->|Hne]; [by right|].
    simpl. rewrite list_lookup_alter_ne by done.
    destruct (HI1 y) as [?|Hy]; [by left|right].
    intros x Hx. apply inert_alter_clear_fields; auto.
  - intros c x ->%list_elem_of_singleton. apply Hreach.
  - intros x Hx. apply inert_alter_clear_fields; auto.
  - intros x Hx. simpl.
    assert (x ≠ s) as Hne.
    { intros ->. eapply Hx; [apply list_elem_of_here|constructor]. }
    rewrite list_lookup_alter_ne by done. apply Hu1.
    intros c Hc Hcx. destruct (HI s) as [Hsame|Hdone].
    + eapply Hx; [apply list_elem_of_here|].
      eapply reach_child; [|done..]. congruence.
    + destruct (Hdone s (reach_here _ _)) as (n' & Hn' & Hnext & _).
      rewrite Hs in Hn'. injection Hn' as <-. rewrite Hnext in Hc.
      by apply elem_of_nil in Hc.
  - intros x Hx. simpl. destruct (decide (x = s)) as [->|Hne].
    + rewrite list_lookup_alter_eq. destruct Hs1' as [? ->]. eauto.
    + rewrite list_lookup_alter_ne by done. auto.
Qed.
End Clear.

Lemma cleared_or_same_refl (w : world) : cleared_or_same w w.
Proof. intros y. by left. Qed.

Lemma for_each_returns (w0 : world) (f : nat → world → outcome unit) (l : list nat) :
  (∀ c w, c ∈ l → cleared_or_same w0 w → ∃ w', f c w = Return tt w') →
  (∀ c w w', cleared_or_same w0 w → f c w = Return tt w' → cleared_or_same w0 w') →
  ∀ w, cleared_or_same w0 w → ∃ w', for_each f l w = Return tt w'.
Proof.
  intros Hret Hinv. induction l as [|c l IH]; intros w HI; simpl; [by eauto|].
  destruct (Hret c w) as [wa Hc]; [apply list_elem_of_here|done|].
  rewrite Hc. apply IH; [|by eapply Hinv].
  intros c' w1 Hin. by apply Hret, list_elem_of_further.
Qed.

Lemma clear_returns (w0 : world) (s h : nat) :
  height_le w0 s h →
  ∀ d w, h ≤ d → cleared_or_same w0 w → ∃ w', clear d s w = Return tt w'.
Proof.
  induction 1 as [s h n Hn Hkids IH]. intros d w Hd HI.
  destruct d as [|d]; [lia|]. simpl.
  assert (∃ n', nodes w !! s = Some n' ∧ ∀ c, c ∈ next n' → c ∈ next n)
    as (n' & Hn' & Hsub).
  { destruct (HI s) as [Hsame|Hdone].
    - exists n. split; [congruence|done].
    - destruct (Hdone s (reach_here _ _)) as (n' & Hn' & Hnext & _).
      exists n'. split; [done|]. rewrite Hnext. intros c Hc.
      by apply elem_of_nil in Hc. }
  rewrite Hn'.
  destruct (for_each_returns w0 (clear d) (next n')) with (w := w) as [w1 ->];
    [| |done|by eauto].
  - intros c w1 Hc HI1. apply IH; [by apply Hsub|lia|done].
  - intros c w1 w2 HI1 Hc. by apply (clear_clear_post w0 d c w1 w2).
Qed.

Lemma flow_inert (d : nat) (w : world) (v : val) (x : nat) :
  inert w x → flow (S d) w v x = Ok emptyFlowingState.
Proof.
  intros (n & Hn & Hnext & Hlazy & Hobs & Hupd). simpl.
  unfold get_node. rewrite Hn. cbn [mbind result_bind].
  destruct (functor n (cells w) v) as [r|e]; [|done].
  cbn [mbind result_bind]. rewrite Hnext. simpl.
  unfold streamToFlowingState. by rewrite Hlazy, Hobs, Hupd.
Qed.

Lemma drip_inert (d : nat) (w : world) (v : val) (x : nat) :
  inert w x → observerPhase w = false →
  drip (S d) x v w = Return emptyFlowingState w.
Proof.
  intros Hx Hw. simpl. rewrite Hw.
  assert (Hfl : flowLazy d w v x = Ok emptyFlowingState ∨
                ∃ e, flowLazy d w v x = Err e).
  { destruct d as [|[|d]]; simpl; [by eauto..|].
    left. pose proof (flow_inert d w v x Hx) as Hf. simpl in Hf.
    by rewrite Hf. }
  destruct Hfl as [->|[e ->]]; destruct w; simpl in *; by subst.
Qed.

(** C6, as the code has it.  [clear(n)] follows the [next] edges only.
    On a subtree within the depth of the stack it returns, and then
    every stream reachable from [n] along [next] edges, [n] included,
    has its four sets empty; every other stream, an upstream parent of
    [n] among them, is as it was, so the parent still has [n] in its
    edge set; cells, guard and the observers' array are untouched; and a
    [drip] into any of the emptied streams returns the empty
    FlowingState and changes nothing. *)
Theorem clear_empties_next_subtree (d s h : nat) (w : world) :
  height_le w s h →
  h ≤ d →
  ∃ w', clear d s w = Return tt w' ∧
    (∀ x, reach_next w s x → inert w' x) ∧
    (∀ x, ¬ reach_next w s x → nodes w' !! x = nodes w !! x) ∧
    (∀ p np, nodes w !! p = Some np → s ∈ next np → ¬ reach_next w s p →
       nodes w' !! p = Some np) ∧
    cells w' = cells w ∧ observerPhase w' = observerPhase w ∧
    observed w' = observed w ∧
    (∀ x d' v, reach_next w s x → observerPhase w = false →
       drip (S d') x v w' = Return emptyFlowingState w').
Proof.
  intros Hh Hd.
  destruct (clear_returns w s h Hh d w Hd (cleared_or_same_refl w)) as [w' Hc].
  exists w'. split; [done|].
  destruct (clear_clear_post w d s w w' (cleared_or_same_refl w) Hc)
    as (_ & Hr & _ & Hu & _ & Hcells & Hp & Ho).
  assert (Hsame : ∀ x, ¬ reach_next w s x → nodes w' !! x = nodes w !! x).
  { intros x Hx. apply Hu. by intros c ->%list_elem_of_singleton. }
  split_and!; try done.
  - intros x Hx. eapply Hr; [apply list_elem_of_here|done].
  - intros p np Hnp _ Hp'. by rewrite Hsame.
  - intros x d' v Hx Hw. apply drip_inert; [|congruence].
    eapply Hr; [apply list_elem_of_here|done].
Qed.

(** C6 fails for the streams reached through [lazyNext].  In
    [merged_source] the merge node [m] is in [a.lazyNext] and has an
    observer.  [clear(a)] returns and leaves [m] with its observer, and
    a value injected into [m] afterwards still reaches that observer. *)
Lemma clear_skips_lazyNext :
  (∃ na, nodes merged_source !! 0%nat = Some na ∧ 1%nat ∈ lazyNext na) ∧
  ∃ w', clear 5 0 merged_source = Return tt w' ∧
    ¬ inert w' 1 ∧
    drip 5 1 (VArr [VNum 7]) w' ≠ Return emptyFlowingState w' ∧
    observed (final (drip 5 1 (VArr [VNum 7]) w')) = [VNum 7].
Proof.
  split.
  - eexists. split; [vm_compute; reflexivity|]. simpl. apply list_elem_of_here.
  - eexists. split; [vm_compute; reflexivity|]. split_and!.
    + intros (n & Hn & _ & _ & Hobs & _). vm_compute in Hn.
      injection Hn as <-. discriminate Hobs.
    + vm_compute. discriminate.
    + vm_compute. reflexivity.
Qed.

(** ** Where the entries of a FlowingState come from *)

Lemma foldl_concat_fields (init : FlowingState) (states : list FlowingState) :
  FlowingState.waiting (foldl concatFlowingState init states)
    = FlowingState.waiting init ++ concat (map FlowingState.waiting states) ∧
  FlowingState.observers (foldl concatFlowingState init states)
    = FlowingState.observers init ++ concat (map FlowingState.observers states) ∧
  FlowingState.updates (foldl concatFlowingState init states)
    = FlowingState.updates init ++ concat (map FlowingState.updates states).
Proof.
  revert init. induction states as [|st states IH]; intros init; simpl.
  - by rewrite !app_nil_r.
  - destruct (IH (concatFlowingState init st)) as (-> & -> & ->).
    simpl. by rewrite <- !app_assoc.
Qed.

Lemma mapM_result_Ok {A B} (f : A → result B) (l : list A) (k : list B) :
  mapM f l = Ok k → Forall2 (λ x y, f x = Ok y) l k.
Proof.
  revert k. induction l as [|x l IH]; intros k; simpl.
  - intros [= <-]. constructor.
  - destruct (f x) as [y|] eqn:Hx; [|done]. cbn [mbind result_bind].
    destruct (mapM f l) as [k'|]; [|done]. intros [= <-].
    constructor; [done|]. by apply IH.
Qed.

Lemma filterM_Ok_subset {A} (p : A → result bool) (l k : list A) (x : A) :
  filterM p l = Ok k → x ∈ k → x ∈ l.
Proof.
  revert k. induction l as [|y l IH]; intros k; simpl.
  - intros [= <-]. done.
  - destruct (p y) as [b|]; [|done]. cbn [mbind result_bind].
    destruct (filterM p l) as [k'|]; [|done]. cbn [mbind result_bind].
    intros [= <-]. destruct b.
    + rewrite !elem_of_cons. intros [?|?]; [by left|right; by eapply IH].
    + intros ?. apply list_elem_of_further. by eapply IH.
Qed.

Lemma map_reduce_inv {A} (f : A → result FlowingState) (xs : list A)
    (init fs : FlowingState) :
  map_reduce f xs init = Ok fs →
  ∃ states, Forall2 (λ x st, f x = Ok st) xs states ∧
            fs = foldl concatFlowingState init states.
Proof.
  unfold map_reduce. destruct (mapM f xs) as [states|] eqn:Hm; [|done].
  intros [= <-]. exists states. split; [by apply mapM_result_Ok|done].
Qed.

Lemma elem_of_concat_map {A B} (g : A → list B) (l : list A) (u : B) :
  u ∈ concat (map g l) → ∃ st, st ∈ l ∧ u ∈ g st.
Proof.
  induction l as [|st l IH]; simpl; [by intros ?%elem_of_nil|].
  rewrite elem_of_app. intros [Hu|Hu].
  - exists st. split; [apply list_elem_of_here|done].
  - destruct (IH Hu) as (st' & ? & ?). exists st'.
    split; [by apply list_elem_of_further|done].
Qed.

(** An entry that [map_reduce] adds to [init] comes from the result of
    [f] on an element of the list. *)
Lemma map_reduce_updates {A} (f : A → result FlowingState) (xs : list A)
    (init fs : FlowingState) :
  map_reduce f xs init = Ok fs →
  ∃ rest, FlowingState.updates fs = FlowingState.updates init ++ rest ∧
    ∀ u, u ∈ rest → ∃ x st, x ∈ xs ∧ f x = Ok st ∧ u ∈ FlowingState.updates st.
Proof.
  intros (states & Hm & ->)%map_reduce_inv.
  destruct (foldl_concat_fields init states) as (_ & _ & ->).
  eexists. split; [done|].
  intros u (st & Hst & Hu)%elem_of_concat_map.
  apply list_elem_of_lookup in Hst as [i Hi].
  destruct (Forall2_lookup_r _ _ _ _ _ Hm Hi) as (x & Hx & Hfx).
  exists x, st. split_and!; [|done..]. by eapply list_elem_of_lookup_2.
Qed.

Lemma map_reduce_waiting {A} (f : A → result FlowingState) (xs : list A)
    (init fs : FlowingState) :
  map_reduce f xs init = Ok fs →
  ∃ rest, FlowingState.waiting fs = FlowingState.waiting init ++ rest ∧
    ∀ u, u ∈ rest → ∃ x st, x ∈ xs ∧ f x = Ok st ∧ u ∈ FlowingState.waiting st.
Proof.
  intros (states & Hm & ->)%map_reduce_inv.
  destruct (foldl_concat_fields init states) as (-> & _ & _).
  eexists. split; [done|].
  intros u (st & Hst & Hu)%elem_of_concat_map.
  apply list_elem_of_lookup in Hst as [i Hi].
  destruct (Forall2_lookup_r _ _ _ _ _ Hm Hi) as (x & Hx & Hfx).
  exists x, st. split_and!; [|done..]. by eapply list_elem_of_lookup_2.
Qed.

Lemma mapM_flow_succ (d : nat) (w : world) (r : val) (l : list nat) :
  ∃ states, mapM (flow (S d) w r) l = Ok states.
Proof.
  induction l as [|k l [states IH]]; [by eexists|].
  destruct (flow_succ_ok d w r k) as [st Hst].
  exists (st :: states).
  change (mapM (flow (S d) w r) (k :: l)) with
    (y ← flow (S d) w r k; ys ← mapM (flow (S d) w r) l; mret (y :: ys)).
  by rewrite Hst, IH.
Qed.

(** ** The update phase *)


Lemma run_updates_length us w :
  length (cells (run_updates us w)) = length (cells w).
Proof.
  unfold run_updates. revert w.
  induction us as [|u us IH]; intros w; simpl; [done|].
  rewrite IH. simpl. by rewrite length_insert.
Qed.

Lemma run_updates_reader (c : nat) (r : val) (us : list (nat * val)) (w : world) :
  c < length (cells w) →
  (∀ x, (c, x) ∈ us → x = r) →
  reader c (run_updates us w) = if decide (c ∈ us.*1) then r else reader c w.
Proof.
  unfold run_updates. revert w.
  induction us as [|[c' x] us IH]; intros w Hc Hall; [done|].
  cbn [foldl]. rewrite IH; cycle 1.
  { simpl. by rewrite length_insert. }
  { intros y Hy. by apply Hall, list_elem_of_further. }
  rewrite fmap_cons. cbn [fst].
  destruct (decide (c ∈ us.*1)) as [Hin|Hnin].
  - by rewrite decide_True by (by apply list_elem_of_further).
  - unfold reader, run_update. simpl. destruct (decide (c' = c)) as [->|Hne].
    + rewrite decide_True by apply list_elem_of_here.
      rewrite list_lookup_insert_eq by done. simpl.
      apply Hall, list_elem_of_here.
    + rewrite decide_False by (rewrite elem_of_cons; intros [?|?]; congruence).
      by rewrite list_lookup_insert_ne.
Qed.

Lemma hold_reader_init (s c : nat) (init : val) (w0 w : world) :
  hold s init w0 = Return c w → reader c w = init.
Proof.
  unfold hold, update_node, with_node. simpl.
  destruct (nodes w0 !! s); [|done]. intros [= <- <-].
  unfold reader. simpl. by rewrite lookup_app_r, Nat.sub_diag.
Qed.

Lemma hold_held_on (s c : nat) (init : val) (w0 w : world) :
  allocated w0 → hold s init w0 = Return c w → held_on w c s.
Proof.
  intros Halloc. unfold hold, update_node, with_node. simpl.
  destruct (nodes w0 !! s) as [n|] eqn:Hn; [|done]. intros [= <- <-].
  assert (Hlt : s < length (nodes w0)) by (by eapply lookup_lt_Some).
  unfold held_on. simpl. split_and!.
  - rewrite length_app. simpl. lia.
  - eexists. rewrite list_lookup_insert_eq by done. split; [done|].
    simpl. rewrite elem_of_app, list_elem_of_singleton. by right.
  - intros t nt Ht Hc. destruct (decide (t = s)) as [->|Hne]; [done|].
    rewrite list_lookup_insert_ne in Ht by done.
    pose proof (Halloc _ _ _ Ht Hc). lia.
Qed.

(** C1 fails in its clause on the value after the call.  On
    [held_successor] the pure phase of [drip(s)(5)] completes and the
    call returns, and the property then reads 6, the result of the
    functor of [s], not the injected 5.  On [held_with_thrower], whose
    [s] is a plain [stream()], the pure phase completes, an observer
    throws, the call returns, and the property still reads its initial
    0. *)
Lemma hold_reader_not_injected_value :
  (reader 0 held_successor = VNum 0 ∧
   (∃ st, flowLazy 5 held_successor (VNum 5) 0 = Ok st) ∧
   ∃ fs w', drip 6 0 (VNum 5) held_successor = Return fs w' ∧
            reader 0 w' = VNum 6 ∧ reader 0 w' ≠ VNum 5) ∧
  (reader 0 held_with_thrower = VNum 0 ∧
   (∃ st, flowLazy 5 held_with_thrower (VNum 5) 0 = Ok st) ∧
   ∃ fs w', drip 6 0 (VNum 5) held_with_thrower = Return fs w' ∧
            reader 0 w' = VNum 0 ∧ reader 0 w' ≠ VNum 5).
Proof.
  split; (split; [reflexivity|]); (split; [eexists; vm_compute; reflexivity|]);
    eexists _, _; (split; [vm_compute; reflexivity|]);
    (split; [reflexivity|discriminate]).
Qed.

(** ** Switching *)

Lemma elem_of_set_add (x y : nat) (l : list nat) :
  y ∈ set_add x l ↔ y = x ∨ y ∈ l.
Proof.
  unfold set_add. destruct (decide (x ∈ l)) as [Hin|Hnin].
  - split; [by right|]. by intros [->|?].
  - rewrite elem_of_app, list_elem_of_singleton. tauto.
Qed.









(** ** The scenarios, run *)

(** Case analysis on which stream of a concrete world [H] looks up. *)
Ltac each_node t H :=
  repeat (destruct t as [|t];
          [vm_compute in H; injection H as <-|]);
  try (vm_compute in H; discriminate H).

(** No element of a concrete list of streams is the one [H] claims. *)
Ltac no_elem H :=
  repeat (apply elem_of_cons in H as [H|H]; [discriminate H|]);
  by apply elem_of_nil in H.


(** The scenario of the specification on [switchboard], where nothing
    throws: after [ss] emits [i1], the 5 injected into [i1] reaches the
    observer of [o]; after [ss] emits [i2], the 6 injected into [i1]
    does not, and the 7 injected into [i2] does. *)
Example shed_scenario :
  observed switched_to_i1 = [] ∧ observed injected_5 = [VNum 5] ∧
  observed switched_to_i2 = [VNum 5] ∧ observed injected_6 = [VNum 5] ∧
  observed injected_7 = [VNum 5; VNum 7].
Proof. repeat split; vm_compute; reflexivity. Qed.

(** A superseded inner stream that leads to the current one still
    reaches the output.  On [switchboard_piped], after [ss] has emitted
    [i1] and then [i2], only [i2] has [o] in its [next] set, and the 9
    injected into [i1] reaches the observer of [o] through [i2]. *)
Example shed_superseded_upstream :
  feeds (final (drip 6 0 (VStream 3)
           (final (drip 6 0 (VStream 2) switchboard_piped)))) 3 1 ∧
  ¬ feeds (final (drip 6 0 (VStream 3)
             (final (drip 6 0 (VStream 2) switchboard_piped)))) 2 1 ∧
  observed (final (drip 6 2 (VNum 9)
    (final (drip 6 0 (VStream 3)
       (final (drip 6 0 (VStream 2) switchboard_piped)))))) = [VNum 9].
Proof.
  split_and!.
  - eexists. split; [vm_compute; reflexivity|]. apply list_elem_of_here.
  - intros (n & Hn & Ho). vm_compute in Hn. injection Hn as <-.
    simpl in Ho. no_elem Ho.
  - vm_compute. reflexivity.
Qed.

(** An observer that catches what its injection throws: nothing was
    injected, the observers after it run, and the call returns its
    FlowingState. *)
Example reentrancy_caught :
  ∃ fs w', drip 6 0 (VNum 4) reentrant_caught = Return fs w' ∧
    length (FlowingState.observers fs) = 2 ∧
    observed w' = [VNum (-1); VNum 4] ∧ observerPhase w' = false.
Proof. eexists _, _. split; [vm_compute; reflexivity|]. repeat split. Qed.

(** The end-to-end example of the specification: [drip(s)(3); drip(s)(5)]
    on [doubling] gives [observed = [6, 10]]. *)
Example end_to_end :
  observed (final (drip 6 0 (VNum 5) (final (drip 6 0 (VNum 3) doubling))))
  = [VNum 6; VNum 10].
Proof. vm_compute. reflexivity. Qed.

(** Two injections into [held_and_observed]: the observer of [s] reads
    the property before it changes, 0 and then 3. *)
Example observer_reads_old_value :
  observed (final (drip 6 0 (VNum 5)
             (final (drip 6 0 (VNum 3) held_and_observed))))
  = [VNum 0; VNum 4; VNum 3; VNum 6].
Proof. vm_compute. reflexivity. Qed.

(** ** The theorems at work *)

(** [merge_functor_folds] on [merge([a])(plus)] for a fresh [a]. *)
Lemma merge_functor_folds_witness :
  merge [0] plus (stream parrot world0).2
    = Return 1 (final (merge [0] plus (stream parrot world0).2)) ∧
  ∃ n, nodes (final (merge [0] plus (stream parrot world0).2)) !! 1 = Some n ∧
       functor n [] (VArr [VNum 1; VNum 2; VNum 3]) = Ok (VNum 6) ∧
       functor n [] (VArr [VNum 4]) = Ok (VNum 4) ∧
       functor n [] (VArr []) = Err merge_error.
Proof.
  split; [reflexivity|].
  destruct (merge_functor_folds [0] plus (stream parrot world0).2
              (final (merge [0] plus (stream parrot world0).2)) 1 eq_refl)
    as (n & Hn & Hfold & _ & Hone & Hempty).
  exists n. split; [exact Hn|]. split; [|split].
  - rewrite Hfold. reflexivity.
  - apply Hone.
  - apply Hempty.
Defined.

(** [flowLazy_groups_each_round] on the first round of an injection into
    [a] in [chained_merges]. *)
Lemma flowLazy_groups_each_round_witness :
  flow 8 chained_merges (VNum 1) 0
    = Ok (FlowingState.mk [(1, VNum 1); (2, VNum 1)] [] []) ∧
  group [(1, VNum 1); (2, VNum 1)] = [(1, [VNum 1]); (2, [VNum 1])] ∧
  flowLazy 9 chained_merges (VNum 1) 0 =
    map_reduce (λ m, flowLazy 8 chained_merges
                       (VArr (arrived m [(1, VNum 1); (2, VNum 1)])) m)
      [1; 2] (FlowingState.mk [] [] []).
Proof.
  assert (Hflow : flow 8 chained_merges (VNum 1) 0
                  = Ok (FlowingState.mk [(1, VNum 1); (2, VNum 1)] [] []))
    by (vm_compute; reflexivity).
  split; [exact Hflow|].
  destruct (flowLazy_groups_each_round 8 chained_merges (VNum 1) 0 _ Hflow)
    as (_ & _ & _ & Hgroup & Hlazy); [discriminate|].
  split; [reflexivity|exact Hlazy].
Defined.

(** [drip_aborts_on_pure_phase_error] on [chained_merges] with a stack
    too short for its chain of merges. *)
Lemma drip_aborts_on_pure_phase_error_witness :
  observerPhase chained_merges = false ∧
  flowLazy 3 chained_merges (VNum 1) 0 = Err RangeError ∧
  drip 4 0 (VNum 1) chained_merges = Return emptyFlowingState chained_merges.
Proof.
  split; [reflexivity|]. split; [vm_compute; reflexivity|].
  destruct (drip_aborts_on_pure_phase_error 3 0 (VNum 1) chained_merges RangeError)
    as (w' & Hdrip & _ & ->); [reflexivity|vm_compute; reflexivity|exact Hdrip].
Defined.

(** [flow_functor_throw_isolated] on the stream of [held_and_observed]
    whose functor throws on what is not a number. *)
Lemma flow_functor_throw_isolated_witness :
  (∃ n, nodes held_and_observed !! 1 = Some n ∧
        functor n (cells held_and_observed) (VArr []) = Err TypeError) ∧
  flow 3 held_and_observed (VArr []) 1 = Ok emptyFlowingState ∧
  ∀ init,
    map_reduce (flow 3 held_and_observed (VArr [])) ([0] ++ 1 :: [0]) init
    = map_reduce (flow 3 held_and_observed (VArr [])) ([0] ++ [0]) init.
Proof.
  assert (Hn : nodes held_and_observed !! 1
               = Some (mkStream succ_functor None [] [] [] [obs_push]))
    by reflexivity.
  split; [eexists; split; [exact Hn|reflexivity]|].
  destruct (flow_functor_throw_isolated 2 held_and_observed (VArr []) 1 _
              TypeError Hn eq_refl) as (Hflow & _ & Hsib).
  split; [exact Hflow|]. intros init. apply Hsib.
Defined.

(** [flow_filter_throw_voids_node] on [filtered]: [s] has an observer and
    an unfiltered child, and contributes nothing. *)
Lemma flow_filter_throw_voids_node_witness :
  (∃ n, nodes filtered !! 0 = Some n ∧ observers n = [obs_push] ∧
        next n = [1; 2] ∧ functor n (cells filtered) VUndef = Ok VUndef) ∧
  (∃ nc, nodes filtered !! 2 = Some nc ∧ sfilter nc = Some positive) ∧
  positive (cells filtered) VUndef = Err TypeError ∧
  flow 5 filtered VUndef 0 = Ok emptyFlowingState.
Proof.
  assert (Hn : nodes filtered !! 0
               = Some (mkStream parrot None [1; 2] [] [] [obs_push]))
    by reflexivity.
  assert (Hc : nodes filtered !! 2
               = Some (mkStream parrot (Some positive) [] [] [] []))
    by reflexivity.
  split; [eexists; split; [exact Hn|repeat split]|].
  split; [eexists; split; [exact Hc|reflexivity]|].
  split; [reflexivity|].
  eapply (flow_filter_throw_voids_node 4 filtered VUndef VUndef 0 2);
    [exact Hn|reflexivity| |exact Hc|reflexivity|reflexivity].
  simpl. apply list_elem_of_further, list_elem_of_here.
Defined.

(** [drip_observer_throw_aborts] on [thrower_between]: the first observer
    ran, the third did not, the property is unchanged. *)
Lemma drip_observer_throw_aborts_witness :
  observerPhase thrower_between = false ∧
  flowLazy 5 thrower_between (VNum 5) 0
    = Ok (FlowingState.mk []
            [obs_push (VNum 5); obs_throw (VNum 5); obs_push (VNum 5)]
            [(0, VNum 5)]) ∧
  (∃ fs w', drip 6 0 (VNum 5) thrower_between = Return fs w' ∧
     fs = emptyFlowingState ∧ observed w' = [VNum 5] ∧
     reader 0 w' = VNum 0 ∧ observerPhase w' = false).
Proof.
  assert (Hflow : flowLazy 5 thrower_between (VNum 5) 0
            = Ok (FlowingState.mk []
                    [obs_push (VNum 5); obs_throw (VNum 5); obs_push (VNum 5)]
                    [(0, VNum 5)])) by (vm_compute; reflexivity).
  split; [reflexivity|]. split; [exact Hflow|].
  destruct (drip_observer_throw_aborts 5 0 (VNum 5) thrower_between
              (set_observed [VNum 5] (set_observerPhase true thrower_between))
              (set_observed [VNum 5] (set_observerPhase true thrower_between))
              _ [obs_push (VNum 5)] [obs_push (VNum 5)] (obs_throw (VNum 5))
              (Error "boom") eq_refl Hflow eq_refl eq_refl eq_refl)
    as (Hdrip & Hcells & Hphase).
  eexists _, _. split; [exact Hdrip|]. repeat split.
Defined.


(** [clear_empties_next_subtree] on [held_and_observed], where [s] has
    the child [t]. *)
Lemma clear_empties_next_subtree_witness :
  height_le held_and_observed 0 2 ∧ 2 ≤ 5 ∧
  ∃ w', clear 5 0 held_and_observed = Return tt w' ∧
    inert w' 0 ∧ inert w' 1 ∧
    drip 6 0 (VNum 3) w' = Return emptyFlowingState w' ∧
    drip 6 1 (VNum 3) w' = Return emptyFlowingState w'.
Proof.
  assert (Hh : height_le held_and_observed 0 2).
  { eapply height_le_node; [reflexivity|]. simpl. intros c Hc.
    apply list_elem_of_singleton in Hc as ->.
    eapply height_le_node; [reflexivity|]. simpl. intros c Hc.
    by apply elem_of_nil in Hc. }
  assert (Hr : reach_next held_and_observed 0 1).
  { eapply reach_child; [reflexivity| |apply reach_here].
    simpl. apply list_elem_of_here. }
  split; [exact Hh|]. split; [lia|].
  destruct (clear_empties_next_subtree 5 0 2 held_and_observed Hh)
    as (w' & Hclear & Hinert & _ & _ & _ & _ & _ & Hdrip); [lia|].
  exists w'. split; [exact Hclear|].
  split; [apply Hinert, reach_here|]. split; [apply Hinert, Hr|].
  split; [apply Hdrip; [apply reach_here|reflexivity]|].
  apply Hdrip; [exact Hr|reflexivity].
Defined.


(** * Further properties of the engine *)

(** ** The pure phase, continued *)

Lemma mapM_result_Err {A B} (f : A → result B) (l : list A) (e : error) :
  mapM f l = Err e → ∃ x, x ∈ l ∧ f x = Err e.
Proof.
  induction l as [|x l IH]; simpl; [done|].
  destruct (f x) as [y|e'] eqn:Hx; cbn [mbind result_bind].
  - destruct (mapM f l) as [k|e'] eqn:Hl; [done|].
    cbn [mbind result_bind]. intros [= ->].
    destruct IH as (x' & Hin & Hx'); [done|].
    exists x'. split; [by apply list_elem_of_further|done].
  - intros [= ->]. exists x. split; [apply list_elem_of_here|done].
Qed.

Lemma flow_Err (d : nat) (w : world) (v : val) (s : nat) (e : error) :
  flow d w v s = Err e → d = 0 ∧ e = RangeError.
Proof.
  destruct d as [|d]; simpl; [by intros [= <-]|].
  destruct (_ ≫= _); simpl; done.
Qed.

(** X1.  The catch of [flow] contains every error of a functor, of a
    filter predicate and of a child: the only error that leaves
    [flowLazy], and so the only one the catch of [drip] can see from the
    pure phase, is the exhaustion of the stack. *)
Theorem flowLazy_throws_only_RangeError (d : nat) (w : world) (v : val) (s : nat)
    (e : error) :
  flowLazy d w v s = Err e → e = RangeError.
Proof.
  revert v s. induction d as [|d IH]; intros v s; simpl; [by intros [= <-]|].
  destruct (flow d w v s) as [r|e'] eqn:Hflow; cbn [mbind result_bind].
  - destruct (FlowingState.waiting r); [done|].
    unfold map_reduce.
    destruct (mapM _ _) as [states|e'] eqn:Hm; cbn [mbind result_bind]; [done|].
    intros [= ->]. apply mapM_result_Err in Hm as (sv & _ & Hsv). by eapply IH.
  - intros [= ->]. by apply flow_Err in Hflow as [_ ->].
Qed.

Lemma concat_nil_all {A B} (g : A → list B) (l : list A) :
  (∀ x, x ∈ l → g x = []) → concat (map g l) = [].
Proof.
  induction l as [|x l IH]; intros Hall; simpl; [done|].
  rewrite Hall by apply list_elem_of_here. simpl.
  apply IH. intros y Hy. by apply Hall, list_elem_of_further.
Qed.

Lemma Forall2_result_elem {A B} (f : A → result B) (l : list A) (k : list B) (y : B) :
  Forall2 (λ x y, f x = Ok y) l k → y ∈ k → ∃ x, x ∈ l ∧ f x = Ok y.
Proof.
  intros HF Hy. apply list_elem_of_lookup in Hy as [i Hi].
  destruct (Forall2_lookup_r _ _ _ _ _ HF Hi) as (x & Hx & Hfx).
  exists x. split; [by eapply list_elem_of_lookup_2|done].
Qed.

Lemma flowLazy_no_pending (d : nat) (w : world) (v : val) (s : nat)
    (fs : FlowingState) :
  flowLazy d w v s = Ok fs → FlowingState.waiting fs = [].
Proof.
  revert v s fs. induction d as [|d IH]; intros v s fs; simpl; [done|].
  destruct (flow d w v s) as [r|] eqn:Hflow; cbn [mbind result_bind]; [|done].
  destruct (FlowingState.waiting r) as [|p pending] eqn:Hp.
  { by intros [= <-]. }
  intros (states & HF & ->)%map_reduce_inv.
  destruct (foldl_concat_fields
              (FlowingState.mk [] (FlowingState.observers r) (FlowingState.updates r))
              states) as (-> & _ & _).
  simpl. apply concat_nil_all. intros st Hst.
  destruct (Forall2_result_elem _ _ _ _ HF Hst) as (sv & _ & Hsv). by eapply IH.
Qed.

(** X2.  The FlowingState a [drip] call returns has no pending merge
    pair left: every pair that a stream left for a merge node has been
    resolved into a call of that node, at any depth of chaining. *)
Theorem drip_returns_no_pending (d s : nat) (v : val) (w w' : world)
    (fs : FlowingState) :
  drip d s v w = Return fs w' → FlowingState.waiting fs = [].
Proof.
  destruct d as [|d]; simpl; destruct (observerPhase w); try done.
  destruct (flowLazy d w v s) as [state|] eqn:Hflow; [|by intros [= <- _]].
  destruct (run_observers _ _ _); intros [= <- _]; [|done].
  by eapply flowLazy_no_pending.
Qed.

Lemma flow_own_then_children (d : nat) (w : world) (v r : val) (s : nat)
    (n : StreamState) (kept : list nat) :
  nodes w !! s = Some n →
  functor n (cells w) v = Ok r →
  filterM (accepts w r) (next n) = Ok kept →
  ∃ states,
    Forall2 (λ c st, flow (S d) w r c = Ok st) kept states ∧
    flow (S (S d)) w v s =
      Ok (FlowingState.mk
            (map (λ m, (m, r)) (lazyNext n)
               ++ concat (map FlowingState.waiting states))
            (map (λ f, f r) (observers n)
               ++ concat (map FlowingState.observers states))
            (map (λ p, (p, r)) (updates n)
               ++ concat (map FlowingState.updates states))).
Proof.
  intros Hn Hr Hk. destruct (mapM_flow_succ d w r kept) as [states Hm].
  exists states. split; [by apply mapM_result_Ok|].
  change (flow (S (S d)) w v s) with
    (try_catch
       (n ← get_node w s;
        r ← functor n (cells w) v;
        kept ← filterM (accepts w r) (next n);
        map_reduce (flow (S d) w r) kept (streamToFlowingState r n))
       (λ _, Ok emptyFlowingState)).
  unfold get_node. rewrite Hn. cbn [mbind result_bind].
  rewrite Hr. cbn [mbind result_bind]. rewrite Hk. cbn [mbind result_bind].
  unfold map_reduce. rewrite Hm. cbn [mbind result_bind try_catch]. f_equal.
  destruct (foldl_concat_fields (streamToFlowingState r n) states) as (H1 & H2 & H3).
  destruct (foldl concatFlowingState (streamToFlowingState r n) states).
  simpl in *. by rewrite H1, H2, H3.
Qed.

(** X3.  A stream whose functor returns [r] and whose children's
    predicates do not throw contributes its own effects first, all bound
    to [r]: its observers, its update sinks and one pending pair for
    each merge node in [lazyNext]; then come the contributions of the
    children that accept [r], each computed on [r], in the order of
    [next]. *)
Theorem flow_own_effects_first (d : nat) (w : world) (v r : val) (s : nat)
    (n : StreamState) (kept : list nat) :
  nodes w !! s = Some n →
  functor n (cells w) v = Ok r →
  filterM (accepts w r) (next n) = Ok kept →
  ∃ states,
    Forall2 (λ c st, flow (S d) w r c = Ok st) kept states ∧
    flow (S (S d)) w v s =
      Ok (FlowingState.mk
            (map (λ m, (m, r)) (lazyNext n)
               ++ concat (map FlowingState.waiting states))
            (map (λ f, f r) (observers n)
               ++ concat (map FlowingState.observers states))
            (map (λ p, (p, r)) (updates n)
               ++ concat (map FlowingState.updates states))).
Proof. apply flow_own_then_children. Qed.

(** ** Locality *)

Lemma filterM_ext_in {A} (p q : A → result bool) (l : list A) :
  (∀ x, x ∈ l → p x = q x) → filterM p l = filterM q l.
Proof.
  induction l as [|x l IH]; intros Hpq; simpl; [done|].
  rewrite Hpq by apply list_elem_of_here.
  rewrite IH; [done|]. intros y Hy. by apply Hpq, list_elem_of_further.
Qed.

Lemma mapM_result_ext_in {A B} (f g : A → result B) (l : list A) :
  (∀ x, x ∈ l → f x = g x) → mapM f l = mapM g l.
Proof.
  induction l as [|x l IH]; intros Hfg; [done|].
  change (mapM f (x :: l)) with (y ← f x; k ← mapM f l; mret (y :: k)).
  change (mapM g (x :: l)) with (y ← g x; k ← mapM g l; mret (y :: k)).
  rewrite Hfg by apply list_elem_of_here.
  rewrite IH; [done|]. intros y Hy. by apply Hfg, list_elem_of_further.
Qed.

Lemma reach_next_reach (w : world) (s x : nat) : reach_next w s x → reach w s x.
Proof.
  induction 1 as [s|s c x n Hn Hc _ IH]; [constructor|].
  eapply reach_step; [done| |done]. apply elem_of_app. by left.
Qed.

Lemma reach_trans (w : world) (s t x : nat) :
  reach w s t → reach w t x → reach w s x.
Proof.
  induction 1 as [s|s c t n Hn Hc _ IH]; [done|].
  intros Hx. eapply reach_step; [done..|]. by apply IH.
Qed.

Lemma flow_local (d : nat) (w w' : world) (v : val) (s : nat) :
  cells w' = cells w →
  (∀ x, reach_next w s x → nodes w' !! x = nodes w !! x) →
  flow d w' v s = flow d w v s.
Proof.
  intros Hcells. revert v s. induction d as [|d IH]; intros v s Hsame; [done|].
  simpl. unfold get_node. rewrite Hsame by constructor.
  destruct (nodes w !! s) as [n|] eqn:Hn; [|done]. cbn [mbind result_bind].
  rewrite Hcells. destruct (functor n (cells w) v) as [r|]; [|done].
  cbn [mbind result_bind].
  assert (Hchild : ∀ c x, c ∈ next n → reach_next w c x → reach_next w s x).
  { intros c x Hc Hx. by eapply reach_child. }
  rewrite (filterM_ext_in (accepts w' r) (accepts w r)); cycle 1.
  { intros c Hc. unfold accepts, get_node.
    rewrite Hsame, Hcells; [done|]. apply (Hchild c); [done|constructor]. }
  destruct (filterM (accepts w r) (next n)) as [kept|] eqn:Hk; [|done].
  cbn [mbind result_bind]. unfold map_reduce.
  rewrite (mapM_result_ext_in (flow d w' r) (flow d w r)); [done|].
  intros c Hc. apply IH. intros x Hx. apply Hsame, (Hchild c); [|done].
  by eapply filterM_Ok_subset.
Qed.

(** A pending pair in the result of [flow] is for a stream that can be
    reached from the one [flow] started from. *)
Lemma flow_waiting_reach (d : nat) (w : world) (v : val) (s : nat)
    (fs : FlowingState) (m : nat) (x : val) :
  flow d w v s = Ok fs → (m, x) ∈ FlowingState.waiting fs → reach w s m.
Proof.
  revert v s fs x. induction d as [|d IH]; intros v s fs x; simpl; [done|].
  unfold get_node. destruct (nodes w !! s) as [n|] eqn:Hn; simpl;
    [|intros [= <-] ?%elem_of_nil; done].
  destruct (functor n (cells w) v) as [r|] eqn:Hr; simpl;
    [|intros [= <-] ?%elem_of_nil; done].
  destruct (filterM (accepts w r) (next n)) as [kept|] eqn:Hk; simpl;
    [|intros [= <-] ?%elem_of_nil; done].
  destruct (map_reduce (flow d w r) kept (streamToFlowingState r n))
    as [fs'|] eqn:Hmr; simpl; [|intros [= <-] ?%elem_of_nil; done].
  intros [= <-]. destruct (map_reduce_waiting _ _ _ _ Hmr) as (rest & -> & Hrest).
  intros [Hown|Hin]%elem_of_app.
  - simpl in Hown. apply list_elem_of_In, in_map_iff in Hown
      as (m' & [= -> _] & Hm%list_elem_of_In).
    eapply reach_step; [done| |constructor]. apply elem_of_app. by right.
  - destruct (Hrest _ Hin) as (k & st & Hk' & Hst & Hu).
    eapply reach_step; [done| |by eapply IH].
    apply elem_of_app. left. by eapply filterM_Ok_subset.
Qed.

(** X4.  Propagation is local.  What [flow] computes from [s] depends
    on the property cells and on the streams reachable from [s] along
    [next] edges only, and what [flowLazy] computes on those reachable
    along [next] and [lazyNext] edges: building, changing or clearing
    any other part of the graph does not change it. *)
Theorem propagation_is_local (d : nat) (w w' : world) (v : val) (s : nat) :
  cells w' = cells w →
  ((∀ x, reach_next w s x → nodes w' !! x = nodes w !! x) →
   flow d w' v s = flow d w v s) ∧
  ((∀ x, reach w s x → nodes w' !! x = nodes w !! x) →
   flowLazy d w' v s = flowLazy d w v s).
Proof.
  intros Hcells. split; [by apply flow_local|].
  revert v s. induction d as [|d IH]; intros v s Hsame; [done|].
  simpl. rewrite (flow_local d w w' v s Hcells); cycle 1.
  { intros x Hx. by apply Hsame, reach_next_reach. }
  destruct (flow d w v s) as [r|] eqn:Hflow; [|done]. cbn [mbind result_bind].
  destruct (FlowingState.waiting r) as [|p pending] eqn:Hp; [done|].
  rewrite <- Hp. unfold map_reduce.
  rewrite (mapM_result_ext_in
             (λ sv : nat * list val, flowLazy d w' (VArr sv.2) sv.1)
             (λ sv : nat * list val, flowLazy d w (VArr sv.2) sv.1)); [done|].
  intros [m vs] Hm. simpl. apply IH. intros x Hx. apply Hsame.
  apply reach_trans with m; [|done].
  rewrite group_tabulates in Hm.
  apply list_elem_of_In, in_map_iff in Hm as (m' & [= -> _] & Hm%list_elem_of_In).
  apply first_occurrences_elem, list_elem_of_fmap in Hm as ([m2 x2] & -> & Hin2).
  by eapply flow_waiting_reach.
Qed.

(** ** Every thunk is bound to the result of a functor on the way *)

Lemma visit_trans (w : world) (s c t : nat) (v r u : val) :
  visit w s v c r → visit w c r t u → visit w s v t u.
Proof.
  intros Hsc. induction 1 as [|t c' u r' n Hv IH Hn Hr Hc|t m u vs n Hv IH Hn Hm].
  - done.
  - by eapply visit_next.
  - by eapply visit_lazy.
Qed.

Lemma visited_with_trans (w : world) (s c : nat) (v r : val)
    (P : StreamState → val → Prop) :
  visit w s v c r → visited_with w c r P → visited_with w s v P.
Proof.
  intros Hsc (t & u & nt & x & Hv & Hn & Hx & HP).
  exists t, u, nt, x. split; [by eapply visit_trans|done].
Qed.

(** Nothing is in the empty FlowingState. *)
Ltac in_empty :=
  intros [= <-]; split_and!; intros;
  match goal with H : _ ∈ _ |- _ => by apply elem_of_nil in H end.

Lemma flow_sound (d : nat) (w : world) (v : val) (s : nat) (fs : FlowingState) :
  flow d w v s = Ok fs →
  (∀ th, th ∈ FlowingState.observers fs →
     visited_with w s v (λ nt x, ∃ f, f ∈ observers nt ∧ th = f x)) ∧
  (∀ c x, (c, x) ∈ FlowingState.updates fs →
     visited_with w s v (λ nt y, c ∈ updates nt ∧ x = y)) ∧
  (∀ m x, (m, x) ∈ FlowingState.waiting fs →
     visited_with w s v (λ nt y, m ∈ lazyNext nt ∧ x = y)).
Proof.
  revert v s fs. induction d as [|d IH]; intros v s fs; simpl; [done|].
  unfold get_node. destruct (nodes w !! s) as [n|] eqn:Hn; simpl;
    [|in_empty].
  destruct (functor n (cells w) v) as [r|] eqn:Hr; simpl;
    [|in_empty].
  destruct (filterM (accepts w r) (next n)) as [kept|] eqn:Hk; simpl;
    [|in_empty].
  destruct (map_reduce (flow d w r) kept (streamToFlowingState r n))
    as [fs'|] eqn:Hmr; simpl;
    [|in_empty].
  intros [= <-]. apply map_reduce_inv in Hmr as (states & HF & ->).
  destruct (foldl_concat_fields (streamToFlowingState r n) states)
    as (-> & -> & ->).
  assert (Hchild : ∀ st, st ∈ states →
            ∃ c, visit w s v c r ∧ flow d w r c = Ok st).
  { intros st Hst. destruct (Forall2_result_elem _ _ _ _ HF Hst) as (c & Hc & Hfc).
    exists c. split; [|done]. eapply visit_next; [constructor|done..|].
    by eapply filterM_Ok_subset. }
  split_and!.
  - intros th [Hown|Hin]%elem_of_app.
    + simpl in Hown. apply list_elem_of_In, in_map_iff in Hown
        as (f & <- & Hf%list_elem_of_In).
      exists s, v, n, r. split_and!; [constructor|done..|by exists f].
    + apply elem_of_concat_map in Hin as (st & Hst & Hth).
      destruct (Hchild _ Hst) as (c & Hvc & Hfc).
      destruct (IH _ _ _ Hfc) as (Hobs & _ & _).
      eapply visited_with_trans; [done|by apply Hobs].
  - intros c x [Hown|Hin]%elem_of_app.
    + simpl in Hown. apply list_elem_of_In, in_map_iff in Hown
        as (c' & [= -> ->] & Hc%list_elem_of_In).
      exists s, v, n, x. split_and!; [constructor|done..].
    + apply elem_of_concat_map in Hin as (st & Hst & Hth).
      destruct (Hchild _ Hst) as (c' & Hvc & Hfc).
      destruct (IH _ _ _ Hfc) as (_ & Hupd & _).
      eapply visited_with_trans; [done|by apply Hupd].
  - intros m x [Hown|Hin]%elem_of_app.
    + simpl in Hown. apply list_elem_of_In, in_map_iff in Hown
        as (m' & [= -> ->] & Hm%list_elem_of_In).
      exists s, v, n, x. split_and!; [constructor|done..].
    + apply elem_of_concat_map in Hin as (st & Hst & Hth).
      destruct (Hchild _ Hst) as (c' & Hvc & Hfc).
      destruct (IH _ _ _ Hfc) as (_ & _ & Hwait).
      eapply visited_with_trans; [done|by apply Hwait].
Qed.

Lemma flowLazy_sound (d : nat) (w : world) (v : val) (s : nat)
    (fs : FlowingState) :
  flowLazy d w v s = Ok fs →
  (∀ th, th ∈ FlowingState.observers fs →
     visited_with w s v (λ nt x, ∃ f, f ∈ observers nt ∧ th = f x)) ∧
  (∀ c x, (c, x) ∈ FlowingState.updates fs →
     visited_with w s v (λ nt y, c ∈ updates nt ∧ x = y)).
Proof.
  revert v s fs. induction d as [|d IH]; intros v s fs; simpl; [done|].
  destruct (flow d w v s) as [r|] eqn:Hflow; cbn [mbind result_bind]; [|done].
  destruct (flow_sound _ _ _ _ _ Hflow) as (Hobs & Hupd & Hwait).
  destruct (FlowingState.waiting r) as [|p pending] eqn:Hp.
  { intros [= <-]. done. }
  rewrite <- Hp in *. intros (states & HF & ->)%map_reduce_inv.
  destruct (foldl_concat_fields
              (FlowingState.mk [] (FlowingState.observers r) (FlowingState.updates r))
              states) as (_ & -> & ->).
  assert (Hround : ∀ st, st ∈ states →
            ∃ m vs, visit w s v m (VArr vs) ∧ flowLazy d w (VArr vs) m = Ok st).
  { intros st Hst.
    destruct (Forall2_result_elem _ _ _ _ HF Hst) as ([m vs] & Hm & Hfm).
    exists m, vs. split; [|done]. rewrite group_tabulates in Hm.
    apply list_elem_of_In, in_map_iff in Hm as (m' & [= -> _] & Hm%list_elem_of_In).
    apply first_occurrences_elem, list_elem_of_fmap in Hm as ([m2 x2] & -> & Hin2).
    destruct (Hwait _ _ Hin2) as (t & u & nt & x & Hv & Hn & _ & Hl & _).
    by eapply visit_lazy. }
  simpl. split.
  - intros th [Hown|Hin]%elem_of_app; [by apply Hobs|].
    apply elem_of_concat_map in Hin as (st & Hst & Hth).
    destruct (Hround _ Hst) as (m & vs & Hvm & Hfm).
    destruct (IH _ _ _ Hfm) as [Hobs' _].
    eapply visited_with_trans; [done|by apply Hobs'].
  - intros c x [Hown|Hin]%elem_of_app; [by apply Hupd|].
    apply elem_of_concat_map in Hin as (st & Hst & Hth).
    destruct (Hround _ Hst) as (m & vs & Hvm & Hfm).
    destruct (IH _ _ _ Hfm) as [_ Hupd'].
    eapply visited_with_trans; [done|by apply Hupd'].
Qed.

Lemma filterM_kept_true {A} (p : A → result bool) (l k : list A) (x : A) :
  filterM p l = Ok k → x ∈ k → p x = Ok true.
Proof.
  revert k. induction l as [|y l IH]; intros k; simpl.
  - by intros [= <-] ?%elem_of_nil.
  - destruct (p y) as [b|] eqn:Hy; [|done]. cbn [mbind result_bind].
    destruct (filterM p l) as [k'|]; [|done]. cbn [mbind result_bind].
    intros [= <-]. destruct b.
    + intros [->|Hin]%elem_of_cons; [done|by eapply IH].
    + by eapply IH.
Qed.

Lemma passes_trans (w : world) (t c c' : nat) (u x y : val) :
  passes w t u c x → passes w c x c' y → passes w t u c' y.
Proof.
  intros Htc. induction 1 as [|c1 c2 x1 r n Hp IH Hn Hr Hc Hacc]; [done|].
  by eapply passes_next.
Qed.

(** One call of [flow]: every thunk comes from a stream the value gets
    to along [next] edges. *)
Lemma flow_passes (d : nat) (w : world) (v : val) (s : nat) (fs : FlowingState) :
  flow d w v s = Ok fs →
  (∀ th, th ∈ FlowingState.observers fs →
     ∃ c x nc y f, passes w s v c x ∧ nodes w !! c = Some nc ∧
       functor nc (cells w) x = Ok y ∧ f ∈ observers nc ∧ th = f y) ∧
  (∀ p y, (p, y) ∈ FlowingState.updates fs →
     ∃ c x nc, passes w s v c x ∧ nodes w !! c = Some nc ∧
       functor nc (cells w) x = Ok y ∧ p ∈ updates nc).
Proof.
  revert v s fs. induction d as [|d IH]; intros v s fs; simpl; [done|].
  unfold get_node. destruct (nodes w !! s) as [n|] eqn:Hn; simpl;
    [|in_empty].
  destruct (functor n (cells w) v) as [r|] eqn:Hr; simpl;
    [|in_empty].
  destruct (filterM (accepts w r) (next n)) as [kept|] eqn:Hk; simpl;
    [|in_empty].
  destruct (map_reduce (flow d w r) kept (streamToFlowingState r n))
    as [fs'|] eqn:Hmr; simpl;
    [|in_empty].
  intros [= <-]. apply map_reduce_inv in Hmr as (states & HF & ->).
  destruct (foldl_concat_fields (streamToFlowingState r n) states)
    as (_ & -> & ->).
  assert (Hchild : ∀ st, st ∈ states →
            ∃ c, passes w s v c r ∧ flow d w r c = Ok st).
  { intros st Hst. destruct (Forall2_result_elem _ _ _ _ HF Hst) as (c & Hc & Hfc).
    exists c. split; [|done].
    eapply passes_next; [constructor|done..| |].
    - by eapply filterM_Ok_subset.
    - by eapply filterM_kept_true. }
  split.
  - intros th [Hown|Hin]%elem_of_app.
    + simpl in Hown. apply list_elem_of_In, in_map_iff in Hown
        as (f & <- & Hf%list_elem_of_In).
      exists s, v, n, r, f. split_and!; [constructor|done..].
    + apply elem_of_concat_map in Hin as (st & Hst & Hth).
      destruct (Hchild _ Hst) as (c & Hpc & Hfc).
      destruct (IH _ _ _ Hfc) as (Hobs & _).
      destruct (Hobs _ Hth) as (c' & x & nc & y & f & Hp' & ?).
      exists c', x, nc, y, f. split; [by eapply passes_trans|done].
  - intros p y [Hown|Hin]%elem_of_app.
    + simpl in Hown. apply list_elem_of_In, in_map_iff in Hown
        as (p' & [= -> ->] & Hp%list_elem_of_In).
      exists s, v, n. split_and!; [constructor|done..].
    + apply elem_of_concat_map in Hin as (st & Hst & Hth).
      destruct (Hchild _ Hst) as (c & Hpc & Hfc).
      destruct (IH _ _ _ Hfc) as (_ & Hupd).
      destruct (Hupd _ _ Hth) as (c' & x & nc & Hp' & ?).
      exists c', x, nc. split; [by eapply passes_trans|done].
Qed.

Lemma round_trans (w : world) (d d1 d2 s s1 s2 : nat) (v v1 v2 : val) :
  round w d s v d1 s1 v1 → round w d1 s1 v1 d2 s2 v2 → round w d s v d2 s2 v2.
Proof.
  intros H1. induction 1 as [|d' t m u r Hr IH Hflow Hm]; [done|].
  by eapply round_merge.
Qed.

Lemma scheduled_by_round (w : world) (d d1 s s1 : nat) (v v1 : val)
    (P : StreamState → val → Prop) :
  round w d s v d1 s1 v1 → scheduled_by w d1 s1 v1 P → scheduled_by w d s v P.
Proof.
  intros H1 (d' & t & u & c & x & nc & y & Hr & ?).
  exists d', t, u, c, x, nc, y. split; [by eapply round_trans|done].
Qed.

Lemma flowLazy_scheduled (d : nat) (w : world) (v : val) (s : nat)
    (fs : FlowingState) :
  flowLazy d w v s = Ok fs →
  (∀ th, th ∈ FlowingState.observers fs →
     scheduled_by w d s v (λ nc y, ∃ f, f ∈ observers nc ∧ th = f y)) ∧
  (∀ p y, (p, y) ∈ FlowingState.updates fs →
     scheduled_by w d s v (λ nc y', p ∈ updates nc ∧ y = y')).
Proof.
  revert v s fs. induction d as [|d IH]; intros v s fs; simpl; [done|].
  destruct (flow d w v s) as [r|] eqn:Hflow; cbn [mbind result_bind]; [|done].
  destruct (flow_passes _ _ _ _ _ Hflow) as (Hobs & Hupd).
  assert (Hobs1 : ∀ th, th ∈ FlowingState.observers r →
            scheduled_by w (S d) s v (λ nc y, ∃ f, f ∈ observers nc ∧ th = f y)).
  { intros th Hth. destruct (Hobs _ Hth) as (c & x & nc & y & f & Hp & Hn & Hy & Hf).
    exists (S d), s, v, c, x, nc, y. split_and!; [constructor|done..|by exists f]. }
  assert (Hupd1 : ∀ p y, (p, y) ∈ FlowingState.updates r →
            scheduled_by w (S d) s v (λ nc y', p ∈ updates nc ∧ y = y')).
  { intros p y Hpy. destruct (Hupd _ _ Hpy) as (c & x & nc & Hp & Hn & Hy & Hf).
    exists (S d), s, v, c, x, nc, y. split_and!; [constructor|done..]. }
  destruct (FlowingState.waiting r) as [|p0 pending] eqn:Hp.
  { intros [= <-]. done. }
  rewrite <- Hp in *. intros (states & HF & ->)%map_reduce_inv.
  destruct (foldl_concat_fields
              (FlowingState.mk [] (FlowingState.observers r) (FlowingState.updates r))
              states) as (_ & -> & ->).
  assert (Hround : ∀ st, st ∈ states →
            ∃ m vs, round w (S d) s v d m (VArr vs) ∧
                    flowLazy d w (VArr vs) m = Ok st).
  { intros st Hst.
    destruct (Forall2_result_elem _ _ _ _ HF Hst) as ([m vs] & Hm & Hfm).
    exists m, vs. split; [|done]. rewrite group_tabulates in Hm.
    apply list_elem_of_In, in_map_iff in Hm as (m' & [= -> <-] & Hm%list_elem_of_In).
    apply (round_merge w (S d) s v d s m v r); [constructor|exact Hflow|].
    by apply first_occurrences_elem. }
  simpl. split.
  - intros th [Hown|Hin]%elem_of_app; [by apply Hobs1|].
    apply elem_of_concat_map in Hin as (st & Hst & Hth).
    destruct (Hround _ Hst) as (m & vs & Hrm & Hfm).
    destruct (IH _ _ _ Hfm) as [Hobs' _].
    eapply scheduled_by_round; [done|by apply Hobs'].
  - intros p y [Hown|Hin]%elem_of_app; [by apply Hupd1|].
    apply elem_of_concat_map in Hin as (st & Hst & Hth).
    destruct (Hround _ Hst) as (m & vs & Hrm & Hfm).
    destruct (IH _ _ _ Hfm) as [_ Hupd'].
    eapply scheduled_by_round; [done|by apply Hupd'].
Qed.

(** X5.  Every thunk in the FlowingState of an injection is bound to
    the result of a functor on the way.  The injection proceeds in
    rounds: the first from the stream injected into, on the injected
    value; then, for each merge node a round left values pending for,
    one from that node on the array of exactly these values, in arrival
    order.  Within a round a child that accepts the result of the
    functor of its parent receives that result.  An observer thunk is an
    observer of a stream that some round gets to, applied to the result
    of the functor of that stream on the value it receives there, and an
    update thunk assigns such a result to a cell that the stream has
    among its update sinks.  Nothing else is ever scheduled. *)
Theorem flowLazy_thunks_sound (d : nat) (w : world) (v : val) (s : nat)
    (fs : FlowingState) :
  flowLazy d w v s = Ok fs →
  (∀ th, th ∈ FlowingState.observers fs →
     scheduled_by w d s v (λ nc y, ∃ f, f ∈ observers nc ∧ th = f y)) ∧
  (∀ p y, (p, y) ∈ FlowingState.updates fs →
     scheduled_by w d s v (λ nc y', p ∈ updates nc ∧ y = y')).
Proof. apply flowLazy_scheduled. Qed.

(** ** A derived stream and what it delivers *)

Lemma filterM_app {A} (p : A → result bool) (l1 l2 : list A) :
  filterM p (l1 ++ l2) = (k1 ← filterM p l1; k2 ← filterM p l2; Ok (k1 ++ k2)).
Proof.
  induction l1 as [|x l1 IH]; simpl.
  - by destruct (filterM p l2).
  - destruct (p x) as [b|]; cbn [mbind result_bind]; [|done]. rewrite IH.
    destruct (filterM p l1); cbn [mbind result_bind]; [|done].
    destruct (filterM p l2); cbn [mbind result_bind]; [|done]. by destruct b.
Qed.

Lemma reach_next_lt (w : world) (c x : nat) :
  closed w → c < length (nodes w) → reach_next w c x → x < length (nodes w).
Proof.
  intros Hclosed Hc. induction 1 as [s|s c x n Hn Hin _ IH]; [done|].
  apply IH. by eapply Hclosed.
Qed.

(** The world after a leaf [t] was added as the last child of [s]. *)
Lemma flow_with_new_child (d : nat) (w w2 : world) (v r : val) (s t : nat)
    (n nt : StreamState) (kept : list nat) :
  closed w →
  nodes w !! s = Some n →
  (∀ c, c ∈ next n → ¬ reach_next w c s) →
  functor n (cells w) v = Ok r →
  filterM (accepts w r) (next n) = Ok kept →
  cells w2 = cells w →
  nodes w2 !! s = Some (set_next (next n ++ [t]) n) →
  nodes w2 !! t = Some nt →
  (∀ x, x ≠ s → x < length (nodes w) → nodes w2 !! x = nodes w !! x) →
  ∃ fs st,
    flow (S (S d)) w v s = Ok fs ∧
    flow (S d) w2 r t = Ok st ∧
    flow (S (S d)) w2 v s =
      match accepts w2 r t with
      | Ok true => Ok (concatFlowingState fs st)
      | Ok false => Ok fs
      | Err _ => Ok emptyFlowingState
      end.
Proof.
  intros Hclosed Hn Hacyc Hr Hk Hcells Hs2 Ht2 Hothers.
  destruct (mapM_flow_succ d w r kept) as [states Hm].
  destruct (flow_succ_ok d w2 r t) as [st Hst].
  exists (foldl concatFlowingState (streamToFlowingState r n) states), st.
  split_and!; [|done|].
  { change (flow (S (S d)) w v s) with
      (try_catch
         (n ← get_node w s;
          r ← functor n (cells w) v;
          kept ← filterM (accepts w r) (next n);
          map_reduce (flow (S d) w r) kept (streamToFlowingState r n))
         (λ _, Ok emptyFlowingState)).
    unfold get_node. rewrite Hn. cbn [mbind result_bind].
    rewrite Hr. cbn [mbind result_bind]. rewrite Hk. cbn [mbind result_bind].
    unfold map_reduce. by rewrite Hm. }
  change (flow (S (S d)) w2 v s) with
    (try_catch
       (n ← get_node w2 s;
        r ← functor n (cells w2) v;
        kept ← filterM (accepts w2 r) (next n);
        map_reduce (flow (S d) w2 r) kept (streamToFlowingState r n))
       (λ _, Ok emptyFlowingState)).
  unfold get_node. rewrite Hs2. cbn [mbind result_bind].
  rewrite Hcells. cbn [functor set_next]. rewrite Hr. cbn [mbind result_bind].
  cbn [next set_next]. rewrite filterM_app.
  assert (Hlt : ∀ c, c ∈ next n → c < length (nodes w))
    by (intros c Hc; by eapply Hclosed).
  rewrite (filterM_ext_in (accepts w2 r) (accepts w r) (next n)); cycle 1.
  { intros c Hc. unfold accepts, get_node. rewrite Hcells.
    destruct (decide (c = s)) as [->|Hne].
    - rewrite Hs2, Hn. reflexivity.
    - by rewrite Hothers by auto. }
  rewrite Hk. cbn [mbind result_bind]. cbn [filterM].
  change (streamToFlowingState r (set_next (next n ++ [t]) n))
    with (streamToFlowingState r n).
  destruct (accepts w2 r t) as [[]|]; cbn [mbind result_bind]; [| |reflexivity].
  - unfold map_reduce. rewrite mapM_result_app.
    rewrite (mapM_result_ext_in (flow (S d) w2 r) (flow (S d) w r) kept); cycle 1.
    { intros c Hc. apply flow_local; [done|]. intros x Hx.
      assert (c ∈ next n) as Hcn by (by apply (filterM_Ok_subset _ _ _ _ Hk)).
      apply Hothers; [intros ->; by eapply Hacyc|].
      eapply reach_next_lt; [done| |done]. by apply Hlt. }
    rewrite Hm. cbn [mbind result_bind].
    change (mapM (flow (S d) w2 r) [t]) with
      (y ← flow (S d) w2 r t; k ← mret []; mret (y :: k)).
    rewrite Hst. cbn [mbind result_bind mret result_ret try_catch].
    by rewrite foldl_app.
  - rewrite app_nil_r. unfold map_reduce.
    rewrite (mapM_result_ext_in (flow (S d) w2 r) (flow (S d) w r) kept); cycle 1.
    { intros c Hc. apply flow_local; [done|]. intros x Hx.
      assert (c ∈ next n) as Hcn by (by apply (filterM_Ok_subset _ _ _ _ Hk)).
      apply Hothers; [intros ->; by eapply Hacyc|].
      eapply reach_next_lt; [done| |done]. by apply Hlt. }
    by rewrite Hm.
Qed.

Lemma set_add_fresh (x : nat) (l : list nat) : x ∉ l → set_add x l = l ++ [x].
Proof. intros Hx. unfold set_add. by rewrite decide_False. Qed.

(** What [pipe] does to the graph. *)
Lemma pipe_shape (s t : nat) (f : list val → val → result val) (w w1 : world)
    (n : StreamState) :
  closed w →
  nodes w !! s = Some n →
  pipe s f w = Return t w1 →
  t = length (nodes w) ∧ cells w1 = cells w ∧
  observerPhase w1 = observerPhase w ∧ observed w1 = observed w ∧
  length (nodes w1) = S (length (nodes w)) ∧
  nodes w1 !! s = Some (set_next (next n ++ [t]) n) ∧
  nodes w1 !! t = Some (mkStream f None [] [] [] []) ∧
  (∀ x, x ≠ s → x ≠ t → nodes w1 !! x = nodes w !! x).
Proof.
  intros Hclosed Hn. unfold pipe, stream, update_node, with_node.
  cbn [nodes set_nodes].
  assert (Hlt : s < length (nodes w)) by (by eapply lookup_lt_Some).
  rewrite lookup_app_l, Hn by done. intros [= <- <-].
  assert (Hfresh : length (nodes w) ∉ next n).
  { intros Hin. pose proof (Hclosed _ _ _ Hn Hin). lia. }
  cbn [next set_next]. rewrite set_add_fresh by done. simpl.
  split_and!; try done.
  - by rewrite length_insert, length_app, Nat.add_comm.
  - rewrite list_lookup_insert_eq; [done|]. rewrite length_app. lia.
  - rewrite list_lookup_insert_ne by lia.
    by rewrite lookup_app_r, Nat.sub_diag by lia.
  - intros x Hxs Hxt. rewrite list_lookup_insert_ne by done.
    destruct (decide (x < length (nodes w))).
    + by rewrite lookup_app_l.
    + rewrite !lookup_ge_None_2; [done|lia|]. rewrite length_app. simpl. lia.
Qed.

(** What [listen] does to the graph. *)
Lemma listen_shape (t : nat) (f : val → prog) (w w' : world) :
  listen t f w = Return tt w' →
  ∃ nt, nodes w !! t = Some nt ∧
    nodes w' !! t = Some (set_observers (observers nt ++ [f]) nt) ∧
    (∀ x, x ≠ t → nodes w' !! x = nodes w !! x) ∧
    length (nodes w') = length (nodes w) ∧
    cells w' = cells w ∧ observerPhase w' = observerPhase w ∧
    observed w' = observed w.
Proof.
  unfold listen, update_node, with_node.
  destruct (nodes w !! t) as [nt|] eqn:Hnt; [|done]. intros [= <-].
  exists nt. simpl. split_and!; try done.
  - rewrite list_lookup_insert_eq; [done|]. by eapply lookup_lt_Some.
  - intros x Hx. by rewrite list_lookup_insert_ne.
  - by rewrite length_insert.
Qed.

(** [pipe] and [listen] on the derived stream, for any functor. *)
Lemma flow_after_pipe_listen (d : nat) (w w1 w2 : world) (v r : val) (s t : nat)
    (n : StreamState) (kept : list nat) (f : list val → val → result val)
    (obs : val → prog) :
  closed w →
  nodes w !! s = Some n →
  (∀ c, c ∈ next n → ¬ reach_next w c s) →
  functor n (cells w) v = Ok r →
  filterM (accepts w r) (next n) = Ok kept →
  pipe s f w = Return t w1 →
  listen t obs w1 = Return tt w2 →
  ∃ fs,
    flow (S (S d)) w v s = Ok fs ∧
    flow (S (S d)) w2 v s =
      Ok (concatFlowingState fs
            match f (cells w) r with
            | Ok y => FlowingState.mk [] [obs y] []
            | Err _ => emptyFlowingState
            end).
Proof.
  intros Hclosed Hn Hacyc Hr Hk Hpipe Hlisten.
  destruct (pipe_shape _ _ _ _ _ _ Hclosed Hn Hpipe)
    as (-> & Hc1 & _ & _ & Hlen & Hs1 & Ht1 & Ho1).
  destruct (listen_shape _ _ _ _ Hlisten)
    as (nt & Hnt & Ht2 & Ho2 & _ & Hc2 & _ & _).
  rewrite Ht1 in Hnt. injection Hnt as <-.
  assert (Hne : s ≠ length (nodes w)).
  { apply lookup_lt_Some in Hn. lia. }
  edestruct (flow_with_new_child d w w2 v r s (length (nodes w)) n)
    as (fs & st & Hfs & Hst & Hflow); [done..| | |exact Ht2| |].
  { congruence. }
  { by rewrite Ho2, Hs1. }
  { intros x Hxs Hxl. rewrite Ho2, Ho1 by lia. done. }
  exists fs. split; [done|]. rewrite Hflow.
  unfold accepts, get_node. rewrite Ht2. cbn [mbind result_bind sfilter set_observers].
  f_equal. f_equal.
  simpl in Hst. unfold get_node in Hst. rewrite Ht2 in Hst.
  cbn [mbind result_bind functor set_observers] in Hst.
  rewrite Hc2, Hc1 in Hst.
  destruct (f (cells w) r) as [y|]; simpl in Hst; by injection Hst as <-.
Qed.

(** X6.  [pipe(s)(f)] followed by [listen] on the derived stream, on a
    graph without dangling edges in which [s] is not below one of its
    own children: for every value that [s] passes on as [r], [flow] from
    [s] gives what it gave before, followed by the new observer bound to
    [f(r)]; when [f] throws on [r] it gives what it gave before. *)
Theorem pipe_delivers (d : nat) (w w1 w2 : world) (v r : val) (s t : nat)
    (n : StreamState) (kept : list nat) (f : list val → val → result val)
    (obs : val → prog) :
  closed w →
  nodes w !! s = Some n →
  (∀ c, c ∈ next n → ¬ reach_next w c s) →
  functor n (cells w) v = Ok r →
  filterM (accepts w r) (next n) = Ok kept →
  pipe s f w = Return t w1 →
  listen t obs w1 = Return tt w2 →
  ∃ fs,
    flow (S (S d)) w v s = Ok fs ∧
    flow (S (S d)) w2 v s =
      Ok (concatFlowingState fs
            match f (cells w) r with
            | Ok y => FlowingState.mk [] [obs y] []
            | Err _ => emptyFlowingState
            end).
Proof. apply flow_after_pipe_listen. Qed.

(** X7.  [snapshot(s)(c)] followed by [listen] on the sampling stream,
    on a graph as for [pipe]: for every value that [s] passes on, [flow]
    from [s] gives what it gave before, followed by the new observer
    bound to what the property reads at that moment, whatever the value
    is.  For a property made by [hold] this is the content of its cell
    before the injection, also when the same injection assigns it. *)
Theorem snapshot_samples (d : nat) (w w1 w2 : world) (v r : val) (s t : nat)
    (n : StreamState) (kept : list nat) (c : Property) (obs : val → prog) :
  closed w →
  nodes w !! s = Some n →
  (∀ x, x ∈ next n → ¬ reach_next w x s) →
  functor n (cells w) v = Ok r →
  filterM (accepts w r) (next n) = Ok kept →
  snapshot s c w = Return t w1 →
  listen t obs w1 = Return tt w2 →
  ∃ fs,
    flow (S (S d)) w v s = Ok fs ∧
    flow (S (S d)) w2 v s =
      Ok (concatFlowingState fs
            match c (cells w) with
            | Ok y => FlowingState.mk [] [obs y] []
            | Err _ => emptyFlowingState
            end) ∧
    (∀ cp, c = held cp →
       flow (S (S d)) w2 v s =
         Ok (concatFlowingState fs (FlowingState.mk [] [obs (reader cp w)] []))).
Proof.
  intros Hclosed Hn Hacyc Hr Hk Hsnap Hlisten.
  destruct (flow_after_pipe_listen d w w1 w2 v r s t n kept (λ σ _, c σ) obs)
    as (fs & Hfs & Hflow); try done.
  exists fs. split_and!; [done..|]. by intros cp ->.
Qed.

(** What [filter] does to the graph. *)
Lemma filter_stream_shape (s t : nat) (p : list val → val → result bool)
    (w w1 : world) (n : StreamState) :
  closed w →
  nodes w !! s = Some n →
  filter_stream s p w = Return t w1 →
  t = length (nodes w) ∧ cells w1 = cells w ∧
  nodes w1 !! s = Some (set_next (next n ++ [t]) n) ∧
  nodes w1 !! t = Some (mkStream parrot (Some p) [] [] [] []) ∧
  (∀ x, x ≠ s → x ≠ t → nodes w1 !! x = nodes w !! x).
Proof.
  intros Hclosed Hn. unfold filter_stream.
  destruct (pipe s parrot w) as [t' wp|] eqn:Hpipe; [|done].
  destruct (pipe_shape _ _ _ _ _ _ Hclosed Hn Hpipe)
    as (-> & Hc & _ & _ & Hlen & Hs & Ht & Ho).
  unfold update_node, with_node. rewrite Ht. intros [= <- <-]. simpl.
  assert (s ≠ length (nodes w)) by (apply lookup_lt_Some in Hn; lia).
  split_and!; try done.
  - by rewrite list_lookup_insert_ne.
  - rewrite list_lookup_insert_eq; [done|]. lia.
  - intros x Hxs Hxt. rewrite list_lookup_insert_ne by done. by apply Ho.
Qed.

(** X8.  [filter(s)(p)] followed by [listen] on the filtered stream, on
    a graph as for [pipe]: for every value that [s] passes on as [r],
    [flow] from [s] gives what it gave before, followed by the new
    observer bound to [r] itself, when [p(r)] is true; exactly what it
    gave before, siblings included, when [p(r)] is false; and nothing at
    all when [p] throws on [r]. *)
Theorem filter_passes_iff (d : nat) (w w1 w2 : world) (v r : val) (s t : nat)
    (n : StreamState) (kept : list nat) (p : list val → val → result bool)
    (obs : val → prog) :
  closed w →
  nodes w !! s = Some n →
  (∀ c, c ∈ next n → ¬ reach_next w c s) →
  functor n (cells w) v = Ok r →
  filterM (accepts w r) (next n) = Ok kept →
  filter_stream s p w = Return t w1 →
  listen t obs w1 = Return tt w2 →
  ∃ fs,
    flow (S (S d)) w v s = Ok fs ∧
    flow (S (S d)) w2 v s =
      match p (cells w) r with
      | Ok true => Ok (concatFlowingState fs (FlowingState.mk [] [obs r] []))
      | Ok false => Ok fs
      | Err _ => Ok emptyFlowingState
      end.
Proof.
  intros Hclosed Hn Hacyc Hr Hk Hfilter Hlisten.
  destruct (filter_stream_shape _ _ _ _ _ _ Hclosed Hn Hfilter)
    as (-> & Hc1 & Hs1 & Ht1 & Ho1).
  destruct (listen_shape _ _ _ _ Hlisten)
    as (nt & Hnt & Ht2 & Ho2 & _ & Hc2 & _ & _).
  rewrite Ht1 in Hnt. injection Hnt as <-.
  assert (Hne : s ≠ length (nodes w)).
  { apply lookup_lt_Some in Hn. lia. }
  edestruct (flow_with_new_child d w w2 v r s (length (nodes w)) n)
    as (fs & st & Hfs & Hst & Hflow); [done..| | |exact Ht2| |].
  { congruence. }
  { by rewrite Ho2, Hs1. }
  { intros x Hxs Hxl. rewrite Ho2, Ho1 by lia. done. }
  exists fs. split; [done|]. rewrite Hflow.
  unfold accepts, get_node. rewrite Ht2.
  cbn [mbind result_bind sfilter set_observers]. rewrite Hc2, Hc1.
  destruct (p (cells w) r) as [[]|]; [|done..].
  f_equal. f_equal.
  simpl in Hst. unfold get_node in Hst. rewrite Ht2 in Hst.
  simpl in Hst. by injection Hst as <-.
Qed.

(** ** Accumulation *)

Lemma well_formed_closed (w : world) : well_formed w → closed w.
Proof.
  intros Hwf t nt x Ht Hx. destruct (Hwf t nt Ht) as (Hedges & _).
  apply Hedges, elem_of_app. by left.
Qed.

Lemma visit_source (w : world) (s : nat) (v u : val) :
  ¬ fed w s → visit w s v s u → u = v.
Proof.
  intros Hsrc Hv. inversion Hv as [|t c u' r n _ Hn _ Hc|t m u' vs n _ Hn Hm];
    subst; [done| |]; destruct Hsrc; exists t, n; eauto.
Qed.

Lemma flowLazy_updates_extend (d : nat) (w : world) (v : val) (s : nat)
    (state : FlowingState) :
  flowLazy (S d) w v s = Ok state →
  ∃ r rest, flow d w v s = Ok r ∧
            FlowingState.updates state = FlowingState.updates r ++ rest.
Proof.
  simpl. destruct (flow d w v s) as [r|]; cbn [mbind result_bind]; [|done].
  destruct (FlowingState.waiting r).
  - intros [= <-]. exists r, []. by rewrite app_nil_r.
  - intros Hmr. destruct (map_reduce_updates _ _ _ _ Hmr) as (rest & -> & _).
    by exists r, rest.
Qed.

Lemma filterM_keeps {A} (p : A → result bool) (l k : list A) (x : A) :
  filterM p l = Ok k → x ∈ l → p x = Ok true → x ∈ k.
Proof.
  revert k. induction l as [|y l IH]; intros k; simpl.
  - by intros _ ?%elem_of_nil.
  - destruct (p y) as [b|] eqn:Hy; [|done]. cbn [mbind result_bind].
    destruct (filterM p l) as [k'|]; [|done]. cbn [mbind result_bind].
    intros [= <-] [->|Hin]%elem_of_cons Hx.
    + rewrite Hx in Hy. injection Hy as <-. apply list_elem_of_here.
    + destruct b; [apply list_elem_of_further|]; by apply IH.
Qed.

Lemma accum_makes_accumulator (s c : nat) (f : val → val → result val)
    (seed : val) (w0 w : world) (n : StreamState) :
  well_formed w0 →
  nodes w0 !! s = Some n →
  accum s f seed w0 = Return c w →
  c = length (cells w0) ∧ reader c w = seed ∧
  accumulator w s (length (nodes w0)) c f.
Proof.
  intros Hwf Hn. unfold accum.
  destruct (pipe s _ w0) as [t w1|] eqn:Hpipe; [|done]. intros Hhold.
  destruct (pipe_shape _ _ _ _ _ _ (well_formed_closed _ Hwf) Hn Hpipe)
    as (-> & Hc1 & _ & _ & Hlen & Hs1 & Ht1 & Ho1).
  pose proof (hold_reader_init _ _ _ _ _ Hhold) as Hread.
  unfold hold, update_node, with_node in Hhold. cbn [nodes set_cells] in Hhold.
  rewrite Ht1, Hc1 in Hhold. injection Hhold as <- <-.
  assert (Hne : s ≠ length (nodes w0)) by (apply lookup_lt_Some in Hn; lia).
  split; [done|]. split; [done|]. unfold accumulator. simpl.
  assert (Hlook : ∀ p np,
            <[length (nodes w0) :=
                set_updates ([] ++ [length (cells w0)])
                  (mkStream (accum_functor f (length (cells w0))) None [] [] [] [])]>
              (nodes w1) !! p = Some np →
            p = length (nodes w0) ∧
              np = mkStream (accum_functor f (length (cells w0))) None [] []
                     [length (cells w0)] []
            ∨ p = s ∧ np = set_next (next n ++ [length (nodes w0)]) n
            ∨ p ≠ s ∧ p ≠ length (nodes w0) ∧ nodes w0 !! p = Some np).
  { intros p np Hp. destruct (decide (p = length (nodes w0))) as [->|Hpt].
    - rewrite list_lookup_insert_eq in Hp by lia. injection Hp as <-. by left.
    - rewrite list_lookup_insert_ne in Hp by done. right.
      destruct (decide (p = s)) as [->|Hps].
      + rewrite Hs1 in Hp. injection Hp as <-. by left.
      + right. by rewrite Ho1 in Hp. }
  split_and!.
  - rewrite length_app. simpl. lia.
  - eexists. rewrite list_lookup_insert_ne, Hs1 by done. split; [done|].
    simpl. apply elem_of_app. right. apply list_elem_of_here.
  - by rewrite list_lookup_insert_eq by lia.
  - intros p np [[-> ->]|[[-> ->]|(Hps & Hpt & Hp)]]%Hlook; simpl.
    + split; [by intros ?%elem_of_nil|by intros ?%elem_of_nil].
    + split; [done|]. intros Hin.
      destruct (Hwf _ _ Hn) as (Hedges & _).
      pose proof (Hedges (length (nodes w0))) as Hlt.
      rewrite elem_of_app in Hlt. specialize (Hlt (or_intror Hin)). lia.
    + destruct (Hwf _ _ Hp) as (Hedges & _).
      pose proof (Hedges (length (nodes w0))) as Hlt.
      rewrite elem_of_app in Hlt.
      split; intros Hin; [specialize (Hlt (or_introl Hin))
                         |specialize (Hlt (or_intror Hin))]; lia.
  - intros p np [[-> ->]|[[-> ->]|(Hps & Hpt & Hp)]]%Hlook Hin; simpl in *;
      [done| |].
    + destruct (Hwf _ _ Hn) as (_ & _ & _ & Hupd). specialize (Hupd _ Hin). lia.
    + destruct (Hwf _ _ Hp) as (_ & _ & _ & Hupd). specialize (Hupd _ Hin). lia.
Qed.

Lemma Forall2_result_elem_l {A B} (f : A → result B) (l : list A) (k : list B)
    (x : A) :
  Forall2 (λ x y, f x = Ok y) l k → x ∈ l → ∃ y, y ∈ k ∧ f x = Ok y.
Proof.
  intros HF Hx. apply list_elem_of_lookup in Hx as [i Hi].
  destruct (Forall2_lookup_l _ _ _ _ _ HF Hi) as (y & Hy & Hfx).
  exists y. split; [by eapply list_elem_of_lookup_2|done].
Qed.

(** X9.  [accum(s)(f, seed)] on a well-formed graph gives a property
    that reads [seed].  Whenever a value is then injected into [s], with
    [s] a source stream that passes it on as [r] to its children, and
    every observer thunk of the call completes, the property reads
    [f(r, old)] after the call, [old] being what it read before: it
    goes [seed], [f(r1, seed)], [f(r2, f(r1, seed))] and so on. *)
Theorem accum_progresses :
  (∀ s c f seed w0 w n,
     well_formed w0 →
     nodes w0 !! s = Some n →
     accum s f seed w0 = Return c w →
     reader c w = seed ∧ ∃ t, accumulator w s t c f) ∧
  (∀ d s t c f v r y w w1 state ns kept,
     observerPhase w = false →
     accumulator w s t c f →
     ¬ fed w s →
     nodes w !! s = Some ns →
     functor ns (cells w) v = Ok r →
     filterM (accepts w r) (next ns) = Ok kept →
     f r (reader c w) = Ok y →
     flowLazy (S (S (S d))) w v s = Ok state →
     run_observers (drip (S (S (S d)))) (FlowingState.observers state)
       (set_observerPhase true w) = Return tt w1 →
     reader c (final (drip (S (S (S (S d)))) s v w)) = y).
Proof.
  split.
  { intros s c f seed w0 w n Hwf Hn Hacc.
    destruct (accum_makes_accumulator _ _ _ _ _ _ _ Hwf Hn Hacc) as (_ & ? & ?).
    eauto. }
  intros d s t c f v r y w w1 state ns kept Hw
    (Hc & (ns' & Hns' & Htn) & Hnt & Hpar & Honly) Hsrc Hns Hr Hk Hy Hflow Hrun.
  rewrite Hns in Hns'. injection Hns' as <-.
  assert (Hdrip : drip (S (S (S (S d)))) s v w =
            Return state (run_updates (FlowingState.updates state)
                            (set_observerPhase false w1))).
  { change (drip (S (S (S (S d)))) s v w) with
      (if observerPhase w then Raise reentrancy_error w
       else match flowLazy (S (S (S d))) w v s with
            | Err _ => Return emptyFlowingState (set_observerPhase false w)
            | Ok state =>
                match run_observers (drip (S (S (S d)))) (FlowingState.observers state)
                        (set_observerPhase true w) with
                | Raise _ w1 => Return emptyFlowingState (set_observerPhase false w1)
                | Return _ w1 =>
                    Return state
                      (run_updates (FlowingState.updates state)
                         (set_observerPhase false w1))
                end
            end).
    by rewrite Hw, Hflow, Hrun. }
  rewrite Hdrip. cbn [final].
  pose proof (run_observers_in_observer_phase (S (S (S d)))
                (FlowingState.observers state) (set_observerPhase true w) eq_refl)
    as [_ Hcells].
  rewrite Hrun in Hcells. simpl in Hcells.
  rewrite run_updates_reader with (r := y); [|simpl; by rewrite Hcells|].
  - rewrite decide_True; [done|].
    destruct (flowLazy_updates_extend _ _ _ _ _ Hflow) as (r0 & rest & Hr0 & ->).
    destruct (flow_own_then_children d w v r s ns kept Hns Hr Hk)
      as (states & HF & Hflow0).
    rewrite Hflow0 in Hr0. injection Hr0 as <-. cbn [FlowingState.updates].
    assert (Hkept : t ∈ kept).
    { eapply filterM_keeps; [done..|]. unfold accepts, get_node. by rewrite Hnt. }
    destruct (Forall2_result_elem_l _ _ _ _ HF Hkept) as (st & Hst & Hflowt).
    simpl in Hflowt. unfold get_node in Hflowt. rewrite Hnt in Hflowt.
    cbn [mbind result_bind functor] in Hflowt. unfold accum_functor in Hflowt.
    unfold reader in Hy. rewrite Hy in Hflowt. simpl in Hflowt.
    injection Hflowt as <-.
    rewrite !fmap_app, !elem_of_app. left. right.
    apply list_elem_of_fmap. exists (c, y). split; [done|].
    apply list_elem_of_In, in_concat. eexists. split.
    + apply in_map_iff. eexists. split; [done|]. by apply list_elem_of_In.
    + simpl. by left.
  - intros x Hx.
    destruct (flowLazy_sound _ _ _ _ _ Hflow) as [_ Hupd].
    destruct (Hupd _ _ Hx) as (t' & u & nt' & x' & Hv & Hnt' & Hfun & Hcin & ->).
    pose proof (Honly _ _ Hnt' Hcin) as ->.
    rewrite Hnt in Hnt'. injection Hnt' as <-.
    assert (u = r) as ->.
    { inversion Hv as [|p c' u' r' np Hvp Hnp Hfp Hcp|p m u' vs np Hvp Hnp Hmp];
        subst.
      - rewrite Hns in Hnt. injection Hnt as ->. by apply elem_of_nil in Htn.
      - destruct (Hpar _ _ Hnp) as [Hp _]. specialize (Hp Hcp). subst p.
        rewrite Hns in Hnp. injection Hnp as <-.
        apply visit_source in Hvp as ->; [|done]. congruence.
      - destruct (Hpar _ _ Hnp) as [_ Hl]. done. }
    cbn [functor] in Hfun. unfold accum_functor in Hfun.
    unfold reader in Hy. congruence.
Qed.

(** ** Merging *)

Lemma flowLazy_observers_extend (d : nat) (w : world) (v : val) (s : nat)
    (state : FlowingState) :
  flowLazy (S d) w v s = Ok state →
  ∃ r rest, flow d w v s = Ok r ∧
    FlowingState.observers state = FlowingState.observers r ++ rest.
Proof.
  simpl. destruct (flow d w v s) as [r|]; cbn [mbind result_bind]; [|done].
  destruct (FlowingState.waiting r).
  - intros [= <-]. exists r, []. by rewrite app_nil_r.
  - intros (states & _ & ->)%map_reduce_inv.
    destruct (foldl_concat_fields
                (FlowingState.mk [] (FlowingState.observers r)
                   (FlowingState.updates r)) states) as (_ & -> & _).
    by eexists r, _.
Qed.

(** X10.  When the round of [flow] from [s] leaves the values
    [x, x1, .., xk], in this order, pending for a node [m] made by
    [merge(..)(combine)], [combine] returns on them, no filter of a
    child of [m] throws on the combined value and the stack suffices for
    the round from [m], the FlowingState of the injection holds every
    observer of [m] bound to
    [combine(..combine(combine(x, x1), x2).., xk)], which is [x] itself
    when nothing else arrived. *)
Theorem merge_delivers_fold (d : nat) (w : world) (v x z : val) (xs : list val)
    (s m : nat) (r state : FlowingState) (nm : StreamState)
    (combine : val → val → result val) (keptm : list nat) (f : val → prog) :
  flow (S (S (S d))) w v s = Ok r →
  arrived m (FlowingState.waiting r) = x :: xs →
  nodes w !! m = Some nm →
  functor nm = merge_functor combine →
  reduce combine x xs = Ok z →
  filterM (accepts w z) (next nm) = Ok keptm →
  flowLazy (S (S (S (S d)))) w v s = Ok state →
  f ∈ observers nm →
  f z ∈ FlowingState.observers state ∧
  (xs = [] → f x ∈ FlowingState.observers state).
Proof.
  intros Hflow Harr Hnm Hfun Hz Hk Hlazy Hf.
  assert (Hfz : f z ∈ FlowingState.observers state); [|split; [done|]].
  2:{ intros ->. simpl in Hz. by injection Hz as <-. }
  assert (Hne : FlowingState.waiting r ≠ []).
  { intros Hnil. rewrite Hnil in Harr. done. }
  change (flowLazy (S (S (S (S d)))) w v s) with
    (r ← flow (S (S (S d))) w v s;
     match FlowingState.waiting r with
     | [] => Ok r
     | _ :: _ =>
         map_reduce (λ sv : nat * list val, flowLazy (S (S (S d))) w (VArr sv.2) sv.1)
           (group (FlowingState.waiting r))
           (FlowingState.mk [] (FlowingState.observers r) (FlowingState.updates r))
     end) in Hlazy.
  rewrite Hflow in Hlazy. cbn [mbind result_bind] in Hlazy.
  destruct (FlowingState.waiting r) as [|p pending] eqn:Hp; [done|].
  rewrite <- Hp in *. apply map_reduce_inv in Hlazy as (states & HF & ->).
  destruct (foldl_concat_fields
              (FlowingState.mk [] (FlowingState.observers r)
                 (FlowingState.updates r)) states) as (_ & -> & _).
  assert (Hm : (m, x :: xs) ∈ group (FlowingState.waiting r)).
  { rewrite group_tabulates. apply list_elem_of_In, in_map_iff.
    exists m. split; [by rewrite Harr|].
    apply list_elem_of_In, first_occurrences_elem.
    unfold arrived in Harr.
    destruct (filter _ _) as [|[m' x'] l'] eqn:Hfil; [done|].
    assert (Hin : (m', x') ∈ filter (λ p : nat * val, p.1 = m)
                                (FlowingState.waiting r))
      by (rewrite Hfil; apply list_elem_of_here).
    apply list_elem_of_filter in Hin as [Hm' Hin]. simpl in Hm'. subst m'.
    apply list_elem_of_fmap. by exists (m, x'). }
  destruct (Forall2_result_elem_l _ _ _ _ HF Hm) as (st & Hst & Hflowm).
  cbn [fst snd] in Hflowm.
  destruct (flowLazy_observers_extend _ _ _ _ _ Hflowm) as (rm & rest & Hrm & Hobs).
  assert (Hfm : functor nm (cells w) (VArr (x :: xs)) = Ok z).
  { rewrite Hfun. exact Hz. }
  destruct (flow_own_then_children d w (VArr (x :: xs)) z m nm keptm Hnm Hfm Hk)
    as (sts & _ & Hflow').
  rewrite Hflow' in Hrm. injection Hrm as <-. cbn [FlowingState.observers] in Hobs.
  cbn [FlowingState.observers]. apply elem_of_app. right.
  apply list_elem_of_In, in_concat. exists (FlowingState.observers st). split.
  - apply in_map_iff. exists st. split; [done|]. by apply list_elem_of_In.
  - apply list_elem_of_In. rewrite Hobs, !elem_of_app. left. left.
    apply list_elem_of_In, in_map_iff. exists f. split; [done|].
    by apply list_elem_of_In.
Qed.

Lemma update_node_inv (s : nat) (g : StreamState → StreamState) (w w' : world) :
  update_node s g w = Some w' →
  ∃ n, nodes w !! s = Some n ∧ w' = set_nodes (<[s := g n]> (nodes w)) w.
Proof.
  unfold update_node, with_node. destruct (nodes w !! s) as [n|]; [|done].
  intros [= <-]. by exists n.
Qed.

Lemma set_add_idemp (x : nat) (l : list nat) : set_add x (set_add x l) = set_add x l.
Proof.
  unfold set_add. destruct (decide (x ∈ l)) as [Hx|Hx].
  - by rewrite decide_True.
  - rewrite decide_True; [done|].
    apply elem_of_app. right. apply list_elem_of_here.
Qed.

(** What the [forEach] of [merge] does to the graph when it completes. *)
Lemma add_lazyNext_shape (m : nat) (l : list nat) (w w' : world) :
  add_lazyNext m l w = Return tt w' →
  cells w' = cells w ∧ observerPhase w' = observerPhase w ∧
  observed w' = observed w ∧ length (nodes w') = length (nodes w) ∧
  ∀ x, nodes w' !! x =
       (λ nx, if decide (x ∈ l) then set_lazyNext (set_add m (lazyNext nx)) nx
              else nx) <$> nodes w !! x.
Proof.
  revert w. induction l as [|s rest IH]; intros w; simpl.
  - intros [= <-]. split_and!; try done. intros x.
    by destruct (nodes w !! x).
  - destruct (update_node s _ w) as [w1|] eqn:Hu; [|done].
    apply update_node_inv in Hu as (n & Hn & ->). intros Hrest.
    destruct (IH _ Hrest) as (Hc & Hp & Ho & Hlen & Hnodes). simpl in *.
    rewrite length_insert in Hlen. split_and!; try done.
    intros x. rewrite Hnodes. destruct (decide (x = s)) as [->|Hne].
    + rewrite list_lookup_insert_eq by (by eapply lookup_lt_Some).
      rewrite Hn. simpl. rewrite (decide_True (P := s ∈ s :: rest))
        by apply list_elem_of_here.
      case_decide; [|done]. unfold set_lazyNext. simpl.
      by rewrite set_add_idemp.
    + rewrite list_lookup_insert_ne by done.
      destruct (nodes w !! x) as [nx|]; simpl; [|done].
      destruct (decide (x ∈ rest)) as [Hin|Hnin].
      * rewrite decide_True; [done|]. by apply list_elem_of_further.
      * rewrite decide_False; [done|].
        intros [?|?]%elem_of_cons; [done|done].
Qed.

Lemma add_lazyNext_app (m : nat) (l1 l2 : list nat) (w : world) :
  add_lazyNext m (l1 ++ l2) w =
  match add_lazyNext m l1 w with
  | Return _ w1 => add_lazyNext m l2 w1
  | Raise e w1 => Raise e w1
  end.
Proof.
  revert w. induction l1 as [|s l1 IH]; intros w; simpl; [done|].
  by destruct (update_node s _ w).
Qed.

Lemma add_lazyNext_returns (m : nat) (l : list nat) (w : world) :
  (∀ s, s ∈ l → s < length (nodes w)) →
  ∃ w', add_lazyNext m l w = Return tt w'.
Proof.
  revert w. induction l as [|s rest IH]; intros w Hl; simpl; [by eauto|].
  destruct (lookup_lt_is_Some_2 (nodes w) s) as [n Hn];
    [apply Hl, list_elem_of_here|].
  unfold update_node, with_node. rewrite Hn. apply IH. intros x Hx.
  simpl. rewrite length_insert. by apply Hl, list_elem_of_further.
Qed.

(** X11.  [merge(sources)(f)] on streams of the heap returns a fresh
    stream with the merging functor, no filter and four empty sets; each
    source gets the new stream added to its [lazyNext] and is otherwise as
    it was (a source listed twice is extended once); all other streams,
    the cells, the guard and the observers' array are untouched. *)
Theorem merge_registers (sources : list nat) (f : val → val → result val)
    (w : world) :
  (∀ s, s ∈ sources → s < length (nodes w)) →
  ∃ w', merge sources f w = Return (length (nodes w)) w' ∧
    nodes w' !! length (nodes w) =
      Some (mkStream (merge_functor f) None [] [] [] []) ∧
    (∀ s n, s ∈ sources → nodes w !! s = Some n →
       nodes w' !! s =
         Some (set_lazyNext (set_add (length (nodes w)) (lazyNext n)) n)) ∧
    (∀ x, x ∉ sources → x < length (nodes w) → nodes w' !! x = nodes w !! x) ∧
    length (nodes w') = S (length (nodes w)) ∧
    cells w' = cells w ∧ observerPhase w' = observerPhase w ∧
    observed w' = observed w.
Proof.
  intros Hsrc. unfold merge, stream.
  destruct (add_lazyNext_returns (length (nodes w)) sources
              (set_nodes (nodes w ++ [mkStream (merge_functor f) None [] [] [] []]) w))
    as [w' Hadd].
  { intros s Hs. simpl. rewrite length_app. specialize (Hsrc s Hs). lia. }
  rewrite Hadd. exists w'. split; [done|].
  destruct (add_lazyNext_shape _ _ _ _ Hadd) as (Hc & Hp & Ho & Hlen & Hnodes).
  simpl in *. rewrite length_app, Nat.add_comm in Hlen.
  split_and!; try done.
  - rewrite Hnodes, lookup_app_r, Nat.sub_diag by lia. simpl.
    rewrite decide_False; [done|]. intros Hin. specialize (Hsrc _ Hin). lia.
  - intros s n Hs Hn. rewrite Hnodes, lookup_app_l, Hn by by apply Hsrc.
    simpl. by rewrite decide_True.
  - intros x Hx Hlt. rewrite Hnodes, lookup_app_l by done.
    destruct (nodes w !! x); simpl; [|done]. by rewrite decide_False.
Qed.

(** X12.  [merge] is not atomic.  When one of the sources is not a
    stream, the [forEach] throws a TypeError at it; the sources listed
    before it have already had the new stream added to their [lazyNext],
    and keep it. *)
Theorem merge_failure_keeps_registrations (good rest : list nat) (bad : nat)
    (f : val → val → result val) (w : world) :
  (∀ s, s ∈ good → s < length (nodes w)) →
  length (nodes w) < bad →
  ∃ w', merge (good ++ bad :: rest) f w = Raise TypeError w' ∧
    (∀ s n, s ∈ good → nodes w !! s = Some n →
       ∃ n', nodes w' !! s = Some n' ∧ length (nodes w) ∈ lazyNext n') ∧
    nodes w' !! length (nodes w) =
      Some (mkStream (merge_functor f) None [] [] [] []).
Proof.
  intros Hgood Hbad. unfold merge, stream. rewrite add_lazyNext_app.
  destruct (add_lazyNext_returns (length (nodes w)) good
              (set_nodes (nodes w ++ [mkStream (merge_functor f) None [] [] [] []]) w))
    as [w' Hadd].
  { intros s Hs. simpl. rewrite length_app. specialize (Hgood s Hs). lia. }
  rewrite Hadd.
  destruct (add_lazyNext_shape _ _ _ _ Hadd) as (Hc & Hp & Ho & Hlen & Hnodes).
  simpl in *. rewrite length_app, Nat.add_comm in Hlen. simpl in Hlen.
  unfold update_node, with_node. rewrite (lookup_ge_None_2 (nodes w') bad) by lia.
  exists w'. split_and!; [done| |].
  - intros s n Hs Hn. rewrite Hnodes, lookup_app_l, Hn by by apply Hgood.
    simpl. rewrite decide_True by done. eexists. split; [done|]. simpl.
    unfold set_add. case_decide; [done|].
    apply elem_of_app. right. apply list_elem_of_here.
  - rewrite Hnodes, lookup_app_r, Nat.sub_diag by lia. simpl.
    rewrite decide_False; [done|]. intros Hin. specialize (Hgood _ Hin). lia.
Qed.

(** ** Reference counts *)

Lemma sumM_zero (f : nat → result nat) (xs : list nat) (init : nat) :
  sumM f xs init = Ok 0 → init = 0 ∧ ∀ x, x ∈ xs → f x = Ok 0.
Proof.
  revert init. induction xs as [|x xs IH]; intros init; simpl.
  - intros [= ->]. split; [done|]. intros x Hx. by apply elem_of_nil in Hx.
  - destruct (f x) as [k|] eqn:Hx; simpl; [|done]. intros H.
    destruct (IH _ H) as [Hz Hxs].
    assert (init = 0 ∧ k = 0) as [-> ->] by lia. split; [done|].
    intros y [->|Hy]%elem_of_cons; [done|by apply Hxs].
Qed.

Lemma countRefs_zero_inv (k : nat) (w : world) (s : nat) :
  countRefs k w s true = Ok 0 →
  ∃ k' n, k = S k' ∧ nodes w !! s = Some n ∧ observers n = [] ∧ updates n = [] ∧
    ∀ c, c ∈ next n ++ lazyNext n → countRefs k' w c true = Ok 0.
Proof.
  destruct k as [|k]; simpl; [done|]. unfold get_node.
  destruct (nodes w !! s) as [n|]; simpl; [|done].
  intros [Hz Hkids]%sumM_zero. exists k, n.
  split_and!; try done.
  - apply length_zero_iff_nil. lia.
  - apply length_zero_iff_nil. lia.
Qed.

Lemma countRefs_zero_visit (w : world) (s t : nat) (v u : val) (k : nat) :
  countRefs k w s true = Ok 0 →
  visit w s v t u →
  ∃ nt, nodes w !! t = Some nt ∧ observers nt = [] ∧ updates nt = [].
Proof.
  intros Hk Hv.
  assert (∃ k', countRefs k' w t true = Ok 0) as [k' Hk'].
  { induction Hv as [|t c u r n Hv [k' IH] Hn Hr Hc|t m u vs n Hv [k' IH] Hn Hm].
    - by exists k.
    - apply countRefs_zero_inv in IH as (k'' & n' & _ & Hn' & _ & _ & Hkids).
      exists k''. apply Hkids. rewrite Hn in Hn'. injection Hn' as <-.
      apply elem_of_app. by left.
    - apply countRefs_zero_inv in IH as (k'' & n' & _ & Hn' & _ & _ & Hkids).
      exists k''. apply Hkids. rewrite Hn in Hn'. injection Hn' as <-.
      apply elem_of_app. by right. }
  apply countRefs_zero_inv in Hk' as (_ & nt & _ & Hnt & Ho & Hu & _).
  by exists nt.
Qed.

Lemma unreferenced_flowLazy (k d : nat) (w : world) (s : nat) (v : val)
    (fs : FlowingState) :
  countRefs k w s true = Ok 0 →
  flowLazy d w v s = Ok fs →
  fs = emptyFlowingState.
Proof.
  intros Hk Hfs.
  pose proof (flowLazy_no_pending _ _ _ _ _ Hfs) as Hwait.
  destruct (flowLazy_sound _ _ _ _ _ Hfs) as [Hobs Hupd].
  destruct fs as [waiting obs upd]. simpl in *. subst waiting.
  unfold emptyFlowingState. f_equal.
  - destruct obs as [|th obs]; [done|].
    destruct (Hobs th) as (t & u & nt & x & Hv & Hnt & _ & f & Hf & _);
      [apply list_elem_of_here|].
    destruct (countRefs_zero_visit _ _ _ _ _ _ Hk Hv) as (nt' & Hnt' & Ho & _).
    rewrite Hnt in Hnt'. injection Hnt' as <-. rewrite Ho in Hf.
    by apply elem_of_nil in Hf.
  - destruct upd as [|[c x] upd]; [done|].
    destruct (Hupd c x) as (t & u & nt & y & Hv & Hnt & _ & Hc & _);
      [apply list_elem_of_here|].
    destruct (countRefs_zero_visit _ _ _ _ _ _ Hk Hv) as (nt' & Hnt' & _ & Hu).
    rewrite Hnt in Hnt'. injection Hnt' as <-. rewrite Hu in Hc.
    by apply elem_of_nil in Hc.
Qed.

Lemma update_node_inv_listen (s : nat) (f : val → prog) (w w' : world) :
  listen s f w = Return tt w' →
  ∃ n, nodes w !! s = Some n ∧
    w' = set_nodes (<[s := set_observers (observers n ++ [f]) n]> (nodes w)) w.
Proof.
  unfold listen. destruct (update_node s _ w) as [w1|] eqn:Hu; [|done].
  intros [= <-]. by apply update_node_inv in Hu.
Qed.

Lemma update_node_inv_hold (s c : nat) (v : val) (w w' : world) :
  hold s v w = Return c w' →
  ∃ n, nodes w !! s = Some n ∧
    w' = set_nodes (<[s := set_updates (updates n ++ [length (cells w)]) n]> (nodes w))
           (set_cells (cells w ++ [v]) w).
Proof.
  unfold hold. destruct (update_node s _ _) as [w1|] eqn:Hu; [|done].
  intros [= <- <-]. by apply update_node_inv in Hu.
Qed.

(** X13.  A stream whose deep reference count is 0 is silent: whatever
    is injected into it, [drip] returns the empty FlowingState and leaves
    the world as it was. *)
Theorem unreferenced_stream_is_silent (k d : nat) (w : world) (s : nat) (v : val) :
  countRefs k w s true = Ok 0 →
  observerPhase w = false →
  drip (S d) s v w = Return emptyFlowingState w.
Proof.
  intros Hk Hw. simpl. rewrite Hw.
  destruct (flowLazy d w v s) as [state|] eqn:Hfs.
  - rewrite (unreferenced_flowLazy _ _ _ _ _ _ Hk Hfs). simpl.
    destruct w; simpl in *; by subst.
  - destruct w; simpl in *; by subst.
Qed.

Lemma countRefs_inert (k : nat) (w : world) (x : nat) (deep : bool) :
  inert w x → countRefs (S k) w x deep = Ok 0.
Proof.
  intros (n & Hn & Hnext & Hlazy & Hobs & Hupd). simpl. unfold get_node.
  rewrite Hn. simpl. rewrite Hnext, Hlazy, Hobs, Hupd. by destruct deep.
Qed.

(** X14.  After [clear(s)] has returned, the reference count of every
    stream that was reachable from [s] along [next] edges is 0, shallow
    or deep. *)
Theorem clear_zeroes_countRefs (d k : nat) (s x : nat) (w w' : world) (deep : bool) :
  clear d s w = Return tt w' →
  reach_next w s x →
  countRefs (S k) w' x deep = Ok 0.
Proof.
  intros Hc Hx. apply countRefs_inert.
  destruct (clear_clear_post w d s w w' (cleared_or_same_refl w) Hc)
    as (_ & Hr & _).
  eapply Hr; [apply list_elem_of_here|done].
Qed.

(** X15.  The shallow count of a stream goes up by one with each
    [listen] on it of a closure that is not among its observers yet, and
    with each [hold] on it; it is left alone by [listen] and [hold] on
    another stream and by [pipe], whose new stream counts 0. *)
Theorem countRefs_counts_registrations (d : nat) (w : world) (s k : nat) :
  countRefs (S d) w s false = Ok k →
  (∀ f w' n, nodes w !! s = Some n → f ∉ observers n →
     listen s f w = Return tt w' → countRefs (S d) w' s false = Ok (S k)) ∧
  (∀ v c w', hold s v w = Return c w' → countRefs (S d) w' s false = Ok (S k)) ∧
  (∀ x f w', x ≠ s → listen x f w = Return tt w' →
     countRefs (S d) w' s false = Ok k) ∧
  (∀ x v c w', x ≠ s → hold x v w = Return c w' →
     countRefs (S d) w' s false = Ok k) ∧
  (∀ x g t w', pipe x g w = Return t w' → x < length (nodes w) →
     countRefs (S d) w' s false = Ok k ∧ countRefs (S d) w' t false = Ok 0).
Proof.
  simpl. unfold get_node. destruct (nodes w !! s) as [n|] eqn:Hn; simpl; [|done].
  intros [= <-].
  assert (Hlt : s < length (nodes w)) by (by eapply lookup_lt_Some).
  split_and!.
  - intros f w' n0 _ _ (n' & Hn' & ->)%update_node_inv_listen. simpl.
    rewrite list_lookup_insert_eq by done. rewrite Hn in Hn'. injection Hn' as <-.
    simpl. rewrite length_app. simpl. f_equal. lia.
  - intros v c w' (n' & Hn' & ->)%update_node_inv_hold. simpl.
    rewrite list_lookup_insert_eq by done. rewrite Hn in Hn'. injection Hn' as <-.
    simpl. rewrite length_app. simpl. f_equal. lia.
  - intros x f w' Hx (n' & Hn' & ->)%update_node_inv_listen. simpl.
    rewrite list_lookup_insert_ne by done. by rewrite Hn.
  - intros x v c w' Hx (n' & Hn' & ->)%update_node_inv_hold. simpl.
    rewrite list_lookup_insert_ne by done. by rewrite Hn.
  - intros x g t w' Hp Hx. unfold pipe, stream in Hp.
    destruct (update_node x _ _) as [w2|] eqn:Hu; [|done].
    injection Hp as <- <-.
    apply update_node_inv in Hu as (nx & Hnx & ->). simpl in *.
    rewrite lookup_app_l in Hnx by done. split.
    + destruct (decide (x = s)) as [->|Hne].
      * rewrite list_lookup_insert_eq by (rewrite length_app; lia).
        rewrite Hn in Hnx. by injection Hnx as <-.
      * rewrite list_lookup_insert_ne by done. by rewrite lookup_app_l, Hn.
    + rewrite list_lookup_insert_ne by lia.
      by rewrite lookup_app_r, Nat.sub_diag by lia.
Qed.

(** ** Teardown of a graph with a cycle *)

Lemma loops_child (w : world) (x : nat) :
  loops w x → ∃ n c, nodes w !! x = Some n ∧ c ∈ next n ∧ loops w c.
Proof.
  intros (y & Hxy & Hy). inversion Hxy as [|? c ? n Hn Hc Hcy]; subst.
  - destruct Hy as (n & c & Hn & Hc & Hcy). exists n, c. split_and!; [done..|].
    eexists. split; [done|]. by exists n, c.
  - exists n, c. split_and!; [done..|]. by exists y.
Qed.

Lemma for_each_loops_kept (w0 : world) (f : nat → world → outcome unit)
    (l : list nat) :
  (∀ c w w', loops_kept w0 w → f c w = Return tt w' → loops_kept w0 w') →
  ∀ w w', loops_kept w0 w → for_each f l w = Return tt w' →
    loops_kept w0 w' ∧
    ∀ c, c ∈ l → ∃ wa wb, loops_kept w0 wa ∧ f c wa = Return tt wb.
Proof.
  intros Hf. induction l as [|c l IH]; intros w w' HI; simpl.
  - intros [= <-]. split; [done|]. intros c Hc. by apply elem_of_nil in Hc.
  - destruct (f c w) as [[] wa|] eqn:Hc; [|done]. intros Hl.
    destruct (IH _ _ (Hf _ _ _ HI Hc) Hl) as [HI' Hall]. split; [done|].
    intros c' [->|Hin]%elem_of_cons; [by exists w, wa|by apply Hall].
Qed.

Lemma clear_loops (w0 : world) (d : nat) :
  (∀ w x w', loops_kept w0 w → loops w0 x → clear d x w ≠ Return tt w') ∧
  (∀ w x w', loops_kept w0 w → clear d x w = Return tt w' → loops_kept w0 w').
Proof.
  induction d as [|d [IHa IHb]]; [done|].
  assert (Ha : ∀ w x w', loops_kept w0 w → loops w0 x →
                 clear (S d) x w ≠ Return tt w').
  { intros w x w' HI Hx. simpl.
    destruct (loops_child _ _ Hx) as (n & c & Hn & Hc & Hloop).
    rewrite (HI _ Hx), Hn.
    destruct (for_each (clear d) (next n) w) as [[] w1|] eqn:Hfe; [|done].
    destruct (for_each_loops_kept w0 (clear d) (next n) (λ c w w', IHb w c w') _ _ HI Hfe)
      as [_ Hall].
    destruct (Hall c Hc) as (wa & wb & HIa & Hca). by destruct (IHa _ _ _ HIa Hloop Hca). }
  split; [done|]. intros w x w' HI Hc.
  assert (Hx : ¬ loops w0 x) by (intros Hx; by destruct (Ha _ _ _ HI Hx Hc)).
  simpl in Hc. destruct (nodes w !! x) as [n|]; [|done].
  destruct (for_each (clear d) (next n) w) as [[] w1|] eqn:Hfe; [|done].
  injection Hc as <-.
  destruct (for_each_loops_kept w0 (clear d) (next n) (λ c w w', IHb w c w') _ _ HI Hfe) as [HI1 _].
  intros y Hy. simpl. rewrite list_lookup_alter_ne; [by apply HI1|].
  by intros ->.
Qed.

(** X16.  [clear(s)] never returns when the [next] subtree of [s]
    contains a cycle: the recursion runs until the stack is exhausted,
    unless it meets something that is not a stream first, and either way
    the call throws. *)
Theorem clear_throws_on_cycle (d s y : nat) (w : world) :
  reach_next w s y →
  on_cycle w y →
  ∃ e w', clear d s w = Raise e w'.
Proof.
  intros Hsy Hy. destruct (clear_loops w d) as [Ha _].
  destruct (clear d s w) as [[] w'|e w'] eqn:Hc; [|by eauto].
  destruct (Ha w s w'); [done|by exists y|done].
Qed.

(** ** The monoid of FlowingStates *)

Lemma foldl_concat_init (a : FlowingState) (states : list FlowingState) :
  foldl concatFlowingState a states =
  concatFlowingState a (foldl concatFlowingState emptyFlowingState states).
Proof.
  revert a. induction states as [|st states IH] using rev_ind; intros a; simpl.
  - by rewrite concat_empty_r.
  - rewrite !foldl_app. simpl. rewrite IH.
    destruct a, st, (foldl concatFlowingState emptyFlowingState states).
    unfold concatFlowingState. simpl. by rewrite !app_assoc.
Qed.

(** X17.  [concatFlowingState] is associative and the empty FlowingState
    is its unit on both sides, so the [reduce] of [flow] and [flowLazy]
    over the states of the children gives the initial state followed by
    the children's states put together. *)
Theorem concatFlowingState_monoid (a b c : FlowingState) (states : list FlowingState) :
  concatFlowingState a (concatFlowingState b c) =
    concatFlowingState (concatFlowingState a b) c ∧
  concatFlowingState emptyFlowingState a = a ∧
  concatFlowingState a emptyFlowingState = a ∧
  foldl concatFlowingState a states =
    concatFlowingState a (foldl concatFlowingState emptyFlowingState states).
Proof.
  split_and!.
  - destruct a, b, c. unfold concatFlowingState. simpl. by rewrite !app_assoc.
  - by destruct a.
  - apply concat_empty_r.
  - apply foldl_concat_init.
Qed.

(** ** Injection into what cannot take it *)

(** X18.  [drip] does not check its target.  When the target is not a
    stream, or is one whose functor throws on the injected value, the
    call returns the empty FlowingState and leaves the world as it was;
    nothing is thrown to the caller. *)
Theorem drip_swallows_bad_target (d s : nat) (v : val) (w : world) (e : error) :
  observerPhase w = false →
  (n ← get_node w s; functor n (cells w) v) = Err e →
  drip (S d) s v w = Return emptyFlowingState w.
Proof.
  intros Hw Hbad. simpl. rewrite Hw.
  assert (Hflow : ∀ d', flow (S d') w v s = Ok emptyFlowingState).
  { intros d'. simpl. unfold get_node in *.
    destruct (nodes w !! s) as [n|]; simpl in *; [|done]. by rewrite Hbad. }
  assert (Hfl : flowLazy d w v s = Ok emptyFlowingState ∨
                ∃ e', flowLazy d w v s = Err e').
  { destruct d as [|[|d]]; [simpl; by eauto..|]. left.
    change (flowLazy (S (S d)) w v s) with
      (r ← flow (S d) w v s;
       match FlowingState.waiting r with
       | [] => Ok r
       | _ :: _ =>
           map_reduce (λ sv : nat * list val, flowLazy (S d) w (VArr sv.2) sv.1)
             (group (FlowingState.waiting r))
             (FlowingState.mk [] (FlowingState.observers r) (FlowingState.updates r))
       end).
    by rewrite Hflow. }
  destruct Hfl as [->|[e' ->]]; destruct w; simpl in *; by subst.
Qed.

(** ** The graph stays well formed *)

Lemma NoDup_set_add (x : nat) (l : list nat) : NoDup l → NoDup (set_add x l).
Proof.
  intros Hl. unfold set_add. case_decide as Hx; [done|].
  apply NoDup_app. split_and!; [done| |apply NoDup_singleton].
  intros y Hy ->%list_elem_of_singleton. done.
Qed.

Lemma well_formed_stream (f : list val → val → result val) (w : world) :
  well_formed w → well_formed (stream f w).2.
Proof.
  intros Hwf t nt. simpl. rewrite length_app. simpl.
  destruct (decide (t < length (nodes w))) as [Hlt|Hge].
  - rewrite lookup_app_l by done. intros Ht.
    destruct (Hwf _ _ Ht) as (Hedges & ? & ? & ?). split_and!; try done.
    intros x Hx. specialize (Hedges x Hx). lia.
  - rewrite lookup_app_r by lia.
    destruct (t - length (nodes w)) as [|k]; simpl; [|by rewrite lookup_nil].
    intros [= <-]. simpl. split_and!; try apply NoDup_nil_2.
    + intros x Hx. by apply elem_of_nil in Hx.
    + intros c Hc. by apply elem_of_nil in Hc.
Qed.

Lemma well_formed_cells (v : val) (w : world) :
  well_formed w → well_formed (set_cells (cells w ++ [v]) w).
Proof.
  intros Hwf t nt Ht. destruct (Hwf _ _ Ht) as (? & ? & ? & Hupd).
  split_and!; try done. intros c Hc. simpl. rewrite length_app.
  specialize (Hupd c Hc). lia.
Qed.

Lemma well_formed_update (s : nat) (g : StreamState → StreamState) (w w' : world) :
  well_formed w →
  update_node s g w = Some w' →
  (∀ n, nodes w !! s = Some n →
     (∀ x, x ∈ next (g n) ++ lazyNext (g n) → x < length (nodes w)) ∧
     NoDup (next (g n)) ∧ NoDup (lazyNext (g n)) ∧
     (∀ c, c ∈ updates (g n) → c < length (cells w))) →
  well_formed w'.
Proof.
  intros Hwf (n & Hn & ->)%update_node_inv Hg t nt. simpl.
  rewrite length_insert. destruct (decide (t = s)) as [->|Hne].
  - rewrite list_lookup_insert_eq by (by eapply lookup_lt_Some).
    intros [= <-]. by apply Hg.
  - rewrite list_lookup_insert_ne by done. apply Hwf.
Qed.

Lemma well_formed_add_edge (s t : nat) (w : world) :
  well_formed w → t < length (nodes w) →
  ∀ w', update_node s (λ n, set_next (set_add t (next n)) n) w = Some w' →
  well_formed w'.
Proof.
  intros Hwf Ht w' Hu. eapply well_formed_update; [done..|].
  intros n Hn. destruct (Hwf _ _ Hn) as (Hedges & Hnd & Hndl & Hupd).
  simpl. split_and!; try done.
  - intros x [[->|Hx]%elem_of_set_add|Hx]%elem_of_app; [done|..];
      apply Hedges, elem_of_app; auto.
  - by apply NoDup_set_add.
Qed.

Lemma well_formed_pipe (s : nat) (f : list val → val → result val) (w : world) :
  well_formed w → well_formed (final (pipe s f w)).
Proof.
  intros Hwf. unfold pipe.
  pose proof (well_formed_stream f w Hwf) as Hwf1.
  destruct (stream f w) as [t w1] eqn:Hs. simpl in Hwf1.
  destruct (update_node s _ w1) as [w2|] eqn:Hu; simpl; [|done].
  eapply well_formed_add_edge; [done| |done].
  unfold stream in Hs. injection Hs as <- <-. simpl. rewrite length_app. simpl. lia.
Qed.

Lemma well_formed_hold (s : nat) (v : val) (w : world) :
  well_formed w → well_formed (final (hold s v w)).
Proof.
  intros Hwf. unfold hold.
  destruct (update_node s _ _) as [w2|] eqn:Hu; simpl; [|done].
  eapply well_formed_update; [by apply (well_formed_cells v)|done|].
  intros n Hn. destruct (Hwf _ _ Hn) as (Hedges & Hnd & Hndl & Hupd).
  simpl. split_and!; try done.
  intros c [Hc| ->%list_elem_of_singleton]%elem_of_app; rewrite length_app; simpl.
  - specialize (Hupd c Hc). lia.
  - lia.
Qed.

Lemma well_formed_listen (s : nat) (f : val → prog) (w : world) :
  well_formed w → well_formed (final (listen s f w)).
Proof.
  intros Hwf. unfold listen.
  destruct (update_node s _ _) as [w2|] eqn:Hu; simpl; [|done].
  eapply well_formed_update; [done..|]. intros n Hn. by apply (Hwf s n).
Qed.

Lemma well_formed_add_lazyNext (m : nat) (l : list nat) (w : world) :
  well_formed w → m < length (nodes w) →
  well_formed (final (add_lazyNext m l w)).
Proof.
  revert w. induction l as [|s rest IH]; intros w Hwf Hm; simpl; [done|].
  destruct (update_node s _ w) as [w1|] eqn:Hu; simpl; [|done].
  apply IH.
  - eapply well_formed_update; [done..|].
    intros n Hn. destruct (Hwf _ _ Hn) as (Hedges & Hnd & Hndl & Hupd).
    simpl. split_and!; try done.
    + intros x [Hx|[->|Hx]%elem_of_set_add]%elem_of_app; [|done|];
        apply Hedges, elem_of_app; auto.
    + by apply NoDup_set_add.
  - apply update_node_inv in Hu as (n & _ & ->). simpl. by rewrite length_insert.
Qed.

Lemma well_formed_for_each (f : nat → world → outcome unit) (l : list nat) :
  (∀ c w, well_formed w → well_formed (final (f c w))) →
  ∀ w, well_formed w → well_formed (final (for_each f l w)).
Proof.
  intros Hf. induction l as [|c l IH]; intros w Hwf; simpl; [done|].
  specialize (Hf c w Hwf). destruct (f c w) as [[] w1|e w1]; simpl in *; auto.
Qed.

Lemma well_formed_clear (d s : nat) (w : world) :
  well_formed w → well_formed (final (clear d s w)).
Proof.
  revert s w. induction d as [|d IH]; intros s w Hwf; simpl; [done|].
  destruct (nodes w !! s) as [n|]; simpl; [|done].
  pose proof (well_formed_for_each (clear d) (next n) IH w Hwf) as Hwf1.
  destruct (for_each (clear d) (next n) w) as [[] w1|e w1]; simpl in *; [|done].
  intros t nt. simpl. rewrite length_alter.
  destruct (decide (t = s)) as [->|Hne].
  - rewrite list_lookup_alter_eq. destruct (nodes w1 !! s); simpl; [|done].
    intros [= <-]. simpl. split_and!; try apply NoDup_nil_2.
    + intros x Hx. by apply elem_of_nil in Hx.
    + intros c Hc. by apply elem_of_nil in Hc.
  - rewrite list_lookup_alter_ne by done. apply Hwf1.
Qed.

(** X19.  The graph stays well formed under every operation that builds
    or tears down: from a world in which every edge leads to a stream,
    no edge set has a duplicate and every update sink assigns an existing
    cell, each of [stream], [pipe], [filter], [snapshot], [merge], [hold],
    [listen], [accum], [shed] and [clear] leads to such a world, whether
    it returns or throws. *)
Theorem construction_keeps_well_formed (w : world) :
  well_formed w →
  (∀ f, well_formed (stream f w).2) ∧
  (∀ s f, well_formed (final (pipe s f w))) ∧
  (∀ s p, well_formed (final (filter_stream s p w))) ∧
  (∀ s c, well_formed (final (snapshot s c w))) ∧
  (∀ sources f, well_formed (final (merge sources f w))) ∧
  (∀ s v, well_formed (final (hold s v w))) ∧
  (∀ s f, well_formed (final (listen s f w))) ∧
  (∀ s f seed, well_formed (final (accum s f seed w))) ∧
  (∀ ss, well_formed (final (shed ss w))) ∧
  (∀ d s, well_formed (final (clear d s w))).
Proof.
  intros Hwf. split_and!.
  - intros f. by apply well_formed_stream.
  - intros s f. by apply well_formed_pipe.
  - intros s p. unfold filter_stream.
    pose proof (well_formed_pipe s parrot w Hwf) as Hwf1.
    destruct (pipe s parrot w) as [t w1|e w1]; simpl in *; [|done].
    destruct (update_node t _ w1) as [w2|] eqn:Hu; simpl; [|done].
    eapply well_formed_update; [done..|]. intros n Hn. by apply (Hwf1 t n).
  - intros s c. apply (well_formed_pipe s (λ σ _, c σ) w Hwf).
  - intros sources f. unfold merge.
    pose proof (well_formed_stream (merge_functor f) w Hwf) as Hwf1.
    destruct (stream (merge_functor f) w) as [m w1] eqn:Hs. simpl in Hwf1.
    assert (Hm : m < length (nodes w1)).
    { unfold stream in Hs. injection Hs as <- <-. simpl. rewrite length_app.
      simpl. lia. }
    pose proof (well_formed_add_lazyNext m sources w1 Hwf1 Hm) as Hwf2.
    by destruct (add_lazyNext m sources w1).
  - intros s v. by apply well_formed_hold.
  - intros s f. by apply well_formed_listen.
  - intros s f seed. unfold accum.
    pose proof (well_formed_pipe s (accum_functor f (length (cells w))) w Hwf)
      as Hwf1.
    destruct (pipe s _ w) as [t w1|e w1]; simpl in *; [|done].
    by apply well_formed_hold.
  - intros ss. unfold shed.
    pose proof (well_formed_stream parrot w Hwf) as Hwf1.
    destruct (stream parrot w) as [o w1]. simpl in Hwf1.
    pose proof (well_formed_hold ss (VStream o) w1 Hwf1) as Hwf2.
    destruct (hold ss (VStream o) w1) as [p w2|e w2]; simpl in *; [|done].
    pose proof (well_formed_listen ss (shed_listener p o) w2 Hwf2) as Hwf3.
    by destruct (listen ss (shed_listener p o) w2).
  - intros d s. by apply well_formed_clear.
Qed.

(** ** Graphs without merges *)

Lemma flow_waiting_source (d : nat) (w : world) (v : val) (s : nat)
    (fs : FlowingState) (m : nat) (x : val) :
  flow d w v s = Ok fs →
  (m, x) ∈ FlowingState.waiting fs →
  ∃ t nt, reach_next w s t ∧ nodes w !! t = Some nt ∧ m ∈ lazyNext nt.
Proof.
  revert v s fs x. induction d as [|d IH]; intros v s fs x; simpl; [done|].
  unfold get_node. destruct (nodes w !! s) as [n|] eqn:Hn; simpl;
    [|intros [= <-] ?%elem_of_nil; done].
  destruct (functor n (cells w) v) as [r|] eqn:Hr; simpl;
    [|intros [= <-] ?%elem_of_nil; done].
  destruct (filterM (accepts w r) (next n)) as [kept|] eqn:Hk; simpl;
    [|intros [= <-] ?%elem_of_nil; done].
  destruct (map_reduce (flow d w r) kept (streamToFlowingState r n))
    as [fs'|] eqn:Hmr; simpl; [|intros [= <-] ?%elem_of_nil; done].
  intros [= <-]. destruct (map_reduce_waiting _ _ _ _ Hmr) as (rest & -> & Hrest).
  intros [Hown|Hin]%elem_of_app.
  - simpl in Hown. apply list_elem_of_In, in_map_iff in Hown
      as (m' & [= -> _] & Hm%list_elem_of_In).
    exists s, n. split_and!; [constructor|done..].
  - destruct (Hrest _ Hin) as (k & st & Hk' & Hst & Hu).
    destruct (IH _ _ _ _ Hst Hu) as (t & nt & Hreach & Hnt & Hm).
    exists t, nt. split_and!; [|done..].
    eapply reach_child; [done| |done]. by eapply filterM_Ok_subset.
Qed.

(** X20.  Where no stream below [s] along [next] edges feeds a merge,
    [flowLazy] is [flow]: no second round is made and the FlowingState of
    the first round is returned as it is. *)
Theorem flowLazy_without_merges (d : nat) (w : world) (v : val) (s : nat) :
  (∀ x n, reach_next w s x → nodes w !! x = Some n → lazyNext n = []) →
  flowLazy (S d) w v s = flow d w v s.
Proof.
  intros Hnone. simpl. destruct (flow d w v s) as [r|] eqn:Hflow; [|done].
  cbn [mbind result_bind].
  destruct (FlowingState.waiting r) as [|[m x] pending] eqn:Hp; [done|].
  destruct (flow_waiting_source _ _ _ _ _ m x Hflow) as (t & nt & Hreach & Hnt & Hm).
  { rewrite Hp. apply list_elem_of_here. }
  rewrite (Hnone _ _ Hreach Hnt) in Hm. by apply elem_of_nil in Hm.
Qed.

(** ** Properties held on the same stream *)

Lemma arrived_app (m : nat) (a b : list (nat * val)) :
  arrived m (a ++ b) = arrived m a ++ arrived m b.
Proof. unfold arrived. by rewrite filter_app, fmap_app. Qed.

Lemma last_assigned_app (c : nat) (a b : list (nat * val)) :
  last_assigned c (a ++ b) =
  match last_assigned c b with Some x => Some x | None => last_assigned c a end.
Proof. unfold last_assigned. by rewrite arrived_app, last_app. Qed.

Lemma last_assigned_own (c : nat) (r : val) (l : list nat) :
  last_assigned c (map (λ p, (p, r)) l) = if decide (c ∈ l) then Some r else None.
Proof.
  unfold last_assigned, arrived. induction l as [|p l IH]; [done|].
  cbn [map]. destruct (decide (p = c)) as [->|Hne].
  - rewrite filter_cons_True by done. rewrite fmap_cons, last_cons, IH.
    rewrite (decide_True (P := c ∈ c :: l)) by apply list_elem_of_here.
    by destruct (decide (c ∈ l)).
  - rewrite filter_cons_False by done. rewrite IH.
    destruct (decide (c ∈ l)) as [Hin|Hnin].
    + by rewrite decide_True by (by apply list_elem_of_further).
    + rewrite decide_False; [done|]. intros [?|?]%elem_of_cons; done.
Qed.

Lemma last_assigned_concat (c1 c2 : nat) (states : list FlowingState) :
  (∀ st, st ∈ states →
     last_assigned c1 (FlowingState.updates st)
     = last_assigned c2 (FlowingState.updates st)) →
  last_assigned c1 (concat (map FlowingState.updates states))
  = last_assigned c2 (concat (map FlowingState.updates states)).
Proof.
  induction states as [|st states IH]; intros Hall; [done|].
  cbn [map concat]. rewrite !last_assigned_app, IH, Hall; [done|..].
  - apply list_elem_of_here.
  - intros st' Hst'. by apply Hall, list_elem_of_further.
Qed.

Lemma flow_assigns_together (w : world) (c1 c2 s : nat) (d : nat) (v : val)
    (t : nat) (fs : FlowingState) :
  held_on w c1 s → held_on w c2 s →
  flow d w v t = Ok fs →
  last_assigned c1 (FlowingState.updates fs)
  = last_assigned c2 (FlowingState.updates fs).
Proof.
  intros (_ & (n1 & Hn1 & Hin1) & Honly1) (_ & (n2 & Hn2 & Hin2) & Honly2).
  rewrite Hn1 in Hn2. injection Hn2 as <-.
  revert v t fs. induction d as [|d IH]; intros v t fs; simpl; [done|].
  unfold get_node. destruct (nodes w !! t) as [n|] eqn:Hn; simpl;
    [|by intros [= <-]].
  destruct (functor n (cells w) v) as [r|] eqn:Hr; simpl; [|by intros [= <-]].
  destruct (filterM (accepts w r) (next n)) as [kept|] eqn:Hk; simpl;
    [|by intros [= <-]].
  destruct (map_reduce (flow d w r) kept (streamToFlowingState r n))
    as [fs'|] eqn:Hmr; simpl; [|by intros [= <-]].
  intros [= <-]. apply map_reduce_inv in Hmr as (states & HF & ->).
  destruct (foldl_concat_fields (streamToFlowingState r n) states)
    as (_ & _ & ->).
  rewrite !last_assigned_app. rewrite (last_assigned_concat c1 c2 states); cycle 1.
  { intros st Hst. destruct (Forall2_result_elem _ _ _ _ HF Hst) as (c & _ & Hfc).
    by eapply IH. }
  simpl. rewrite !last_assigned_own.
  destruct (decide (c1 ∈ updates n)) as [Hc1|Hc1];
    destruct (decide (c2 ∈ updates n)) as [Hc2|Hc2]; try done.
  - pose proof (Honly1 _ _ Hn Hc1) as ->. rewrite Hn1 in Hn. by injection Hn as <-.
  - pose proof (Honly2 _ _ Hn Hc2) as ->. rewrite Hn1 in Hn. by injection Hn as <-.
Qed.

Lemma flowLazy_assigns_together (w : world) (c1 c2 s : nat) (d : nat) (v : val)
    (t : nat) (fs : FlowingState) :
  held_on w c1 s → held_on w c2 s →
  flowLazy d w v t = Ok fs →
  last_assigned c1 (FlowingState.updates fs)
  = last_assigned c2 (FlowingState.updates fs).
Proof.
  intros H1 H2. revert v t fs. induction d as [|d IH]; intros v t fs; simpl; [done|].
  destruct (flow d w v t) as [r|] eqn:Hflow; cbn [mbind result_bind]; [|done].
  pose proof (flow_assigns_together _ _ _ _ _ _ _ _ H1 H2 Hflow) as Hr.
  destruct (FlowingState.waiting r) as [|p pending]; [by intros [= <-]|].
  intros (states & HF & ->)%map_reduce_inv.
  destruct (foldl_concat_fields
              (FlowingState.mk [] (FlowingState.observers r) (FlowingState.updates r))
              states) as (_ & _ & ->).
  simpl. rewrite !last_assigned_app, Hr.
  rewrite (last_assigned_concat c1 c2 states); [done|].
  intros st Hst. destruct (Forall2_result_elem _ _ _ _ HF Hst) as (sv & _ & Hfc).
  by eapply IH.
Qed.

Lemma run_updates_last_assigned (c : nat) (us : list (nat * val)) (w : world) :
  c < length (cells w) →
  reader c (run_updates us w) = default (reader c w) (last_assigned c us).
Proof.
  intros Hc. induction us as [|[c' x] us IH] using rev_ind; [done|].
  assert (Hsnoc : run_updates (us ++ [(c', x)]) w
                  = run_update (c', x) (run_updates us w)).
  { unfold run_updates. by rewrite foldl_app. }
  rewrite Hsnoc, last_assigned_app. unfold last_assigned at 1, arrived at 1.
  unfold reader at 1, run_update. cbn [cells set_cells fst snd].
  destruct (decide (c' = c)) as [->|Hne].
  - rewrite filter_cons_True by done. cbn.
    rewrite list_lookup_insert_eq; [done|]. by rewrite run_updates_length.
  - rewrite filter_cons_False by done. cbn.
    rewrite list_lookup_insert_ne by done. exact IH.
Qed.

(** X21.  Two properties held on the same stream agree once the stream
    has fired: after any [drip] call, into any stream, either the two
    read the same value or the call has assigned neither of them. *)
Theorem held_together_agree (d s0 c1 c2 s : nat) (v : val) (w : world) :
  held_on w c1 s → held_on w c2 s →
  reader c1 (final (drip d s0 v w)) = reader c2 (final (drip d s0 v w)) ∨
  (reader c1 (final (drip d s0 v w)) = reader c1 w ∧
   reader c2 (final (drip d s0 v w)) = reader c2 w).
Proof.
  intros H1 H2. destruct d as [|d]; simpl.
  { right. by destruct (observerPhase w). }
  destruct (observerPhase w) eqn:Hw; [by right|].
  destruct (flowLazy d w v s0) as [state|] eqn:Hflow; [|by right].
  pose proof (run_observers_in_observer_phase d (FlowingState.observers state)
                (set_observerPhase true w) eq_refl) as [_ Hcells].
  destruct (run_observers _ _ _) as [[] w1|e w1]; simpl in Hcells |- *.
  - assert (Hlen : ∀ c, c < length (cells w) →
              c < length (cells (set_observerPhase false w1))).
    { intros c Hc. simpl. by rewrite Hcells. }
    rewrite (run_updates_last_assigned c1) by apply Hlen, H1.
    rewrite (run_updates_last_assigned c2) by apply Hlen, H2.
    rewrite (flowLazy_assigns_together _ _ _ _ _ _ _ _ H1 H2 Hflow).
    unfold reader. simpl. rewrite Hcells.
    destruct (last_assigned c2 (FlowingState.updates state)); simpl; auto.
  - right. unfold reader. simpl. by rewrite Hcells.
Qed.

(** ** What an injection schedules below the stream it starts from *)

Lemma visit_reach (w : world) (s t : nat) (v u : val) :
  visit w s v t u → reach w s t.
Proof.
  induction 1 as [|t c u r n Hv IH Hn Hr Hc|t m u vs n Hv IH Hn Hm].
  - constructor.
  - apply reach_trans with t; [done|].
    eapply reach_step; [done| |constructor]. apply elem_of_app. by left.
  - apply reach_trans with t; [done|].
    eapply reach_step; [done| |constructor]. apply elem_of_app. by right.
Qed.

Lemma reach_edge_below (w : world) (s t m : nat) (nt : StreamState) :
  reach w s t → nodes w !! t = Some nt → m ∈ next nt ++ lazyNext nt →
  below w s m.
Proof.
  induction 1 as [s|s c t n Hn Hc Hreach IH]; intros Hnt Hm.
  - exists nt, m. split_and!; [done..|constructor].
  - destruct (IH Hnt Hm) as (n' & c' & Hn' & Hc' & Hreach').
    exists n, c. split_and!; [done..|]. by eapply reach_step.
Qed.

Lemma below_reach (w : world) (s m t : nat) :
  below w s m → reach w m t → below w s t.
Proof.
  intros (n & c & Hn & Hc & Hcm) Hmt. exists n, c.
  split_and!; [done..|]. by eapply reach_trans.
Qed.


(** With stack for its children, an injection into [s] schedules the
    observers and update sinks of [s] first, bound to the result of its
    functor; whatever else it schedules belongs to a stream that [s]
    leads to. *)
Lemma flowLazy_own_then_below (d : nat) (w : world) (v r : val) (s : nat)
    (n : StreamState) (kept : list nat) (state : FlowingState) :
  nodes w !! s = Some n →
  functor n (cells w) v = Ok r →
  filterM (accepts w r) (next n) = Ok kept →
  flowLazy (S (S (S d))) w v s = Ok state →
  ∃ rest_o rest_u,
    FlowingState.observers state = map (λ f, f r) (observers n) ++ rest_o ∧
    FlowingState.updates state = map (λ p, (p, r)) (updates n) ++ rest_u ∧
    (∀ th, th ∈ rest_o →
       ∃ t nt f x, below w s t ∧ nodes w !! t = Some nt ∧
                   f ∈ observers nt ∧ th = f x) ∧
    (∀ p x, (p, x) ∈ rest_u →
       ∃ t nt, below w s t ∧ nodes w !! t = Some nt ∧ p ∈ updates nt).
Proof.
  intros Hn Hr Hk.
  destruct (flow_own_then_children d w v r s n kept Hn Hr Hk)
    as (states & HF & Hflow).
  assert (Hkid : ∀ c, c ∈ kept → ∀ t, reach w c t → below w s t).
  { intros c Hc t Hct. exists n, c. split_and!; [done| |done].
    apply elem_of_app. left. by eapply filterM_Ok_subset. }
  assert (Hkid_o : ∀ th, th ∈ concat (map FlowingState.observers states) →
            ∃ t nt f x, below w s t ∧ nodes w !! t = Some nt ∧
                        f ∈ observers nt ∧ th = f x).
  { intros th (st & Hst & Hth)%elem_of_concat_map.
    destruct (Forall2_result_elem _ _ _ _ HF Hst) as (c & Hc & Hfc).
    destruct (flow_sound _ _ _ _ _ Hfc) as (Hobs & _ & _).
    destruct (Hobs _ Hth) as (t & u & nt & x & Hv & Hnt & _ & f & Hf & ->).
    exists t, nt, f, x. split_and!; try done.
    eapply Hkid; [done|]. by eapply visit_reach. }
  assert (Hkid_u : ∀ p x, (p, x) ∈ concat (map FlowingState.updates states) →
            ∃ t nt, below w s t ∧ nodes w !! t = Some nt ∧ p ∈ updates nt).
  { intros p x (st & Hst & Hth)%elem_of_concat_map.
    destruct (Forall2_result_elem _ _ _ _ HF Hst) as (c & Hc & Hfc).
    destruct (flow_sound _ _ _ _ _ Hfc) as (_ & Hupd & _).
    destruct (Hupd _ _ Hth) as (t & u & nt & y & Hv & Hnt & _ & Hp & _).
    exists t, nt. split_and!; try done.
    eapply Hkid; [done|]. by eapply visit_reach. }
  assert (Hkid_w : ∀ m x,
            (m, x) ∈ map (λ m, (m, r)) (lazyNext n)
                       ++ concat (map FlowingState.waiting states) →
            below w s m).
  { intros m x [Hown|(st & Hst & Hth)%elem_of_concat_map]%elem_of_app.
    - apply list_elem_of_In, in_map_iff in Hown
        as (m' & [= -> _] & Hm%list_elem_of_In).
      exists n, m. split_and!; [done| |constructor]. apply elem_of_app. by right.
    - destruct (Forall2_result_elem _ _ _ _ HF Hst) as (c & Hc & Hfc).
      eapply Hkid; [done|]. by eapply flow_waiting_reach. }
  change (flowLazy (S (S (S d))) w v s) with
    (r ← flow (S (S d)) w v s;
     match FlowingState.waiting r with
     | [] => Ok r
     | _ :: _ =>
         map_reduce (λ sv : nat * list val, flowLazy (S (S d)) w (VArr sv.2) sv.1)
           (group (FlowingState.waiting r))
           (FlowingState.mk [] (FlowingState.observers r) (FlowingState.updates r))
     end).
  rewrite Hflow. cbn [mbind result_bind FlowingState.waiting
                        FlowingState.observers FlowingState.updates].
  destruct (map (λ m, (m, r)) (lazyNext n)
              ++ concat (map FlowingState.waiting states))
    as [|p0 pending] eqn:Hp.
  { intros [= <-]. eexists _, _. split; [done|]. split; [done|]. done. }
  rewrite <- Hp. intros (states2 & HF2 & ->)%map_reduce_inv.
  destruct (foldl_concat_fields
              (FlowingState.mk []
                 (map (λ f, f r) (observers n)
                    ++ concat (map FlowingState.observers states))
                 (map (λ p, (p, r)) (updates n)
                    ++ concat (map FlowingState.updates states)))
              states2) as (_ & -> & ->).
  cbn [FlowingState.observers FlowingState.updates]. rewrite <- !app_assoc.
  assert (Hround : ∀ st, st ∈ states2 →
            ∃ m vs, below w s m ∧ flowLazy (S (S d)) w (VArr vs) m = Ok st).
  { intros st Hst.
    destruct (Forall2_result_elem _ _ _ _ HF2 Hst) as ([m vs] & Hm & Hfm).
    exists m, vs. split; [|done]. rewrite group_tabulates in Hm.
    apply list_elem_of_In, in_map_iff in Hm as (m' & [= -> _] & Hm%list_elem_of_In).
    apply first_occurrences_elem, list_elem_of_fmap in Hm as ([m2 x2] & -> & Hin2).
    rewrite Hp in Hin2. exact (Hkid_w m2 x2 Hin2). }
  eexists _, _. split; [done|]. split; [done|]. split.
  - intros th [Hin|(st & Hst & Hth)%elem_of_concat_map]%elem_of_app;
      [by apply Hkid_o|].
    destruct (Hround _ Hst) as (m & vs & Hm & Hfm).
    destruct (flowLazy_sound _ _ _ _ _ Hfm) as [Hobs _].
    destruct (Hobs _ Hth) as (t & u & nt & x & Hv & Hnt & _ & f & Hf & ->).
    exists t, nt, f, x. split_and!; try done.
    eapply below_reach; [done|]. by eapply visit_reach.
  - intros p x [Hin|(st & Hst & Hth)%elem_of_concat_map]%elem_of_app;
      [by eapply Hkid_u|].
    destruct (Hround _ Hst) as (m & vs & Hm & Hfm).
    destruct (flowLazy_sound _ _ _ _ _ Hfm) as [_ Hupd].
    destruct (Hupd _ _ Hth) as (t & u & nt & y & Hv & Hnt & _ & Hpt & _).
    exists t, nt. split_and!; try done.
    eapply below_reach; [done|]. by eapply visit_reach.
Qed.

(** ** Observers before updates *)

(** C1, as the code has it.  Let [drip(s)(v)] complete its pure phase
    with FlowingState [state].  Every observer thunk that is invoked
    starts and ends on the property cells of before the call, and a
    property it reads has its pre-event value.  When all observer thunks
    have completed, and only then, the update thunks run, in order, and
    [state] is returned.  The reader of [hold(s)(init)] returns [init]
    right after [hold], and its cell is held on [s] only.  After the
    call it returns the result [r] of the functor of [s] on [v], which
    is [v] for [stream()], when the call had stack for the children of
    [s], no filter of a child threw, the cell is held on [s] only, [s]
    does not lead back to itself and every observer thunk completed;
    [s] may be fed by other streams. *)
Theorem drip_observers_before_updates (d s : nat) (v : val) (w : world)
    (state : FlowingState) :
  observerPhase w = false →
  flowLazy d w v s = Ok state →
  (∀ pre t post wa,
     FlowingState.observers state = pre ++ t :: post →
     run_observers (drip d) pre (set_observerPhase true w) = Return tt wa →
     cells wa = cells w ∧
     cells (final (exec (drip d) t wa)) = cells w ∧
     ∀ c k, exec (drip d) (ReadProp c k) wa = exec (drip d) (k (reader c w)) wa) ∧
  (∀ w1,
     run_observers (drip d) (FlowingState.observers state)
       (set_observerPhase true w) = Return tt w1 →
     cells w1 = cells w ∧
     drip (S d) s v w =
       Return state (run_updates (FlowingState.updates state)
                       (set_observerPhase false w1))) ∧
  (∀ w0 init c,
     hold s init w0 = Return c w →
     reader c w = init ∧ (allocated w0 → held_on w c s)) ∧
  (∀ d' n r kept c w1,
     d = S (S (S d')) →
     nodes w !! s = Some n →
     functor n (cells w) v = Ok r →
     filterM (accepts w r) (next n) = Ok kept →
     held_on w c s →
     ¬ below w s s →
     run_observers (drip d) (FlowingState.observers state)
       (set_observerPhase true w) = Return tt w1 →
     reader c (final (drip (S d) s v w)) = r).
Proof.
  intros Hw Hflow.
  assert (Hcells : ∀ ts wa,
            run_observers (drip d) ts (set_observerPhase true w) = Return tt wa →
            cells wa = cells w ∧ observerPhase wa = true).
  { intros ts wa Hrun.
    pose proof (run_observers_in_observer_phase d ts
                  (set_observerPhase true w) eq_refl) as [Hp Hc].
    rewrite Hrun in Hp, Hc. done. }
  assert (Hdrip : ∀ w1,
            run_observers (drip d) (FlowingState.observers state)
              (set_observerPhase true w) = Return tt w1 →
            drip (S d) s v w =
              Return state (run_updates (FlowingState.updates state)
                              (set_observerPhase false w1))).
  { intros w1 Hrun. simpl. by rewrite Hw, Hflow, Hrun. }
  split_and!.
  - intros pre t post wa _ Hpre. destruct (Hcells _ _ Hpre) as [Hc Hp].
    split_and!; [done| |].
    + destruct (exec_in_observer_phase d t wa Hp) as [_ ->]. done.
    + intros c k. simpl. unfold reader. by rewrite Hc.
  - intros w1 Hrun. split; [by apply Hcells in Hrun as [? _]|by apply Hdrip].
  - intros w0 init c Hhold. split; [by eapply hold_reader_init|].
    intros Halloc. by eapply hold_held_on.
  - intros d' n r kept c w1 -> Hn Hr Hk (Hc & (n' & Hn' & Hcn) & Honly) Hloop Hrun.
    rewrite (Hdrip _ Hrun). simpl.
    rewrite Hn in Hn'. injection Hn' as <-.
    destruct (flowLazy_own_then_below _ _ _ _ _ _ _ _ Hn Hr Hk Hflow)
      as (rest_o & rest_u & _ & Hupd & _ & Hrest).
    destruct (Hcells _ _ Hrun) as [Hc1 _].
    rewrite run_updates_reader with (r := r).
    + rewrite decide_True; [done|]. rewrite Hupd, fmap_app, elem_of_app. left.
      apply list_elem_of_fmap. exists (c, r). split; [done|].
      apply list_elem_of_fmap. by exists c.
    + simpl. by rewrite Hc1.
    + intros x Hx. rewrite Hupd in Hx. apply elem_of_app in Hx as [Hown|Hin].
      * apply list_elem_of_In, in_map_iff in Hown as (c' & [= _ ->] & _). done.
      * destruct (Hrest _ _ Hin) as (t & nt & Hbelow & Hnt & Hct).
        rewrite (Honly _ _ Hnt Hct) in Hbelow. done.
Qed.

(** ** Switching, from the graph *)


















(** ** The further properties, on the scenarios *)

(** Every element of a concrete list of streams is below the bound. *)
Ltac in_range H :=
  repeat (apply elem_of_cons in H as [->|H]; [vm_compute; lia|]);
  by apply elem_of_nil in H.

(** [flowLazy_throws_only_RangeError] on [chained_merges] with a stack
    that is exhausted in the second round. *)
Lemma flowLazy_throws_only_RangeError_witness :
  ∃ e, flowLazy 2 chained_merges (VNum 1) 0 = Err e ∧ e = RangeError.
Proof.
  exists RangeError. split; [vm_compute; reflexivity|].
  apply (flowLazy_throws_only_RangeError 2 chained_merges (VNum 1) 0).
  vm_compute; reflexivity.
Defined.

(** [drip_returns_no_pending] on [diamond], where the first round leaves
    two pending pairs. *)
Lemma drip_returns_no_pending_witness :
  flow 5 diamond (VNum 3) 0
    = Ok (FlowingState.mk [(3, VNum 4); (3, VNum 6)] [] []) ∧
  ∃ fs w', drip 7 0 (VNum 3) diamond = Return fs w' ∧
           FlowingState.waiting fs = [].
Proof.
  split; [vm_compute; reflexivity|].
  destruct (drip 7 0 (VNum 3) diamond) as [fs w'|e w'] eqn:Hd.
  - exists fs, w'. split; [reflexivity|].
    exact (drip_returns_no_pending 7 0 (VNum 3) diamond w' fs Hd).
  - vm_compute in Hd. discriminate Hd.
Defined.

(** [flow_own_effects_first] on [held_and_observed]: the observer and
    the update of [s] come before the observer of its child. *)
Lemma flow_own_effects_first_witness :
  nodes held_and_observed !! 0
    = Some (mkStream parrot None [1] [] [0] [λ _, ReadProp 0 (λ x, Push x Done)]) ∧
  ∃ states,
    Forall2 (λ c st, flow 2 held_and_observed (VNum 5) c = Ok st) [1] states ∧
    flow 3 held_and_observed (VNum 5) 0 =
      Ok (FlowingState.mk
            ([] ++ concat (map FlowingState.waiting states))
            ([ReadProp 0 (λ x, Push x Done)]
               ++ concat (map FlowingState.observers states))
            ([(0, VNum 5)] ++ concat (map FlowingState.updates states))).
Proof.
  split; [reflexivity|].
  apply (flow_own_effects_first 1 held_and_observed (VNum 5) (VNum 5) 0
           (mkStream parrot None [1] [] [0] [λ _, ReadProp 0 (λ x, Push x Done)])
           [1]); reflexivity.
Defined.

(** [propagation_is_local] on [doubling] and [doubling] with one more
    stream, unrelated to the first. *)
Lemma propagation_is_local_witness :
  cells (stream succ_functor doubling).2 = cells doubling ∧
  flow 5 (stream succ_functor doubling).2 (VNum 3) 0 = flow 5 doubling (VNum 3) 0 ∧
  flowLazy 5 (stream succ_functor doubling).2 (VNum 3) 0
    = flowLazy 5 doubling (VNum 3) 0.
Proof.
  assert (Hsame : ∀ x, x < 2 →
            nodes (stream succ_functor doubling).2 !! x = nodes doubling !! x).
  { intros x Hx. destruct x as [|[|x]]; [reflexivity..|lia]. }
  assert (Hclosed : closed doubling).
  { intros t nt x Ht Hx. each_node t Ht; simpl in Hx; in_range Hx. }
  assert (Hnext : ∀ x, reach_next doubling 0 x → x < 2).
  { intros x Hx. apply (reach_next_lt doubling 0 x Hclosed); [vm_compute; lia|done]. }
  assert (Hall : ∀ s x, reach doubling s x → s < 2 → x < 2).
  { intros s x Hx. induction Hx as [s|s c x n Hn Hc _ IH]; [done|].
    intros _. apply IH. each_node s Hn; simpl in Hc; in_range Hc. }
  destruct (propagation_is_local 5 doubling (stream succ_functor doubling).2
              (VNum 3) 0 eq_refl) as [Hflow Hlazy].
  split; [reflexivity|]. split.
  - apply Hflow. intros x Hx. by apply Hsame, Hnext.
  - apply Hlazy. intros x Hx. apply Hsame, (Hall 0 x Hx). lia.
Defined.

(** [flowLazy_thunks_sound] on [diamond]: the one thunk is the observer
    of the merge node, scheduled by the second round, and it is bound to
    the sum of the two values that arrived. *)
Lemma flowLazy_thunks_sound_witness :
  flowLazy 6 diamond (VNum 3) 0
    = Ok (FlowingState.mk [] [obs_push (VNum 10)] []) ∧
  round diamond 6 0 (VNum 3) 5 3 (VArr [VNum 4; VNum 6]) ∧
  scheduled_by diamond 6 0 (VNum 3)
    (λ nc y, ∃ f, f ∈ observers nc ∧ obs_push (VNum 10) = f y).
Proof.
  assert (Hflow : flowLazy 6 diamond (VNum 3) 0
            = Ok (FlowingState.mk [] [obs_push (VNum 10)] []))
    by (vm_compute; reflexivity).
  split; [exact Hflow|]. split.
  - apply (round_merge diamond 6 0 (VNum 3) 5 0 3 (VNum 3)
             (FlowingState.mk [(3, VNum 4); (3, VNum 6)] [] []));
      [constructor|vm_compute; reflexivity|apply list_elem_of_here].
  - destruct (flowLazy_thunks_sound 6 diamond (VNum 3) 0 _ Hflow) as [Hobs _].
    apply Hobs. simpl. apply list_elem_of_here.
Defined.

(** The child of [s] in [held_and_observed] does not lead back to [s]. *)
Lemma held_and_observed_acyclic (c : nat) :
  c ∈ [1] → ¬ reach_next held_and_observed c 0.
Proof.
  intros Hc Hreach. apply list_elem_of_singleton in Hc as ->.
  inversion Hreach as [|? c' ? n1 Hn1 Hc' _]; subst.
  vm_compute in Hn1. injection Hn1 as <-. simpl in Hc'.
  by apply elem_of_nil in Hc'.
Qed.

Lemma held_and_observed_closed : closed held_and_observed.
Proof. intros t nt x Ht Hx. each_node t Ht; simpl in Hx; in_range Hx. Qed.

(** [pipe_delivers] on [held_and_observed], with a second stream piped
    from [s]. *)
Lemma pipe_delivers_witness :
  pipe 0 double_functor held_and_observed
    = Return 2 (final (pipe 0 double_functor held_and_observed)) ∧
  flow 3 (final (listen 2 obs_push (final (pipe 0 double_functor held_and_observed))))
       (VNum 5) 0
    = Ok (FlowingState.mk []
            [ReadProp 0 (λ x, Push x Done); obs_push (VNum 6); obs_push (VNum 10)]
            [(0, VNum 5)]).
Proof.
  split; [reflexivity|].
  destruct (pipe_delivers 1 held_and_observed
              (final (pipe 0 double_functor held_and_observed))
              (final (listen 2 obs_push
                        (final (pipe 0 double_functor held_and_observed))))
              (VNum 5) (VNum 5) 0 2
              (mkStream parrot None [1] [] [0] [λ _, ReadProp 0 (λ x, Push x Done)])
              [1] double_functor obs_push
              held_and_observed_closed eq_refl held_and_observed_acyclic
              eq_refl eq_refl eq_refl eq_refl)
    as (fs & Hfs & Hflow).
  vm_compute in Hfs. injection Hfs as <-. exact Hflow.
Defined.

(** [snapshot_samples] on [held_and_observed]: the injection of 5
    assigns the property, and the sample is the 0 it held before. *)
Lemma snapshot_samples_witness :
  reader 0 held_and_observed = VNum 0 ∧
  flow 3 (final (listen 2 obs_push (final (snapshot 0 (held 0) held_and_observed))))
       (VNum 5) 0
    = Ok (FlowingState.mk []
            [ReadProp 0 (λ x, Push x Done); obs_push (VNum 6); obs_push (VNum 0)]
            [(0, VNum 5)]).
Proof.
  split; [reflexivity|].
  destruct (snapshot_samples 1 held_and_observed
              (final (snapshot 0 (held 0) held_and_observed))
              (final (listen 2 obs_push
                        (final (snapshot 0 (held 0) held_and_observed))))
              (VNum 5) (VNum 5) 0 2
              (mkStream parrot None [1] [] [0] [λ _, ReadProp 0 (λ x, Push x Done)])
              [1] (held 0) obs_push
              held_and_observed_closed eq_refl held_and_observed_acyclic
              eq_refl eq_refl eq_refl eq_refl)
    as (fs & Hfs & _ & Hheld).
  vm_compute in Hfs. injection Hfs as <-. exact (Hheld 0 eq_refl).
Defined.

(** [filter_passes_iff] on [held_and_observed] with a filter for the
    positive numbers: 5 passes, -5 does not, and on something that is not
    a number, on which the predicate throws, nothing is left. *)
Lemma filter_passes_iff_witness :
  flow 3 (final (listen 2 obs_push (final (filter_stream 0 positive held_and_observed))))
       (VNum 5) 0
    = Ok (FlowingState.mk []
            [ReadProp 0 (λ x, Push x Done); obs_push (VNum 6); obs_push (VNum 5)]
            [(0, VNum 5)]) ∧
  flow 3 (final (listen 2 obs_push (final (filter_stream 0 positive held_and_observed))))
       (VNum (-5)) 0
    = Ok (FlowingState.mk []
            [ReadProp 0 (λ x, Push x Done); obs_push (VNum (-4))]
            [(0, VNum (-5))]) ∧
  flow 3 (final (listen 2 obs_push (final (filter_stream 0 positive held_and_observed))))
       VUndef 0
    = Ok emptyFlowingState.
Proof.
  pose proof (λ v, filter_passes_iff 1 held_and_observed
              (final (filter_stream 0 positive held_and_observed))
              (final (listen 2 obs_push
                        (final (filter_stream 0 positive held_and_observed))))
              v v 0 2
              (mkStream parrot None [1] [] [0] [λ _, ReadProp 0 (λ x, Push x Done)])
              [1] positive obs_push
              held_and_observed_closed eq_refl held_and_observed_acyclic
              eq_refl eq_refl eq_refl eq_refl) as H.
  split; [|split].
  - destruct (H (VNum 5)) as (fs & Hfs & Hflow).
    vm_compute in Hfs. injection Hfs as <-. exact Hflow.
  - destruct (H (VNum (-5))) as (fs & Hfs & Hflow).
    vm_compute in Hfs. injection Hfs as <-. exact Hflow.
  - destruct (H VUndef) as (fs & Hfs & Hflow). exact Hflow.
Defined.

Lemma well_formed_world0 : well_formed world0.
Proof. intros t nt Ht. by destruct t. Qed.

(** [accum_progresses] on [counter]: the sum starts at 0 and is 5 after
    the injection of 5. *)
Lemma accum_progresses_witness :
  accum 0 plus (VNum 0) lone_source = Return 0 counter ∧
  reader 0 counter = VNum 0 ∧
  reader 0 (final (drip 6 0 (VNum 5) counter)) = VNum 5.
Proof.
  destruct accum_progresses as [Hseed Hstep].
  destruct (Hseed 0 0 plus (VNum 0) lone_source counter
              (mkStream parrot None [] [] [] [])
              (well_formed_stream parrot world0 well_formed_world0)
              eq_refl eq_refl) as (Hread & t & Hacc).
  split; [reflexivity|]. split; [exact Hread|].
  apply (Hstep 2 0 t 0 plus (VNum 5) (VNum 5) (VNum 5) counter
           (set_observerPhase true counter)
           (FlowingState.mk [] [] [(0, VNum 5)])
           (mkStream parrot None [1] [] [] []) [1]);
    try reflexivity; [exact Hacc|].
  intros (p & np & Hp & [Hin|Hin]); each_node p Hp; simpl in Hin; no_elem Hin.
Defined.

(** [merge_delivers_fold] on [diamond]: 3 is injected, 4 and 6 arrive at
    the merge node, and its observer is bound to 10. *)
Lemma merge_delivers_fold_witness :
  flow 5 diamond (VNum 3) 0
    = Ok (FlowingState.mk [(3, VNum 4); (3, VNum 6)] [] []) ∧
  flowLazy 6 diamond (VNum 3) 0
    = Ok (FlowingState.mk [] [obs_push (VNum 10)] []) ∧
  obs_push (VNum 10) ∈ [obs_push (VNum 10)].
Proof.
  assert (Hflow : flow 5 diamond (VNum 3) 0
            = Ok (FlowingState.mk [(3, VNum 4); (3, VNum 6)] [] []))
    by (vm_compute; reflexivity).
  assert (Hlazy : flowLazy 6 diamond (VNum 3) 0
            = Ok (FlowingState.mk [] [obs_push (VNum 10)] []))
    by (vm_compute; reflexivity).
  split; [exact Hflow|]. split; [exact Hlazy|].
  apply (merge_delivers_fold 2 diamond (VNum 3) (VNum 4) (VNum 10) [VNum 6] 0 3
           _ _ (mkStream (merge_functor plus) None [] [] [] [obs_push]) plus []
           obs_push Hflow eq_refl eq_refl eq_refl eq_refl eq_refl Hlazy).
  apply list_elem_of_here.
Defined.

(** [merge_registers] on [forked]: the merge of its two branches. *)
Lemma merge_registers_witness :
  (∀ s, s ∈ [1; 2] → s < length (nodes forked)) ∧
  ∃ w', merge [1; 2] plus forked = Return 3 w' ∧
    nodes w' !! 1 = Some (mkStream succ_functor None [] [3] [] []) ∧
    nodes w' !! 2 = Some (mkStream double_functor None [] [3] [] []) ∧
    nodes w' !! 0 = nodes forked !! 0.
Proof.
  assert (Hsrc : ∀ s, s ∈ [1; 2] → s < length (nodes forked)).
  { intros s Hs. in_range Hs. }
  split; [exact Hsrc|].
  destruct (merge_registers [1; 2] plus forked Hsrc)
    as (w' & Hm & _ & Hreg & Hsame & _).
  exists w'. split; [exact Hm|]. split; [|split].
  - apply (Hreg 1 (mkStream succ_functor None [] [] [] []));
      [apply list_elem_of_here|reflexivity].
  - apply (Hreg 2 (mkStream double_functor None [] [] [] []));
      [apply list_elem_of_further, list_elem_of_here|reflexivity].
  - apply Hsame; [|vm_compute; lia]. intros Hin. no_elem Hin.
Defined.

(** [merge_failure_keeps_registrations] on [forked]: [merge([a, x, b])]
    with an [x] that is not a stream throws, and [a] is left with the
    new stream in its [lazyNext]. *)
Lemma merge_failure_keeps_registrations_witness :
  ∃ w', merge ([1] ++ 7 :: [2]) plus forked = Raise TypeError w' ∧
    ∃ n', nodes w' !! 1 = Some n' ∧ 3 ∈ lazyNext n'.
Proof.
  destruct (merge_failure_keeps_registrations [1] [2] 7 plus forked)
    as (w' & Hm & Hreg & _).
  - intros s Hs. in_range Hs.
  - vm_compute; lia.
  - exists w'. split; [exact Hm|].
    apply (Hreg 1 (mkStream succ_functor None [] [] [] []));
      [apply list_elem_of_here|reflexivity].
Defined.

(** [unreferenced_stream_is_silent] on [forked], which has no observer
    and no property. *)
Lemma unreferenced_stream_is_silent_witness :
  countRefs 5 forked 0 true = Ok 0 ∧
  drip 4 0 (VNum 1) forked = Return emptyFlowingState forked.
Proof.
  split; [reflexivity|].
  apply (unreferenced_stream_is_silent 5 3 forked 0 (VNum 1)); reflexivity.
Defined.

(** [clear_zeroes_countRefs] on [held_and_observed]: the child of the
    cleared stream had an observer. *)
Lemma clear_zeroes_countRefs_witness :
  countRefs 3 held_and_observed 1 true = Ok 1 ∧
  countRefs 3 (final (clear 5 0 held_and_observed)) 1 true = Ok 0.
Proof.
  split; [reflexivity|].
  apply (clear_zeroes_countRefs 5 2 0 1 held_and_observed
           (final (clear 5 0 held_and_observed)) true eq_refl).
  eapply reach_child; [reflexivity|apply list_elem_of_here|constructor].
Defined.

(** [countRefs_counts_registrations] on [held_successor]: one property,
    then one observer more. *)
Lemma countRefs_counts_registrations_witness :
  countRefs 1 held_successor 0 false = Ok 1 ∧
  nodes held_successor !! 0 = Some (mkStream succ_functor None [] [] [0] []) ∧
  countRefs 1 (final (listen 0 obs_push held_successor)) 0 false = Ok 2.
Proof.
  split; [reflexivity|]. split; [reflexivity|].
  destruct (countRefs_counts_registrations 0 held_successor 0 1 eq_refl)
    as (Hlisten & _).
  apply (Hlisten obs_push (final (listen 0 obs_push held_successor))
           (mkStream succ_functor None [] [] [0] []) eq_refl);
    [|reflexivity].
  simpl. intros Hin. by apply elem_of_nil in Hin.
Defined.

(** [clear_throws_on_cycle] on [self_fed], where the output of [shed] is
    its own child. *)
Lemma clear_throws_on_cycle_witness :
  on_cycle self_fed 1 ∧ ∃ e w', clear 7 1 self_fed = Raise e w'.
Proof.
  assert (Hcycle : on_cycle self_fed 1).
  { exists (mkStream parrot None [1] [] [] []), 1.
    split; [reflexivity|]. split; [apply list_elem_of_here|constructor]. }
  split; [exact Hcycle|].
  apply (clear_throws_on_cycle 7 1 1 self_fed); [constructor|exact Hcycle].
Defined.

(** [drip_swallows_bad_target] on [held_successor], for something that
    is not a stream. *)
Lemma drip_swallows_bad_target_witness :
  nodes held_successor !! 9 = None ∧
  drip 5 9 (VNum 1) held_successor = Return emptyFlowingState held_successor.
Proof.
  split; [reflexivity|].
  apply (drip_swallows_bad_target 4 9 (VNum 1) held_successor TypeError);
    reflexivity.
Defined.

(** [construction_keeps_well_formed] on the empty world and on
    [lone_source]. *)
Lemma construction_keeps_well_formed_witness :
  well_formed world0 ∧ well_formed lone_source ∧ well_formed counter.
Proof.
  split; [exact well_formed_world0|].
  destruct (construction_keeps_well_formed world0 well_formed_world0)
    as (Hstream & _).
  split; [exact (Hstream parrot)|].
  destruct (construction_keeps_well_formed lone_source (Hstream parrot))
    as (_ & _ & _ & _ & _ & _ & _ & Haccum & _).
  exact (Haccum 0 plus (VNum 0)).
Defined.

(** [flowLazy_without_merges] on [held_and_observed]. *)
Lemma flowLazy_without_merges_witness :
  (∀ x n, reach_next held_and_observed 0 x →
          nodes held_and_observed !! x = Some n → lazyNext n = []) ∧
  flowLazy 4 held_and_observed (VNum 5) 0 = flow 3 held_and_observed (VNum 5) 0.
Proof.
  assert (Hnone : ∀ x n, reach_next held_and_observed 0 x →
            nodes held_and_observed !! x = Some n → lazyNext n = []).
  { intros x n _ Hn. each_node x Hn; reflexivity. }
  split; [exact Hnone|].
  exact (flowLazy_without_merges 3 held_and_observed (VNum 5) 0 Hnone).
Defined.

(** [held_together_agree] on [held_twice]: the properties start at 0 and
    100, and both read 6 after the injection of 5. *)
Lemma held_together_agree_witness :
  reader 0 held_twice = VNum 0 ∧ reader 1 held_twice = VNum 100 ∧
  reader 0 (final (drip 5 0 (VNum 5) held_twice)) = VNum 6 ∧
  reader 1 (final (drip 5 0 (VNum 5) held_twice)) = VNum 6.
Proof.
  assert (Hheld : ∀ c, c ∈ [0; 1] → held_on held_twice c 0).
  { intros c Hc. split; [in_range Hc|]. split.
    - eexists. split; [reflexivity|]. simpl.
      apply elem_of_cons in Hc as [->|Hc]; [apply list_elem_of_here|].
      apply list_elem_of_singleton in Hc as ->.
      apply list_elem_of_further, list_elem_of_here.
    - intros t nt Ht Hin. each_node t Ht. done. }
  split; [reflexivity|]. split; [reflexivity|].
  assert (H0 : reader 0 (final (drip 5 0 (VNum 5) held_twice)) = VNum 6)
    by (vm_compute; reflexivity).
  split; [exact H0|].
  destruct (held_together_agree 5 0 0 1 0 (VNum 5) held_twice)
    as [Hsame|[Hold _]].
  - apply Hheld, list_elem_of_here.
  - apply Hheld, list_elem_of_further, list_elem_of_here.
  - rewrite <- Hsame. exact H0.
  - rewrite H0 in Hold. vm_compute in Hold. discriminate Hold.
Defined.

(** [drip_observers_before_updates] on [held_downstream], where [s] is
    fed by [a]: the observer of [s] reads 0 during the injection of 5
    into [s], the property reads 6, the result of the functor of [s],
    after it. *)
Lemma drip_observers_before_updates_witness :
  observerPhase held_downstream = false ∧
  flowLazy 5 held_downstream (VNum 5) 1
    = Ok (FlowingState.mk [] [ReadProp 0 (λ x, Push x Done)] [(0, VNum 6)]) ∧
  fed held_downstream 1 ∧ ¬ below held_downstream 1 1 ∧
  reader 0 held_downstream = VNum 0 ∧
  exec (drip 5) (ReadProp 0 (λ x, Push x Done))
       (set_observerPhase true held_downstream)
    = exec (drip 5) (Push (VNum 0) Done)
        (set_observerPhase true held_downstream) ∧
  reader 0 (final (drip 6 1 (VNum 5) held_downstream)) = VNum 6.
Proof.
  assert (Hflow : flowLazy 5 held_downstream (VNum 5) 1
            = Ok (FlowingState.mk [] [ReadProp 0 (λ x, Push x Done)]
                    [(0, VNum 6)])) by (vm_compute; reflexivity).
  assert (Hloop : ¬ below held_downstream 1 1).
  { intros (n & c & Hn & Hc & Hreach). vm_compute in Hn. injection Hn as <-.
    simpl in Hc. apply list_elem_of_singleton in Hc as ->.
    inversion Hreach as [|? c' ? n2 Hn2 Hc' _]; subst.
    vm_compute in Hn2. injection Hn2 as <-. simpl in Hc'.
    by apply elem_of_nil in Hc'. }
  destruct (drip_observers_before_updates 5 1 (VNum 5) held_downstream _
              eq_refl Hflow) as (Hobs & _ & _ & Hafter).
  split; [reflexivity|]. split; [exact Hflow|]. split.
  { exists 0, (mkStream parrot None [1] [] [] []). split; [reflexivity|].
    left. apply list_elem_of_here. }
  split; [exact Hloop|]. split; [reflexivity|]. split.
  - destruct (Hobs [] (ReadProp 0 (λ x, Push x Done)) []
                (set_observerPhase true held_downstream) eq_refl eq_refl)
      as (_ & _ & Hread).
    apply (Hread 0 (λ x, Push x Done)).
  - eapply (Hafter 2 _ (VNum 6) [2] 0); [reflexivity..| |exact Hloop|reflexivity].
    split; [simpl; lia|]. split.
    + eexists. split; [reflexivity|]. simpl. apply list_elem_of_here.
    + intros t nt Ht Hc. each_node t Ht; simpl in Hc; try no_elem Hc. done.
Defined.





